(** * Marked cylindrical isolation engine

    A shallow embedding of
    [halotools/mock_observables/isolation_functions/engines/marked_cylindrical_isolation_engine.pyx]
    and the properties of its neighbour scan.

    Modelling conventions.
    - [cnp.float64_t] is Rocq's primitive binary64 [float]; every arithmetic
      operation and comparison of the source is the IEEE operation of the
      same name.
    - C integers ([int], [cnp.int64_t]) are [Z].  The assignment of a Python
      integer to a [cdef] variable is a checked conversion, which raises
      [OverflowError] outside the C type ([as_int], [as_int64]).  Signed
      overflow of C arithmetic is undefined and is not modelled: a valid
      invocation bounds the counts, steps and sample sizes so that none
      occurs.
    - Python exceptions are the [Err] results of an error monad.  The source
      switches bounds checking off ([boundscheck(False)], [wraparound(False)]):
      an access outside a typed memoryview has no defined behaviour, and is the
      error [Fault] here.
    - A cell view [x1[ifirst1:ilast1]] followed by [x_icell1[i]] is the access
      [x1[ifirst1 + i]] of the sorted array.
    - An exception raised in the engine ends the call with that exception.
      What becomes of the [raise] in the [cdef] helper
      [return_conditional_function] depends on the Cython that builds the
      module ([cdef_raise]), and the engine takes the build as a parameter. *)

From Stdlib Require Import ZArith List Bool Lia Floats Permutation.
Import ListNotations.

Open Scope Z_scope.

(** ** Errors *)

Inductive error : Set :=
| ValueError
| ZeroDivisionError
| IndexError
| OverflowError
| Fault.

Inductive result (A : Type) : Type :=
| Ok (a : A)
| Err (e : error).

Arguments Ok {A} a.
Arguments Err {A} e.

Definition bind {A B : Type} (r : result A) (k : A -> result B) : result B :=
  match r with
  | Ok a => k a
  | Err e => Err e
  end.

Notation "x <- r ;; k" := (bind r (fun x => k))
  (at level 61, r at next level, right associativity).

(** ** Python, NumPy and Cython primitives *)

(** [range(lo, hi)]: the integers [lo <= k < hi], ascending. *)
Definition py_range (lo hi : Z) : list Z :=
  map (fun k => lo + Z.of_nat k) (seq 0 (Z.to_nat (hi - lo))).

(** [a // b] and [a % b] on C integers without [cdivision]: Python's floor
    division and modulo, raising on a zero divisor. *)
Definition py_floordiv (a b : Z) : result Z :=
  if b =? 0 then Err ZeroDivisionError else Ok (a / b).

Definition py_mod (a b : Z) : result Z :=
  if b =? 0 then Err ZeroDivisionError else Ok (a mod b).

(** [for x in l: s = body(x, s)], stopping at the first exception. *)
Fixpoint for_in {S : Type} (l : list Z) (body : Z -> S -> result S) (s : S)
  : result S :=
  match l with
  | [] => Ok s
  | x :: l' => s' <- body x s ;; for_in l' body s'
  end.

(** Indexing a typed memoryview, bounds checks off. *)
Definition view_get {A : Type} (v : list A) (i : Z) : result A :=
  if i <? 0 then Err Fault
  else match nth_error v (Z.to_nat i) with
       | Some a => Ok a
       | None => Err Fault
       end.

Fixpoint list_set {A : Type} (v : list A) (n : nat) (a : A) : list A :=
  match v, n with
  | [], _ => []
  | _ :: v', O => a :: v'
  | b :: v', S n' => b :: list_set v' n' a
  end.

Definition view_set {A : Type} (v : list A) (i : Z) (a : A) : result (list A) :=
  if i <? 0 then Err Fault
  else if (Z.to_nat i <? length v)%nat then Ok (list_set v (Z.to_nat i) a)
  else Err Fault.

(** [a[idx]] for an integer index array: gathers [a[idx[0]], a[idx[1]], ...];
    an index outside [a] raises [IndexError]. *)
Fixpoint np_take {A : Type} (a : list A) (idx : list nat) : result (list A) :=
  match idx with
  | [] => Ok []
  | k :: idx' =>
      match nth_error a k with
      | None => Err IndexError
      | Some v => r <- np_take a idx' ;; Ok (v :: r)
      end
  end.

(** [a[mask]] for a boolean mask: the entries of [a] where the mask holds;
    the two shapes must agree. *)
Fixpoint select {A : Type} (a : list A) (mask : list bool) : list A :=
  match a, mask with
  | v :: a', b :: mask' => if b then v :: select a' mask' else select a' mask'
  | _, _ => []
  end.

Definition np_mask {A : Type} (a : list A) (mask : list bool) : result (list A) :=
  if (length a =? length mask)%nat then Ok (select a mask) else Err IndexError.

(** [a[idx] = v] for an integer index array. *)
Fixpoint np_put {A : Type} (a : list A) (idx : list nat) (v : A) : result (list A) :=
  match idx with
  | [] => Ok a
  | k :: idx' =>
      if (k <? length a)%nat then np_put (list_set a k v) idx' v
      else Err IndexError
  end.

(** The assignment of a Python integer to a [cdef int] (32 bits) and to a
    [cdef cnp.int64_t]: [OverflowError] when the value is outside the type. *)
Definition as_int (n : Z) : result Z :=
  if (- 2 ^ 31 <=? n) && (n <? 2 ^ 31) then Ok n else Err OverflowError.

Definition as_int64 (n : Z) : result Z :=
  if (- 2 ^ 63 <=? n) && (n <? 2 ^ 63) then Ok n else Err OverflowError.

(** The assignment of a wider C integer to a C [int] is a C conversion, with
    no check: the low 32 bits, read as a signed number. *)
Definition to_int (n : Z) : Z := (n + 2 ^ 31) mod 2 ^ 32 - 2 ^ 31.

(** [np.zeros(n)] for a C [int] [n]: the length of the new array;
    [ValueError] on a negative size. *)
Definition np_zeros_size (n : Z) : result nat :=
  if n <? 0 then Err ValueError else Ok (Z.to_nat n).

(** ** binary64 helpers *)

(** Conversion of a C integer to [double] (round to nearest even). *)
Definition of_int (n : Z) : float :=
  SF2Prim (binary_normalize prec emax n 0 false).

(** A [bint] stored in a [cnp.float64_t] variable. *)
Definition of_bint (b : bool) : float := of_int (if b then 1 else 0).

(** [int(np.ceil(x))]: the least integer not below [x]; [int] raises
    [ValueError] on a NaN and [OverflowError] on an infinity.  The search
    lengths and cell sizes of the mesh are binary64 scalars, so the [x] of
    lines 120-125 is an IEEE quotient. *)
Definition int_ceil (x : float) : result Z :=
  match Prim2SF x with
  | S754_zero _ => Ok 0
  | S754_infinity _ => Err OverflowError
  | S754_nan => Err ValueError
  | S754_finite s m e =>
      let n := if s then Z.neg m else Z.pos m in
      if 0 <=? e then Ok (n * 2 ^ e) else Ok (- ((- n) / 2 ^ (- e)))
  end.

(** ** Marking functions *)

(** The [ctypedef] of [f_type]: a [bint] function of two pointers to
    [cnp.float64_t]; each points to the row of a two-dimensional weight array,
    a weight vector. *)
Definition f_type : Type := list float -> list float -> bool.

(** [w[0]], the first weight component (rows have width at least one). *)
Definition w0 (w : list float) : float := nth 0%nat w 0%float.

(** Modelled from the spec: the seven marking functions are cimported from
    [isolation_criteria_marking_functions], which is not among the sources;
    their conditions are those of the spec's predicate table (section 4.1). *)
Definition trivial : f_type := fun _ _ => true.
Definition gt_cond : f_type := fun w1 w2 => (w0 w2 <? w0 w1)%float.
Definition lt_cond : f_type := fun w1 w2 => (w0 w1 <? w0 w2)%float.
Definition eq_cond : f_type := fun w1 w2 => (w0 w1 =? w0 w2)%float.
Definition neq_cond : f_type := fun w1 w2 => negb (w0 w1 =? w0 w2)%float.
Definition tg_cond : f_type := fun w1 w2 => (w0 w2 <=? w0 w1)%float.
Definition lg_cond : f_type := fun w1 w2 => (w0 w1 <=? w0 w2)%float.

(** [return_conditional_function], lines 260-280, up to its [raise]. *)
Definition return_conditional_function (cond_func_id : Z) : result f_type :=
  if cond_func_id =? 0 then Ok trivial
  else if cond_func_id =? 1 then Ok gt_cond
  else if cond_func_id =? 2 then Ok lt_cond
  else if cond_func_id =? 3 then Ok eq_cond
  else if cond_func_id =? 4 then Ok neq_cond
  else if cond_func_id =? 5 then Ok tg_cond
  else if cond_func_id =? 6 then Ok lg_cond
  else Err ValueError.

(** Line 260 declares the helper [cdef f_type ...], a C return value and no
    exception value.  What a [raise] in such a function does is decided by
    the Cython that compiles the module, which is not part of the sources:
    before Cython 3 the exception is printed and dropped and the function
    returns zero, here the NULL pointer; from Cython 3 on the exception
    reaches the caller. *)
Inductive cdef_raise : Set :=
| Dropped
| Propagated.

(** The call of a [cdef] function that returns a pointer; [None] is NULL. *)
Definition call_cdef {A : Type} (build : cdef_raise) (r : result A)
  : result (option A) :=
  match r with
  | Ok a => Ok (Some a)
  | Err e =>
      match build with
      | Dropped => Ok None
      | Propagated => Err e
      end
  end.

(** ** The double mesh (consumed) *)

Module Mesh.
Record t : Type := {
  idx_sorted : list nat;
  cell_id_indices : list Z;
  ncells : Z;
  num_xdivs : Z;
  num_ydivs : Z;
  num_zdivs : Z;
  xcell_size : float;
  ycell_size : float;
  zcell_size : float
}.
End Mesh.

Module DoubleMesh.
Record t : Type := {
  mesh1 : Mesh.t;
  mesh2 : Mesh.t;
  xperiod : float;
  yperiod : float;
  zperiod : float;
  _PBCs : Z;
  search_xlength : float;
  search_ylength : float;
  search_zlength : float
}.
End DoubleMesh.

(** ** The engine *)

(** The [cdef] locals that the loops and the result assembly read, once
    lines 81-139 have run; [wfunc] is a pointer, [None] when it is NULL, and
    [Npts1], the size of [has_neighbor], is not negative. *)
Record locals : Type := {
  wfunc : option f_type;
  rp_max_squared : list float;
  pi_max_squared : list float;
  xperiod : float;
  yperiod : float;
  zperiod : float;
  first_cell1_element : Z;
  last_cell1_element : Z;
  PBCs : Z;
  Npts1 : nat;
  x1 : list float;
  y1 : list float;
  z1 : list float;
  x2 : list float;
  y2 : list float;
  z2 : list float;
  weights1 : list (list float);
  weights2 : list (list float);
  cell1_indices : list Z;
  cell2_indices : list Z;
  num_x2_covering_steps : Z;
  num_y2_covering_steps : Z;
  num_z2_covering_steps : Z;
  num_x1divs : Z;
  num_y1divs : Z;
  num_z1divs : Z;
  num_x2divs : Z;
  num_y2divs : Z;
  num_z2divs : Z;
  num_x2_per_x1 : Z;
  num_y2_per_y1 : Z;
  num_z2_per_z1 : Z
}.

(** Lines 81-139, in the order of the source: predicate selection, squared
    radii, work range, periodicity flag, sample size, sorted copies of the
    inputs, covering steps, division counts and division ratios.  The values
    of lines 81, 94-98, 120-125 and 131-136 are Python objects, whose
    assignment to a [cdef] integer is checked.  The [len(x1in)] of line 99 is
    the C [Py_ssize_t] of [PyObject_Length], which the assignment to the
    [int] [Npts1] cuts to 32 bits; [Npts1] is the size of the array of
    zeros of line 100. *)
Definition engine_locals (build : cdef_raise) (double_mesh : DoubleMesh.t)
    (x1in y1in z1in x2in y2in z2in : list float)
    (weights1in weights2in : list (list float)) (weight_func_idin : Z)
    (rp_max pi_max : list float) (cell1_tuple : Z * Z) : result locals :=
  let mesh1 := DoubleMesh.mesh1 double_mesh in
  let mesh2 := DoubleMesh.mesh2 double_mesh in
  weight_func_id <- as_int weight_func_idin ;;
  wfunc <- call_cdef build (return_conditional_function weight_func_id) ;;
  rp_max_squared <-
    np_take (map (fun r => r * r)%float rp_max) (Mesh.idx_sorted mesh1) ;;
  pi_max_squared <-
    np_take (map (fun r => r * r)%float pi_max) (Mesh.idx_sorted mesh1) ;;
  first_cell1_element <- as_int64 (fst cell1_tuple) ;;
  last_cell1_element <- as_int64 (snd cell1_tuple) ;;
  PBCs <- as_int (DoubleMesh._PBCs double_mesh) ;;
  Ncell1 <- as_int (Mesh.ncells mesh1) ;;
  Npts1 <- np_zeros_size (to_int (Z.of_nat (length x1in))) ;;
  x1 <- np_take x1in (Mesh.idx_sorted mesh1) ;;
  y1 <- np_take y1in (Mesh.idx_sorted mesh1) ;;
  z1 <- np_take z1in (Mesh.idx_sorted mesh1) ;;
  x2 <- np_take x2in (Mesh.idx_sorted mesh2) ;;
  y2 <- np_take y2in (Mesh.idx_sorted mesh2) ;;
  z2 <- np_take z2in (Mesh.idx_sorted mesh2) ;;
  weights1 <- np_take weights1in (Mesh.idx_sorted mesh1) ;;
  weights2 <- np_take weights2in (Mesh.idx_sorted mesh2) ;;
  num_x2_covering_steps <-
    (n <- int_ceil (DoubleMesh.search_xlength double_mesh
                    / Mesh.xcell_size mesh2) ;; as_int n) ;;
  num_y2_covering_steps <-
    (n <- int_ceil (DoubleMesh.search_ylength double_mesh
                    / Mesh.ycell_size mesh2) ;; as_int n) ;;
  num_z2_covering_steps <-
    (n <- int_ceil (DoubleMesh.search_zlength double_mesh
                    / Mesh.zcell_size mesh2) ;; as_int n) ;;
  num_x1divs <- as_int (Mesh.num_xdivs mesh1) ;;
  num_y1divs <- as_int (Mesh.num_ydivs mesh1) ;;
  num_z1divs <- as_int (Mesh.num_zdivs mesh1) ;;
  num_x2divs <- as_int (Mesh.num_xdivs mesh2) ;;
  num_y2divs <- as_int (Mesh.num_ydivs mesh2) ;;
  num_z2divs <- as_int (Mesh.num_zdivs mesh2) ;;
  num_x2_per_x1 <- py_floordiv num_x2divs num_x1divs ;;
  num_y2_per_y1 <- py_floordiv num_y2divs num_y1divs ;;
  num_z2_per_z1 <- py_floordiv num_z2divs num_z1divs ;;
  Ok {| wfunc := wfunc;
        rp_max_squared := rp_max_squared;
        pi_max_squared := pi_max_squared;
        xperiod := DoubleMesh.xperiod double_mesh;
        yperiod := DoubleMesh.yperiod double_mesh;
        zperiod := DoubleMesh.zperiod double_mesh;
        first_cell1_element := first_cell1_element;
        last_cell1_element := last_cell1_element;
        PBCs := PBCs;
        Npts1 := Npts1;
        x1 := x1; y1 := y1; z1 := z1;
        x2 := x2; y2 := y2; z2 := z2;
        weights1 := weights1; weights2 := weights2;
        cell1_indices := Mesh.cell_id_indices mesh1;
        cell2_indices := Mesh.cell_id_indices mesh2;
        num_x2_covering_steps := num_x2_covering_steps;
        num_y2_covering_steps := num_y2_covering_steps;
        num_z2_covering_steps := num_z2_covering_steps;
        num_x1divs := num_x1divs;
        num_y1divs := num_y1divs;
        num_z1divs := num_z1divs;
        num_x2divs := num_x2divs;
        num_y2divs := num_y2divs;
        num_z2divs := num_z2divs;
        num_x2_per_x1 := num_x2_per_x1;
        num_y2_per_y1 := num_y2_per_y1;
        num_z2_per_z1 := num_z2_per_z1 |}.

Section Scan.

Variable L : locals.

(** Lines 179-184, and their copies for y and z: the shift of one axis for
    the raw (unwrapped) secondary cell coordinate [nonPBC_i2]. *)
Definition axis_shift (period : float) (num_2divs nonPBC_i2 : Z) : float :=
  if nonPBC_i2 <? 0 then ((- period) * of_int (PBCs L))%float
  else if nonPBC_i2 >=? num_2divs then (period * of_int (PBCs L))%float
  else 0%float.

(** Line 208. *)
Definition flat_cell2 (ix2 iy2 iz2 : Z) : Z :=
  ix2 * (num_y2divs L * num_z2divs L) + iy2 * num_z2divs L + iz2.

(** Lines 170-176. *)
Definition leftmost_ix2 (ix1 : Z) : Z :=
  ix1 * num_x2_per_x1 L - num_x2_covering_steps L.
Definition leftmost_iy2 (iy1 : Z) : Z :=
  iy1 * num_y2_per_y1 L - num_y2_covering_steps L.
Definition leftmost_iz2 (iz1 : Z) : Z :=
  iz1 * num_z2_per_z1 L - num_z2_covering_steps L.
Definition rightmost_ix2 (ix1 : Z) : Z :=
  (ix1 + 1) * num_x2_per_x1 L + num_x2_covering_steps L.
Definition rightmost_iy2 (iy1 : Z) : Z :=
  (iy1 + 1) * num_y2_per_y1 L + num_y2_covering_steps L.
Definition rightmost_iz2 (iz1 : Z) : Z :=
  (iz1 + 1) * num_z2_per_z1 L + num_z2_covering_steps L.

(** The raw secondary coordinates of lines 178, 188 and 198. *)
Definition scanned_ix2 (ix1 : Z) : list Z :=
  py_range (leftmost_ix2 ix1) (rightmost_ix2 ix1).
Definition scanned_iy2 (iy1 : Z) : list Z :=
  py_range (leftmost_iy2 iy1) (rightmost_iy2 iy1).
Definition scanned_iz2 (iz1 : Z) : list Z :=
  py_range (leftmost_iz2 iz1) (rightmost_iz2 iz1).

(** Line 241: the test of one pair. *)
Definition is_neighbor (dxy_sq dz_sq rp_max_squaredtmp pi_max_squaredtmp
                        weight : float) : bool :=
  (dxy_sq <? rp_max_squaredtmp)%float
  && (dz_sq <? pi_max_squaredtmp)%float
  && (weight =? 1)%float
  && (0 <? dz_sq + dxy_sq)%float.

(** Line 239: the call through the pointer [wfunc], whose [bint] result is
    stored in the [cnp.float64_t] variable [weight].  A call through a NULL
    pointer has no defined behaviour. *)
Definition call_wfunc (w1 w2 : list float) : result float :=
  match wfunc L with
  | Some f => Ok (of_bint (f w1 w2))
  | None => Err Fault
  end.

(** Lines 233-241 for the secondary point [j] of the secondary cell at
    [ifirst2] and the primary point [i] of the primary cell at [ifirst1]. *)
Definition pair_counts (ifirst1 i ifirst2 j : Z)
    (x1tmp y1tmp z1tmp rp_max_squaredtmp pi_max_squaredtmp : float)
  : result bool :=
  x2j <- view_get (x2 L) (ifirst2 + j) ;;
  y2j <- view_get (y2 L) (ifirst2 + j) ;;
  z2j <- view_get (z2 L) (ifirst2 + j) ;;
  w1 <- view_get (weights1 L) (ifirst1 + i) ;;
  w2 <- view_get (weights2 L) (ifirst2 + j) ;;
  let dx := (x1tmp - x2j)%float in
  let dy := (y1tmp - y2j)%float in
  let dz := (z1tmp - z2j)%float in
  let dxy_sq := (dx * dx + dy * dy)%float in
  let dz_sq := (dz * dz)%float in
  weight <- call_wfunc w1 w2 ;;
  Ok (is_neighbor dxy_sq dz_sq rp_max_squaredtmp pi_max_squaredtmp weight).

(** Lines 231-243: the loop over the secondary points, left by [break] at
    the first pair that counts. *)
Fixpoint loop_j (ifirst1 i ifirst2 : Z)
    (x1tmp y1tmp z1tmp rp_max_squaredtmp pi_max_squaredtmp : float)
    (js : list Z) (has_neighbor : list Z) : result (list Z) :=
  match js with
  | [] => Ok has_neighbor
  | j :: js' =>
      c <- pair_counts ifirst1 i ifirst2 j x1tmp y1tmp z1tmp
             rp_max_squaredtmp pi_max_squaredtmp ;;
      if c : bool then view_set has_neighbor (ifirst1 + i) 1
      else loop_j ifirst1 i ifirst2 x1tmp y1tmp z1tmp
             rp_max_squaredtmp pi_max_squaredtmp js' has_neighbor
  end.

(** Lines 223-243: one primary point against one secondary cell. *)
Definition scan_point (ifirst1 ifirst2 Nj : Z) (x2shift y2shift z2shift : float)
    (i : Z) (has_neighbor : list Z) : result (list Z) :=
  x1i <- view_get (x1 L) (ifirst1 + i) ;;
  y1i <- view_get (y1 L) (ifirst1 + i) ;;
  z1i <- view_get (z1 L) (ifirst1 + i) ;;
  let x1tmp := (x1i - x2shift)%float in
  let y1tmp := (y1i - y2shift)%float in
  let z1tmp := (z1i - z2shift)%float in
  rp_max_squaredtmp <- view_get (rp_max_squared L) (ifirst1 + i) ;;
  pi_max_squaredtmp <- view_get (pi_max_squared L) (ifirst1 + i) ;;
  loop_j ifirst1 i ifirst2 x1tmp y1tmp z1tmp
    rp_max_squaredtmp pi_max_squaredtmp (py_range 0 Nj) has_neighbor.

(** Lines 208-243: one secondary cell. *)
Definition scan_cell2 (ifirst1 Ni : Z) (ix2 iy2 iz2 : Z)
    (x2shift y2shift z2shift : float) (has_neighbor : list Z)
  : result (list Z) :=
  let icell2 := flat_cell2 ix2 iy2 iz2 in
  ifirst2 <- view_get (cell2_indices L) icell2 ;;
  ilast2 <- view_get (cell2_indices L) (icell2 + 1) ;;
  let Nj := ilast2 - ifirst2 in
  if 0 <? Nj then
    for_in (py_range 0 Ni)
      (scan_point ifirst1 ifirst2 Nj x2shift y2shift z2shift) has_neighbor
  else Ok has_neighbor.

(** Lines 152-243: one primary cell. *)
Definition scan_cell1 (icell1 : Z) (has_neighbor : list Z) : result (list Z) :=
  ifirst1 <- view_get (cell1_indices L) icell1 ;;
  ilast1 <- view_get (cell1_indices L) (icell1 + 1) ;;
  let Ni := ilast1 - ifirst1 in
  if 0 <? Ni then
    ix1 <- py_floordiv icell1 (num_y1divs L * num_z1divs L) ;;
    iy1 <- py_floordiv (icell1 - ix1 * num_y1divs L * num_z1divs L)
             (num_z1divs L) ;;
    let iz1 :=
      icell1 - ix1 * num_y1divs L * num_z1divs L - iy1 * num_z1divs L in
    for_in (scanned_ix2 ix1) (fun nonPBC_ix2 has_neighbor =>
      let x2shift := axis_shift (xperiod L) (num_x2divs L) nonPBC_ix2 in
      ix2 <- py_mod nonPBC_ix2 (num_x2divs L) ;;
      for_in (scanned_iy2 iy1) (fun nonPBC_iy2 has_neighbor =>
        let y2shift := axis_shift (yperiod L) (num_y2divs L) nonPBC_iy2 in
        iy2 <- py_mod nonPBC_iy2 (num_y2divs L) ;;
        for_in (scanned_iz2 iz1) (fun nonPBC_iz2 has_neighbor =>
          let z2shift := axis_shift (zperiod L) (num_z2divs L) nonPBC_iz2 in
          iz2 <- py_mod nonPBC_iz2 (num_z2divs L) ;;
          scan_cell2 ifirst1 Ni ix2 iy2 iz2 x2shift y2shift z2shift
            has_neighbor) has_neighbor) has_neighbor) has_neighbor
  else Ok has_neighbor.

(** Line 150: the primary cells of the work range. *)
Definition scan_cells (first_cell1_element last_cell1_element : Z)
    (has_neighbor : list Z) : result (list Z) :=
  for_in (py_range first_cell1_element last_cell1_element)
    scan_cell1 has_neighbor.

End Scan.

(** Lines 245-257: inversion and return to the order of the caller. *)
Definition unsort_result (double_mesh : DoubleMesh.t) (Npts1 : nat)
    (has_neighbor : list Z) : result (list float) :=
  let is_isolated := map (fun v => v =? 0) has_neighbor in
  is_isolated <-
    np_mask (Mesh.idx_sorted (DoubleMesh.mesh1 double_mesh)) is_isolated ;;
  np_put (repeat 0%float Npts1) is_isolated 1%float.

Definition marked_cylindrical_isolation_engine (build : cdef_raise)
    (double_mesh : DoubleMesh.t)
    (x1in y1in z1in x2in y2in z2in : list float)
    (weights1in weights2in : list (list float)) (weight_func_idin : Z)
    (rp_max pi_max : list float) (cell1_tuple : Z * Z) : result (list float) :=
  L <- engine_locals build double_mesh x1in y1in z1in x2in y2in z2in
         weights1in weights2in weight_func_idin rp_max pi_max cell1_tuple ;;
  has_neighbor <-
    scan_cells L (first_cell1_element L) (last_cell1_element L)
      (repeat 0 (Npts1 L)) ;;
  unsort_result double_mesh (Npts1 L) has_neighbor.

(** * Specification vocabulary *)

(** ** Marking the has-neighbour array *)

(** The only way the scan touches [has_neighbor] is line 242; [mark_all M]
    is that assignment at each sorted position of [M]. *)
Definition mark (h : list Z) (p : Z) : list Z := list_set h (Z.to_nat p) 1.

Definition mark_all (M : list Z) (h : list Z) : list Z := fold_left mark M h.

(** [marks P n f]: on every array of [n] flags, [f] returns, and what it
    returns is the array with exactly the positions satisfying [P] set. *)
Definition marks (P : Z -> Prop) (n : nat) (f : list Z -> result (list Z)) : Prop :=
  exists M : list Z,
    (forall p, In p M <-> P p) /\
    (forall p, In p M -> 0 <= p < Z.of_nat n) /\
    (forall h, length h = n -> f h = Ok (mark_all M h)).

(** ** What the scan marks *)

(** The predicate is selected, and the arrays of the locals have the shapes
    the loops rely on. *)
Record valid_locals (L : locals) : Prop := {
  vl_wfunc : exists f, wfunc L = Some f;
  vl_x1 : length (x1 L) = Npts1 L;
  vl_y1 : length (y1 L) = Npts1 L;
  vl_z1 : length (z1 L) = Npts1 L;
  vl_rp : length (rp_max_squared L) = Npts1 L;
  vl_pi : length (pi_max_squared L) = Npts1 L;
  vl_w1 : length (weights1 L) = Npts1 L;
  vl_y2 : length (y2 L) = length (x2 L);
  vl_z2 : length (z2 L) = length (x2 L);
  vl_w2 : length (weights2 L) = length (x2 L);
  vl_cell1 :
    Forall (fun v => 0 <= v <= Z.of_nat (Npts1 L)) (cell1_indices L);
  vl_cell2 :
    Forall (fun v => 0 <= v <= Z.of_nat (length (x2 L))) (cell2_indices L);
  vl_ncells2 :
    Z.of_nat (length (cell2_indices L)) =
      num_x2divs L * num_y2divs L * num_z2divs L + 1;
  vl_x2divs : 0 < num_x2divs L;
  vl_y2divs : 0 < num_y2divs L;
  vl_z2divs : 0 < num_z2divs L;
  vl_y1divs : 0 < num_y1divs L;
  vl_z1divs : 0 < num_z1divs L
}.

Section Hits.

Variable L : locals.

(** The primary point at sorted position [ifirst1 + i], moved by the
    shifts, has a secondary point that counts among the [Nj] points of
    the secondary cell at [ifirst2]. *)
Definition hit_point (ifirst1 ifirst2 Nj : Z) (x2shift y2shift z2shift : float)
    (i p : Z) : Prop :=
  exists x1i y1i z1i rp_max_squaredtmp pi_max_squaredtmp j,
    view_get (x1 L) (ifirst1 + i) = Ok x1i /\
    view_get (y1 L) (ifirst1 + i) = Ok y1i /\
    view_get (z1 L) (ifirst1 + i) = Ok z1i /\
    view_get (rp_max_squared L) (ifirst1 + i) = Ok rp_max_squaredtmp /\
    view_get (pi_max_squared L) (ifirst1 + i) = Ok pi_max_squaredtmp /\
    p = ifirst1 + i /\
    0 <= j < Nj /\
    pair_counts L ifirst1 i ifirst2 j
      (x1i - x2shift)%float (y1i - y2shift)%float (z1i - z2shift)%float
      rp_max_squaredtmp pi_max_squaredtmp = Ok true.

Definition hit_cell2 (ifirst1 Ni ix2 iy2 iz2 : Z)
    (x2shift y2shift z2shift : float) (p : Z) : Prop :=
  exists ifirst2 ilast2 i,
    view_get (cell2_indices L) (flat_cell2 L ix2 iy2 iz2) = Ok ifirst2 /\
    view_get (cell2_indices L) (flat_cell2 L ix2 iy2 iz2 + 1) = Ok ilast2 /\
    0 <= i < Ni /\
    hit_point ifirst1 ifirst2 (ilast2 - ifirst2)
      x2shift y2shift z2shift i p.

Definition hit_cell1 (icell1 p : Z) : Prop :=
  exists ifirst1 ilast1 nonPBC_ix2 nonPBC_iy2 nonPBC_iz2,
    let ix1 := icell1 / (num_y1divs L * num_z1divs L) in
    let iy1 :=
      (icell1 - ix1 * num_y1divs L * num_z1divs L) / num_z1divs L in
    let iz1 :=
      icell1 - ix1 * num_y1divs L * num_z1divs L - iy1 * num_z1divs L in
    view_get (cell1_indices L) icell1 = Ok ifirst1 /\
    view_get (cell1_indices L) (icell1 + 1) = Ok ilast1 /\
    In nonPBC_ix2 (scanned_ix2 L ix1) /\
    In nonPBC_iy2 (scanned_iy2 L iy1) /\
    In nonPBC_iz2 (scanned_iz2 L iz1) /\
    hit_cell2 ifirst1 (ilast1 - ifirst1)
      (nonPBC_ix2 mod num_x2divs L) (nonPBC_iy2 mod num_y2divs L)
      (nonPBC_iz2 mod num_z2divs L)
      (axis_shift L (xperiod L) (num_x2divs L) nonPBC_ix2)
      (axis_shift L (yperiod L) (num_y2divs L) nonPBC_iy2)
      (axis_shift L (zperiod L) (num_z2divs L) nonPBC_iz2) p.

Definition hit_cells (first_cell1_element last_cell1_element p : Z) : Prop :=
  exists icell1,
    first_cell1_element <= icell1 < last_cell1_element /\
    hit_cell1 icell1 p.

End Hits.

(** ** Valid invocations *)

(** A cell-offset table of [ncells] cells over [npts] points: one entry more
    than there are cells, from [0] to [npts], non-decreasing. *)
Definition offsets_ok (offsets : list Z) (ncells : Z) (npts : nat) : Prop :=
  Z.of_nat (length offsets) = ncells + 1 /\
  nth 0 offsets 0 = 0 /\
  nth (Z.to_nat ncells) offsets 0 = Z.of_nat npts /\
  forall c d : nat, (c <= d < length offsets)%nat ->
    nth c offsets 0 <= nth d offsets 0.

(** The preconditions of the engine: the data model's invariants and the
    interface's preconditions (recognised predicate code, parallel arrays,
    sort orders that are permutations, positive division counts, offset tables,
    covering steps that are integers, a work range among the primary
    cells), with sample sizes, cell counts, covering steps and a periodicity
    flag that the C integers of lines 81-143 hold. *)
Record valid_invocation (double_mesh : DoubleMesh.t)
    (x1in y1in z1in x2in y2in z2in : list float)
    (weights1in weights2in : list (list float)) (weight_func_idin : Z)
    (rp_max pi_max : list float) (cell1_tuple : Z * Z) : Prop := {
  vi_code : 0 <= weight_func_idin <= 6;
  vi_y1 : length y1in = length x1in;
  vi_z1 : length z1in = length x1in;
  vi_w1 : length weights1in = length x1in;
  vi_rp : length rp_max = length x1in;
  vi_pi : length pi_max = length x1in;
  vi_y2 : length y2in = length x2in;
  vi_z2 : length z2in = length x2in;
  vi_w2 : length weights2in = length x2in;
  vi_width : exists width, (0 < width)%nat /\
      Forall (fun w => length w = width) weights1in /\
      Forall (fun w => length w = width) weights2in;
  vi_idx1 :
    Permutation (Mesh.idx_sorted (DoubleMesh.mesh1 double_mesh))
      (seq 0 (length x1in));
  vi_idx2 :
    Permutation (Mesh.idx_sorted (DoubleMesh.mesh2 double_mesh))
      (seq 0 (length x2in));
  vi_xsteps : exists s,
      int_ceil (DoubleMesh.search_xlength double_mesh
                / Mesh.xcell_size (DoubleMesh.mesh2 double_mesh)) = Ok s /\
      Mesh.num_xdivs (DoubleMesh.mesh2 double_mesh) - 2 ^ 31 < s
        < 2 ^ 31 - Mesh.num_xdivs (DoubleMesh.mesh2 double_mesh);
  vi_ysteps : exists s,
      int_ceil (DoubleMesh.search_ylength double_mesh
                / Mesh.ycell_size (DoubleMesh.mesh2 double_mesh)) = Ok s /\
      Mesh.num_ydivs (DoubleMesh.mesh2 double_mesh) - 2 ^ 31 < s
        < 2 ^ 31 - Mesh.num_ydivs (DoubleMesh.mesh2 double_mesh);
  vi_zsteps : exists s,
      int_ceil (DoubleMesh.search_zlength double_mesh
                / Mesh.zcell_size (DoubleMesh.mesh2 double_mesh)) = Ok s /\
      Mesh.num_zdivs (DoubleMesh.mesh2 double_mesh) - 2 ^ 31 < s
        < 2 ^ 31 - Mesh.num_zdivs (DoubleMesh.mesh2 double_mesh);
  vi_x1divs : 0 < Mesh.num_xdivs (DoubleMesh.mesh1 double_mesh);
  vi_y1divs : 0 < Mesh.num_ydivs (DoubleMesh.mesh1 double_mesh);
  vi_z1divs : 0 < Mesh.num_zdivs (DoubleMesh.mesh1 double_mesh);
  vi_x2divs : 0 < Mesh.num_xdivs (DoubleMesh.mesh2 double_mesh);
  vi_y2divs : 0 < Mesh.num_ydivs (DoubleMesh.mesh2 double_mesh);
  vi_z2divs : 0 < Mesh.num_zdivs (DoubleMesh.mesh2 double_mesh);
  vi_ncells1 :
    Mesh.ncells (DoubleMesh.mesh1 double_mesh) =
      Mesh.num_xdivs (DoubleMesh.mesh1 double_mesh)
      * Mesh.num_ydivs (DoubleMesh.mesh1 double_mesh)
      * Mesh.num_zdivs (DoubleMesh.mesh1 double_mesh);
  vi_ncells2 :
    Mesh.ncells (DoubleMesh.mesh2 double_mesh) =
      Mesh.num_xdivs (DoubleMesh.mesh2 double_mesh)
      * Mesh.num_ydivs (DoubleMesh.mesh2 double_mesh)
      * Mesh.num_zdivs (DoubleMesh.mesh2 double_mesh);
  vi_cells1 :
    offsets_ok (Mesh.cell_id_indices (DoubleMesh.mesh1 double_mesh))
      (Mesh.ncells (DoubleMesh.mesh1 double_mesh)) (length x1in);
  vi_cells2 :
    offsets_ok (Mesh.cell_id_indices (DoubleMesh.mesh2 double_mesh))
      (Mesh.ncells (DoubleMesh.mesh2 double_mesh)) (length x2in);
  vi_range :
    0 <= fst cell1_tuple < 2 ^ 63 /\
    - 2 ^ 63 <= snd cell1_tuple <= Mesh.ncells (DoubleMesh.mesh1 double_mesh);
  vi_npts1 : Z.of_nat (length x1in) < 2 ^ 31;
  vi_npts2 : Z.of_nat (length x2in) < 2 ^ 31;
  vi_ncells1_int : Mesh.ncells (DoubleMesh.mesh1 double_mesh) < 2 ^ 31;
  vi_ncells2_int : Mesh.ncells (DoubleMesh.mesh2 double_mesh) < 2 ^ 31;
  vi_PBCs : - 2 ^ 31 <= DoubleMesh._PBCs double_mesh < 2 ^ 31
}.

(** [r] is [a[idx]]: position [p] of [r] holds entry [idx[p]] of [a]. *)
Definition gathered {A : Type} (a : list A) (idx : list nat) (r : list A) : Prop :=
  length r = length idx /\
  forall p k, nth_error idx p = Some k -> nth_error r p = nth_error a k.

Record locals_of (double_mesh : DoubleMesh.t)
    (x1in y1in z1in x2in y2in z2in : list float)
    (weights1in weights2in : list (list float)) (weight_func_idin : Z)
    (rp_max pi_max : list float) (cell1_tuple : Z * Z) (L : locals) : Prop := {
  lo_wfunc :
    wfunc L = match return_conditional_function weight_func_idin with
              | Ok f => Some f
              | Err _ => None
              end;
  lo_rp : gathered (map (fun r => r * r)%float rp_max)
            (Mesh.idx_sorted (DoubleMesh.mesh1 double_mesh)) (rp_max_squared L);
  lo_pi : gathered (map (fun r => r * r)%float pi_max)
            (Mesh.idx_sorted (DoubleMesh.mesh1 double_mesh)) (pi_max_squared L);
  lo_x1 : gathered x1in (Mesh.idx_sorted (DoubleMesh.mesh1 double_mesh)) (x1 L);
  lo_y1 : gathered y1in (Mesh.idx_sorted (DoubleMesh.mesh1 double_mesh)) (y1 L);
  lo_z1 : gathered z1in (Mesh.idx_sorted (DoubleMesh.mesh1 double_mesh)) (z1 L);
  lo_x2 : gathered x2in (Mesh.idx_sorted (DoubleMesh.mesh2 double_mesh)) (x2 L);
  lo_y2 : gathered y2in (Mesh.idx_sorted (DoubleMesh.mesh2 double_mesh)) (y2 L);
  lo_z2 : gathered z2in (Mesh.idx_sorted (DoubleMesh.mesh2 double_mesh)) (z2 L);
  lo_w1 : gathered weights1in
            (Mesh.idx_sorted (DoubleMesh.mesh1 double_mesh)) (weights1 L);
  lo_w2 : gathered weights2in
            (Mesh.idx_sorted (DoubleMesh.mesh2 double_mesh)) (weights2 L);
  lo_xsteps :
    int_ceil (DoubleMesh.search_xlength double_mesh
              / Mesh.xcell_size (DoubleMesh.mesh2 double_mesh))
    = Ok (num_x2_covering_steps L);
  lo_ysteps :
    int_ceil (DoubleMesh.search_ylength double_mesh
              / Mesh.ycell_size (DoubleMesh.mesh2 double_mesh))
    = Ok (num_y2_covering_steps L);
  lo_zsteps :
    int_ceil (DoubleMesh.search_zlength double_mesh
              / Mesh.zcell_size (DoubleMesh.mesh2 double_mesh))
    = Ok (num_z2_covering_steps L);
  lo_x_per :
    num_x2_per_x1 L =
      Mesh.num_xdivs (DoubleMesh.mesh2 double_mesh)
      / Mesh.num_xdivs (DoubleMesh.mesh1 double_mesh);
  lo_y_per :
    num_y2_per_y1 L =
      Mesh.num_ydivs (DoubleMesh.mesh2 double_mesh)
      / Mesh.num_ydivs (DoubleMesh.mesh1 double_mesh);
  lo_z_per :
    num_z2_per_z1 L =
      Mesh.num_zdivs (DoubleMesh.mesh2 double_mesh)
      / Mesh.num_zdivs (DoubleMesh.mesh1 double_mesh);
  lo_PBCs : PBCs L = DoubleMesh._PBCs double_mesh;
  lo_xperiod : xperiod L = DoubleMesh.xperiod double_mesh;
  lo_yperiod : yperiod L = DoubleMesh.yperiod double_mesh;
  lo_zperiod : zperiod L = DoubleMesh.zperiod double_mesh;
  lo_Npts1 : np_zeros_size (to_int (Z.of_nat (length x1in))) = Ok (Npts1 L);
  lo_cell1 :
    cell1_indices L = Mesh.cell_id_indices (DoubleMesh.mesh1 double_mesh);
  lo_cell2 :
    cell2_indices L = Mesh.cell_id_indices (DoubleMesh.mesh2 double_mesh);
  lo_x2divs : num_x2divs L = Mesh.num_xdivs (DoubleMesh.mesh2 double_mesh);
  lo_y2divs : num_y2divs L = Mesh.num_ydivs (DoubleMesh.mesh2 double_mesh);
  lo_z2divs : num_z2divs L = Mesh.num_zdivs (DoubleMesh.mesh2 double_mesh);
  lo_y1divs : num_y1divs L = Mesh.num_ydivs (DoubleMesh.mesh1 double_mesh);
  lo_z1divs : num_z1divs L = Mesh.num_zdivs (DoubleMesh.mesh1 double_mesh);
  lo_first : first_cell1_element L = fst cell1_tuple;
  lo_last : last_cell1_element L = snd cell1_tuple
}.

(** ** Readings of the spec *)

(** The predicate table of section 4.1, on the first weight components [a]
    of the primary and [b] of the secondary point. *)
Definition tabulated_condition (code : Z) (a b : float) : bool :=
  match code with
  | 0 => true
  | 1 => (b <? a)%float
  | 2 => (a <? b)%float
  | 3 => (a =? b)%float
  | 4 => negb (a =? b)%float
  | 5 => (b <=? a)%float
  | 6 => (a <=? b)%float
  | _ => false
  end.

Section Displacement.

Context {num : Type} (sub add : num -> num -> num).



End Displacement.

(** A secondary point within the cylinder of a primary point, by the plain
    (unshifted) coordinates: the glossary's neighbour, with the strict
    distance tests, the predicate and the nonzero distance. *)
Definition plain_neighbor (f : f_type) (x1k y1k z1k rp pi : float)
    (w1 : list float) (x2k y2k z2k : float) (w2 : list float) : Prop :=
  let dx := (x1k - x2k)%float in
  let dy := (y1k - y2k)%float in
  let dz := (z1k - z2k)%float in
  let dxy_sq := (dx * dx + dy * dy)%float in
  let dz_sq := (dz * dz)%float in
  (dxy_sq <? rp * rp)%float = true /\
  (dz_sq <? pi * pi)%float = true /\
  f w1 w2 = true /\
  (0 <? dxy_sq + dz_sq)%float = true.

(** A shift that moves nothing: a signed zero, or a NaN (the product of an
    infinite period and a zero flag), with which no pair passes a test. *)
Definition zero_or_nan (s : float) : Prop :=
  (exists b, Prim2SF s = S754_zero b) \/ Prim2SF s = S754_nan.


(** The finite binary64 number of sign [s], mantissa [m] and exponent [e],
    that is [(-1)^s * m * 2^e], is at most the integer [n]. *)
Definition dyadic_le_int (s : bool) (m : positive) (e n : Z) : Prop :=
  let v := if s then Z.neg m else Z.pos m in
  if 0 <=? e then v * 2 ^ e <= n else v <= n * 2 ^ (- e).

(** The merge of the outputs of two work ranges (sections 5 and 8):
    element-wise logical OR of the has-neighbour flags, element-wise logical
    AND of the isolation flags. *)
Definition logical_or (a b : list Z) : list Z :=
  map (fun uv => if (fst uv =? 0) && (snd uv =? 0) then 0 else 1)
    (combine a b).

Definition logical_and (a b : list float) : list float :=
  map (fun uv => if (fst uv =? 0)%float || (snd uv =? 0)%float
                 then 0%float else 1%float)
    (combine a b).

(** ** The pair test *)

Section PairTest.

Variable L : locals.
Variable f : f_type.
Variable ifirst2 : Z.

(** The shifted coordinates, the squared radii and the weights of the
    primary point. *)
Variables x1tmp y1tmp z1tmp rp_max_sq_i pi_max_sq_i : float.
Variable w_i : list float.

(** The secondary point [j] of the secondary cell at [ifirst2]. *)
Definition secondary_point (j : Z) (x2j y2j z2j : float) (w_j : list float)
  : Prop :=
  view_get (x2 L) (ifirst2 + j) = Ok x2j /\
  view_get (y2 L) (ifirst2 + j) = Ok y2j /\
  view_get (z2 L) (ifirst2 + j) = Ok z2j /\
  view_get (weights2 L) (ifirst2 + j) = Ok w_j.

(** The four conditions of the pair test, as the spec lists them. *)
Definition four_conditions (x2j y2j z2j : float) (w_j : list float) : Prop :=
  let dx := (x1tmp - x2j)%float in
  let dy := (y1tmp - y2j)%float in
  let dz := (z1tmp - z2j)%float in
  let dxy_sq := (dx * dx + dy * dy)%float in
  let dz_sq := (dz * dz)%float in
  (dxy_sq <? rp_max_sq_i)%float = true /\
  (dz_sq <? pi_max_sq_i)%float = true /\
  f w_i w_j = true /\
  (0 <? dxy_sq + dz_sq)%float = true.

(** A secondary point exactly on the boundary of the cylinder. *)
Definition on_boundary (x2j y2j z2j : float) : Prop :=
  let dx := (x1tmp - x2j)%float in
  let dy := (y1tmp - y2j)%float in
  let dz := (z1tmp - z2j)%float in
  let dxy_sq := (dx * dx + dy * dy)%float in
  let dz_sq := (dz * dz)%float in
  (dxy_sq =? rp_max_sq_i)%float = true \/
  (dz_sq =? pi_max_sq_i)%float = true.

(** The secondary point [j] is there and meets, or misses, the four
    conditions. *)
Definition qualifies (j : Z) : Prop :=
  exists x2j y2j z2j w_j,
    secondary_point j x2j y2j z2j w_j /\ four_conditions x2j y2j z2j w_j.

Definition fails (j : Z) : Prop :=
  exists x2j y2j z2j w_j,
    secondary_point j x2j y2j z2j w_j /\ ~ four_conditions x2j y2j z2j w_j.

End PairTest.

(** ** Two small invocations *)

(** A periodic box of side 4 along each axis; the primary and the secondary
    mesh both have two cells along x and one along y and z.  The primary
    points are [(3,1,1)] and [(1,1,1)], the secondary points [(1.5,1,1)] and
    [(3.75,1,1)]. *)
Module Example.

Definition mesh1 : Mesh.t :=
  {| Mesh.idx_sorted := [1%nat; 0%nat];
     Mesh.cell_id_indices := [0; 1; 2];
     Mesh.ncells := 2;
     Mesh.num_xdivs := 2; Mesh.num_ydivs := 1; Mesh.num_zdivs := 1;
     Mesh.xcell_size := 2; Mesh.ycell_size := 4; Mesh.zcell_size := 4 |}.

Definition mesh2 : Mesh.t :=
  {| Mesh.idx_sorted := [0%nat; 1%nat];
     Mesh.cell_id_indices := [0; 1; 2];
     Mesh.ncells := 2;
     Mesh.num_xdivs := 2; Mesh.num_ydivs := 1; Mesh.num_zdivs := 1;
     Mesh.xcell_size := 2; Mesh.ycell_size := 4; Mesh.zcell_size := 4 |}.

Definition double_mesh (PBCs : Z) : DoubleMesh.t :=
  {| DoubleMesh.mesh1 := mesh1; DoubleMesh.mesh2 := mesh2;
     DoubleMesh.xperiod := 4; DoubleMesh.yperiod := 4; DoubleMesh.zperiod := 4;
     DoubleMesh._PBCs := PBCs;
     DoubleMesh.search_xlength := 0.75; DoubleMesh.search_ylength := 0.75;
     DoubleMesh.search_zlength := 0.5 |}.

Definition x1in : list float := [3; 1]%float.
Definition y1in : list float := [1; 1]%float.
Definition z1in : list float := [1; 1]%float.
Definition x2in : list float := [1.5; 3.75]%float.
Definition y2in : list float := [1; 1]%float.
Definition z2in : list float := [1; 1]%float.
Definition weights1in : list (list float) := [[1%float]; [1%float]].
Definition weights2in : list (list float) := [[1%float]; [2%float]].
Definition rp_max : list float := [0.75; 0.75]%float.
Definition pi_max : list float := [0.5; 0.5]%float.

Definition engine (build : cdef_raise) (PBCs weight_func_idin : Z)
    (cell1_tuple : Z * Z) : result (list float) :=
  marked_cylindrical_isolation_engine build (double_mesh PBCs)
    x1in y1in z1in x2in y2in z2in weights1in weights2in weight_func_idin
    rp_max pi_max cell1_tuple.

(** The locals of the engine on this invocation, for the predicate [f] and
    the work range of the two primary cells. *)
Definition L (PBCs : Z) (f : f_type) : locals :=
  {| wfunc := Some f;
     rp_max_squared := [0.5625; 0.5625]%float;
     pi_max_squared := [0.25; 0.25]%float;
     xperiod := 4; yperiod := 4; zperiod := 4;
     first_cell1_element := 0; last_cell1_element := 2;
     PBCs := PBCs;
     Npts1 := 2;
     x1 := [1; 3]%float; y1 := [1; 1]%float; z1 := [1; 1]%float;
     x2 := [1.5; 3.75]%float; y2 := [1; 1]%float; z2 := [1; 1]%float;
     weights1 := [[1%float]; [1%float]];
     weights2 := [[1%float]; [2%float]];
     cell1_indices := [0; 1; 2];
     cell2_indices := [0; 1; 2];
     num_x2_covering_steps := 1;
     num_y2_covering_steps := 1;
     num_z2_covering_steps := 1;
     num_x1divs := 2; num_y1divs := 1; num_z1divs := 1;
     num_x2divs := 2; num_y2divs := 1; num_z2divs := 1;
     num_x2_per_x1 := 1; num_y2_per_y1 := 1; num_z2_per_z1 := 1 |}.

End Example.

(** A box of side 6 whose primary mesh has two cells along x and whose
    secondary mesh has three: the secondary division count is no multiple of
    the primary one.  The primary points are [(1,1,1)] and [(4,1,1)], the
    secondary points [(1.5,1,1)] and [(4.5,1,1)]. *)
Module Uneven.

Definition mesh1 : Mesh.t :=
  {| Mesh.idx_sorted := [0%nat; 1%nat];
     Mesh.cell_id_indices := [0; 1; 2];
     Mesh.ncells := 2;
     Mesh.num_xdivs := 2; Mesh.num_ydivs := 1; Mesh.num_zdivs := 1;
     Mesh.xcell_size := 3; Mesh.ycell_size := 6; Mesh.zcell_size := 6 |}.

Definition mesh2 : Mesh.t :=
  {| Mesh.idx_sorted := [0%nat; 1%nat];
     Mesh.cell_id_indices := [0; 1; 1; 2];
     Mesh.ncells := 3;
     Mesh.num_xdivs := 3; Mesh.num_ydivs := 1; Mesh.num_zdivs := 1;
     Mesh.xcell_size := 2; Mesh.ycell_size := 6; Mesh.zcell_size := 6 |}.

Definition double_mesh : DoubleMesh.t :=
  {| DoubleMesh.mesh1 := mesh1; DoubleMesh.mesh2 := mesh2;
     DoubleMesh.xperiod := 6; DoubleMesh.yperiod := 6; DoubleMesh.zperiod := 6;
     DoubleMesh._PBCs := 1;
     DoubleMesh.search_xlength := 0.75; DoubleMesh.search_ylength := 0.75;
     DoubleMesh.search_zlength := 0.5 |}.

Definition x1in : list float := [1; 4]%float.
Definition y1in : list float := [1; 1]%float.
Definition z1in : list float := [1; 1]%float.
Definition x2in : list float := [1.5; 4.5]%float.
Definition y2in : list float := [1; 1]%float.
Definition z2in : list float := [1; 1]%float.
Definition weights1in : list (list float) := [[1%float]; [1%float]].
Definition weights2in : list (list float) := [[1%float]; [1%float]].
Definition rp_max : list float := [0.75; 0.75]%float.
Definition pi_max : list float := [0.5; 0.5]%float.

End Uneven.

(** ** Further vocabulary *)

(** A binary64 number that is not below zero: a zero of either sign, a
    positive number, plus infinity, or a NaN. *)
Definition not_negative (f : spec_float) : Prop :=
  match f with
  | S754_finite true _ _ | S754_infinity true => False
  | _ => True
  end.

(** Lines 166-168: the lattice coordinate of the primary cell [icell1]. *)
Definition cell1_coordinates (L : locals) (icell1 : Z) : result (Z * Z * Z) :=
  ix1 <- py_floordiv icell1 (num_y1divs L * num_z1divs L) ;;
  iy1 <- py_floordiv (icell1 - ix1 * num_y1divs L * num_z1divs L)
           (num_z1divs L) ;;
  let iz1 :=
    icell1 - ix1 * num_y1divs L * num_z1divs L - iy1 * num_z1divs L in
  Ok (ix1, iy1, iz1).

(** The double mesh built on a relabelled primary (secondary) sample: the
    same cells, with another sort order. *)
Definition reindex_mesh (m : Mesh.t) (idx : list nat) : Mesh.t :=
  {| Mesh.idx_sorted := idx;
     Mesh.cell_id_indices := Mesh.cell_id_indices m;
     Mesh.ncells := Mesh.ncells m;
     Mesh.num_xdivs := Mesh.num_xdivs m;
     Mesh.num_ydivs := Mesh.num_ydivs m;
     Mesh.num_zdivs := Mesh.num_zdivs m;
     Mesh.xcell_size := Mesh.xcell_size m;
     Mesh.ycell_size := Mesh.ycell_size m;
     Mesh.zcell_size := Mesh.zcell_size m |}.

Definition reindex_mesh1 (dm : DoubleMesh.t) (idx : list nat) : DoubleMesh.t :=
  {| DoubleMesh.mesh1 := reindex_mesh (DoubleMesh.mesh1 dm) idx;
     DoubleMesh.mesh2 := DoubleMesh.mesh2 dm;
     DoubleMesh.xperiod := DoubleMesh.xperiod dm;
     DoubleMesh.yperiod := DoubleMesh.yperiod dm;
     DoubleMesh.zperiod := DoubleMesh.zperiod dm;
     DoubleMesh._PBCs := DoubleMesh._PBCs dm;
     DoubleMesh.search_xlength := DoubleMesh.search_xlength dm;
     DoubleMesh.search_ylength := DoubleMesh.search_ylength dm;
     DoubleMesh.search_zlength := DoubleMesh.search_zlength dm |}.

Definition reindex_mesh2 (dm : DoubleMesh.t) (idx : list nat) : DoubleMesh.t :=
  {| DoubleMesh.mesh1 := DoubleMesh.mesh1 dm;
     DoubleMesh.mesh2 := reindex_mesh (DoubleMesh.mesh2 dm) idx;
     DoubleMesh.xperiod := DoubleMesh.xperiod dm;
     DoubleMesh.yperiod := DoubleMesh.yperiod dm;
     DoubleMesh.zperiod := DoubleMesh.zperiod dm;
     DoubleMesh._PBCs := DoubleMesh._PBCs dm;
     DoubleMesh.search_xlength := DoubleMesh.search_xlength dm;
     DoubleMesh.search_ylength := DoubleMesh.search_ylength dm;
     DoubleMesh.search_zlength := DoubleMesh.search_zlength dm |}.

(** [n] is the ceiling of the binary64 number [q]: [q] is a number, [n] is
    not below it and [n - 1] is. *)
Definition ceiling_of (q : float) (n : Z) : Prop :=
  match Prim2SF q with
  | S754_zero _ => n = 0
  | S754_finite s m e =>
      dyadic_le_int s m e n /\ ~ dyadic_le_int s m e (n - 1)
  | _ => False
  end.

(** The locals of the same invocation over another work range. *)
Definition with_work_range (L : locals)
    (first_cell1_element last_cell1_element : Z) : locals :=
  {| wfunc := wfunc L;
     rp_max_squared := rp_max_squared L;
     pi_max_squared := pi_max_squared L;
     xperiod := xperiod L; yperiod := yperiod L; zperiod := zperiod L;
     first_cell1_element := first_cell1_element;
     last_cell1_element := last_cell1_element;
     PBCs := PBCs L;
     Npts1 := Npts1 L;
     x1 := x1 L; y1 := y1 L; z1 := z1 L;
     x2 := x2 L; y2 := y2 L; z2 := z2 L;
     weights1 := weights1 L; weights2 := weights2 L;
     cell1_indices := cell1_indices L;
     cell2_indices := cell2_indices L;
     num_x2_covering_steps := num_x2_covering_steps L;
     num_y2_covering_steps := num_y2_covering_steps L;
     num_z2_covering_steps := num_z2_covering_steps L;
     num_x1divs := num_x1divs L;
     num_y1divs := num_y1divs L;
     num_z1divs := num_z1divs L;
     num_x2divs := num_x2divs L;
     num_y2divs := num_y2divs L;
     num_z2divs := num_z2divs L;
     num_x2_per_x1 := num_x2_per_x1 L;
     num_y2_per_y1 := num_y2_per_y1 L;
     num_z2_per_z1 := num_z2_per_z1 L |}.

(** The locals of the same invocation with the predicate pointer NULL. *)
Definition with_null_wfunc (L : locals) : locals :=
  {| wfunc := None;
     rp_max_squared := rp_max_squared L;
     pi_max_squared := pi_max_squared L;
     xperiod := xperiod L; yperiod := yperiod L; zperiod := zperiod L;
     first_cell1_element := first_cell1_element L;
     last_cell1_element := last_cell1_element L;
     PBCs := PBCs L;
     Npts1 := Npts1 L;
     x1 := x1 L; y1 := y1 L; z1 := z1 L;
     x2 := x2 L; y2 := y2 L; z2 := z2 L;
     weights1 := weights1 L; weights2 := weights2 L;
     cell1_indices := cell1_indices L;
     cell2_indices := cell2_indices L;
     num_x2_covering_steps := num_x2_covering_steps L;
     num_y2_covering_steps := num_y2_covering_steps L;
     num_z2_covering_steps := num_z2_covering_steps L;
     num_x1divs := num_x1divs L;
     num_y1divs := num_y1divs L;
     num_z1divs := num_z1divs L;
     num_x2divs := num_x2divs L;
     num_y2divs := num_y2divs L;
     num_z2divs := num_z2divs L;
     num_x2_per_x1 := num_x2_per_x1 L;
     num_y2_per_y1 := num_y2_per_y1 L;
     num_z2_per_z1 := num_z2_per_z1 L |}.

(** The double mesh with other search lengths. *)
Definition with_search_lengths (dm : DoubleMesh.t) (sx sy sz : float)
  : DoubleMesh.t :=
  {| DoubleMesh.mesh1 := DoubleMesh.mesh1 dm;
     DoubleMesh.mesh2 := DoubleMesh.mesh2 dm;
     DoubleMesh.xperiod := DoubleMesh.xperiod dm;
     DoubleMesh.yperiod := DoubleMesh.yperiod dm;
     DoubleMesh.zperiod := DoubleMesh.zperiod dm;
     DoubleMesh._PBCs := DoubleMesh._PBCs dm;
     DoubleMesh.search_xlength := sx;
     DoubleMesh.search_ylength := sy;
     DoubleMesh.search_zlength := sz |}.

(** The double mesh with other division counts of the primary mesh. *)
Definition with_primary_divisions (dm : DoubleMesh.t) (nx ny nz : Z)
  : DoubleMesh.t :=
  {| DoubleMesh.mesh1 :=
       {| Mesh.idx_sorted := Mesh.idx_sorted (DoubleMesh.mesh1 dm);
          Mesh.cell_id_indices := Mesh.cell_id_indices (DoubleMesh.mesh1 dm);
          Mesh.ncells := Mesh.ncells (DoubleMesh.mesh1 dm);
          Mesh.num_xdivs := nx;
          Mesh.num_ydivs := ny;
          Mesh.num_zdivs := nz;
          Mesh.xcell_size := Mesh.xcell_size (DoubleMesh.mesh1 dm);
          Mesh.ycell_size := Mesh.ycell_size (DoubleMesh.mesh1 dm);
          Mesh.zcell_size := Mesh.zcell_size (DoubleMesh.mesh1 dm) |};
     DoubleMesh.mesh2 := DoubleMesh.mesh2 dm;
     DoubleMesh.xperiod := DoubleMesh.xperiod dm;
     DoubleMesh.yperiod := DoubleMesh.yperiod dm;
     DoubleMesh.zperiod := DoubleMesh.zperiod dm;
     DoubleMesh._PBCs := DoubleMesh._PBCs dm;
     DoubleMesh.search_xlength := DoubleMesh.search_xlength dm;
     DoubleMesh.search_ylength := DoubleMesh.search_ylength dm;
     DoubleMesh.search_zlength := DoubleMesh.search_zlength dm |}.

(** The first small invocation without secondary points. *)
Module NoSecondary.

Definition mesh2 : Mesh.t :=
  {| Mesh.idx_sorted := [];
     Mesh.cell_id_indices := [0; 0; 0];
     Mesh.ncells := 2;
     Mesh.num_xdivs := 2; Mesh.num_ydivs := 1; Mesh.num_zdivs := 1;
     Mesh.xcell_size := 2; Mesh.ycell_size := 4; Mesh.zcell_size := 4 |}.

Definition double_mesh : DoubleMesh.t :=
  {| DoubleMesh.mesh1 := Example.mesh1; DoubleMesh.mesh2 := mesh2;
     DoubleMesh.xperiod := 4; DoubleMesh.yperiod := 4; DoubleMesh.zperiod := 4;
     DoubleMesh._PBCs := 1;
     DoubleMesh.search_xlength := 0.75; DoubleMesh.search_ylength := 0.75;
     DoubleMesh.search_zlength := 0.5 |}.

End NoSecondary.

(** * Properties *)

(** ** The primitives *)

Lemma py_range_In (lo hi k : Z) : In k (py_range lo hi) <-> lo <= k < hi.
Proof.
  unfold py_range. rewrite in_map_iff. split.
  - intros [m [<- Hm]]. apply in_seq in Hm. lia.
  - intros Hk. exists (Z.to_nat (k - lo)). split; [lia|]. apply in_seq. lia.
Qed.

Lemma py_range_empty (lo hi : Z) : hi <= lo -> py_range lo hi = [].
Proof.
  intros H. unfold py_range. replace (Z.to_nat (hi - lo)) with O by lia.
  reflexivity.
Qed.

Lemma bind_Ok {A B : Type} (r : result A) (k : A -> result B) (a : A) :
  r = Ok a -> bind r k = k a.
Proof. intros ->. reflexivity. Qed.

Lemma bind_inv {A B : Type} (r : result A) (k : A -> result B) (b : B) :
  bind r k = Ok b -> exists a, r = Ok a /\ k a = Ok b.
Proof.
  destruct r as [a|e]; simpl; [|discriminate]. intros H. exists a. auto.
Qed.

Lemma as_int_Ok (n : Z) : - 2 ^ 31 <= n < 2 ^ 31 -> as_int n = Ok n.
Proof.
  intros H. unfold as_int.
  destruct (Z.leb_spec (- 2 ^ 31) n); [|lia].
  destruct (Z.ltb_spec n (2 ^ 31)); [reflexivity | lia].
Qed.

Lemma as_int_inv (n m : Z) :
  as_int n = Ok m -> m = n /\ - 2 ^ 31 <= n < 2 ^ 31.
Proof.
  unfold as_int.
  destruct (Z.leb_spec (- 2 ^ 31) n); [|discriminate].
  destruct (Z.ltb_spec n (2 ^ 31)); [|discriminate].
  simpl. intros [= <-]. lia.
Qed.

Lemma as_int_overflow (n : Z) :
  ~ (- 2 ^ 31 <= n < 2 ^ 31) -> as_int n = Err OverflowError.
Proof.
  intros H. unfold as_int.
  destruct (Z.leb_spec (- 2 ^ 31) n); [|reflexivity].
  destruct (Z.ltb_spec n (2 ^ 31)); [lia | reflexivity].
Qed.

Lemma np_zeros_size_Ok (n : nat) :
  Z.of_nat n < 2 ^ 31 -> np_zeros_size (to_int (Z.of_nat n)) = Ok n.
Proof.
  intros H. unfold np_zeros_size, to_int.
  rewrite Z.mod_small by lia.
  destruct (Z.ltb_spec (Z.of_nat n + 2 ^ 31 - 2 ^ 31) 0); [lia|].
  f_equal. lia.
Qed.

Lemma as_int64_Ok (n : Z) : - 2 ^ 63 <= n < 2 ^ 63 -> as_int64 n = Ok n.
Proof.
  intros H. unfold as_int64.
  destruct (Z.leb_spec (- 2 ^ 63) n); [|lia].
  destruct (Z.ltb_spec n (2 ^ 63)); [reflexivity | lia].
Qed.

Lemma as_int64_inv (n m : Z) :
  as_int64 n = Ok m -> m = n /\ - 2 ^ 63 <= n < 2 ^ 63.
Proof.
  unfold as_int64.
  destruct (Z.leb_spec (- 2 ^ 63) n); [|discriminate].
  destruct (Z.ltb_spec n (2 ^ 63)); [|discriminate].
  simpl. intros [= <-]. lia.
Qed.

Lemma call_cdef_inv {A : Type} (build : cdef_raise) (r : result A)
    (o : option A) :
  call_cdef build r = Ok o ->
  o = match r with Ok a => Some a | Err _ => None end.
Proof.
  destruct r as [a|e]; simpl; [intros [= <-]; reflexivity|].
  destruct build; [intros [= <-]; reflexivity | discriminate].
Qed.

Lemma factor_le_product (a b c : Z) :
  0 < a -> 0 < b -> 0 < c ->
  a <= a * b * c /\ b <= a * b * c /\ c <= a * b * c.
Proof.
  intros Ha Hb Hc.
  assert (Hab : 1 <= a * b) by nia.
  assert (Hbc : 1 <= b * c) by nia.
  assert (Hac : 1 <= a * c) by nia.
  repeat split.
  - replace (a * b * c) with (a * (b * c)) by ring. nia.
  - replace (a * b * c) with (b * (a * c)) by ring. nia.
  - replace (a * b * c) with (c * (a * b)) by ring. nia.
Qed.

Lemma view_get_Ok {A : Type} (v : list A) (i : Z) :
  0 <= i < Z.of_nat (length v) ->
  exists a, view_get v i = Ok a /\ nth_error v (Z.to_nat i) = Some a.
Proof.
  intros Hi. unfold view_get.
  destruct (Z.ltb_spec i 0) as [?|_]; [lia|].
  destruct (nth_error v (Z.to_nat i)) as [a|] eqn:E.
  - exists a. split; reflexivity.
  - apply nth_error_None in E. lia.
Qed.

Lemma view_get_inv {A : Type} (v : list A) (i : Z) (a : A) :
  view_get v i = Ok a ->
  0 <= i < Z.of_nat (length v) /\ nth_error v (Z.to_nat i) = Some a.
Proof.
  unfold view_get. destruct (Z.ltb_spec i 0) as [?|Hi]; [discriminate|].
  destruct (nth_error v (Z.to_nat i)) as [b|] eqn:E; [|discriminate].
  intros [= ->]. split; [|reflexivity].
  assert (Z.to_nat i < length v)%nat
    by (apply nth_error_Some; rewrite E; discriminate).
  lia.
Qed.

Lemma list_set_length {A : Type} (v : list A) (n : nat) (a : A) :
  length (list_set v n a) = length v.
Proof.
  revert n. induction v as [|b v IH]; intros [|n]; simpl; auto.
Qed.

Lemma list_set_nth_eq {A : Type} (v : list A) (n : nat) (a d : A) :
  (n < length v)%nat -> nth n (list_set v n a) d = a.
Proof.
  revert n. induction v as [|b v IH]; intros [|n] H; simpl in *;
    try lia; auto. apply IH. lia.
Qed.

Lemma list_set_nth_neq {A : Type} (v : list A) (n m : nat) (a d : A) :
  n <> m -> nth m (list_set v n a) d = nth m v d.
Proof.
  revert n m. induction v as [|b v IH]; intros [|n] [|m] H; simpl;
    try reflexivity; try congruence. apply IH. congruence.
Qed.

Lemma view_set_Ok {A : Type} (v : list A) (i : Z) (a : A) :
  0 <= i < Z.of_nat (length v) ->
  view_set v i a = Ok (list_set v (Z.to_nat i) a).
Proof.
  intros Hi. unfold view_set.
  destruct (Z.ltb_spec i 0) as [?|_]; [lia|].
  destruct (Nat.ltb_spec (Z.to_nat i) (length v)) as [_|?]; [reflexivity|lia].
Qed.

Lemma np_take_Ok {A : Type} (a : list A) (idx : list nat) :
  Forall (fun k => (k < length a)%nat) idx ->
  exists r, np_take a idx = Ok r /\ length r = length idx /\
    forall p k, nth_error idx p = Some k -> nth_error r p = nth_error a k.
Proof.
  induction 1 as [|k idx Hk _ IH].
  - exists []. repeat split. intros [|p] k; discriminate.
  - destruct IH as [r [E [Hlen Hnth]]]. simpl.
    destruct (nth_error a k) as [v|] eqn:Ek.
    + exists (v :: r). rewrite E. simpl. repeat split; [congruence|].
      intros [|p] k'; simpl; [intros [= <-]; congruence | apply Hnth].
    + apply nth_error_None in Ek. lia.
Qed.

(** ** binary64 facts *)

Lemma float_zero_neq_one : 0%float <> 1%float.
Proof.
  intros H. apply (f_equal (fun x => (x =? 0)%float)) in H.
  vm_compute in H. discriminate.
Qed.

Lemma ltb_of_eqb (a b : float) :
  (a =? b)%float = true -> (a <? b)%float = false.
Proof.
  rewrite eqb_spec, ltb_spec. unfold SFeqb, SFltb.
  destruct (SFcompare (Prim2SF a) (Prim2SF b)) as [[]|]; congruence.
Qed.

Lemma SFadd_comm (x y : spec_float) :
  SFadd prec emax x y = SFadd prec emax y x.
Proof.
  destruct x as [sx|sx| |sx mx ex], y as [sy|sy| |sy my ey]; simpl;
    try reflexivity; try (destruct sx, sy; reflexivity).
  rewrite Z.min_comm, Z.add_comm. reflexivity.
Qed.

Lemma float_add_comm (a b : float) : (a + b)%float = (b + a)%float.
Proof.
  apply Prim2SF_inj. rewrite !add_spec. apply SFadd_comm.
Qed.

Lemma of_bint_eqb_one (b : bool) : (of_bint b =? 1)%float = b.
Proof. destruct b; reflexivity. Qed.

Lemma mul_zero_flag (p : float) : zero_or_nan (p * of_int 0)%float.
Proof.
  unfold zero_or_nan. rewrite mul_spec.
  change (Prim2SF (of_int 0)) with (S754_zero false).
  destruct (Prim2SF p) as [s|s| |s m e]; simpl; eauto.
Qed.



Lemma sq_zero_shift (s x x2 : float) (b : bool) :
  Prim2SF s = S754_zero b ->
  ((x - s - x2) * (x - s - x2) = (x - x2) * (x - x2))%float.
Proof.
  intros Hs. apply Prim2SF_inj. rewrite !mul_spec, !sub_spec, Hs.
  unfold SF64mul, SF64sub.
  destruct (Prim2SF x) as [sx|sx| |sx mx ex]; simpl; try reflexivity.
  destruct sx, b; simpl; try reflexivity;
    destruct (Prim2SF x2) as [sy|sy| |sy my ey]; simpl; try reflexivity;
    destruct sy; reflexivity.
Qed.

Lemma sq_nan_shift (s x x2 : float) :
  Prim2SF s = S754_nan ->
  Prim2SF ((x - s - x2) * (x - s - x2))%float = S754_nan.
Proof.
  intros Hs. rewrite !mul_spec, !sub_spec, Hs. unfold SF64mul, SF64sub.
  destruct (Prim2SF x) as [sx|sx| |sx mx ex]; reflexivity.
Qed.

Lemma ltb_nan_l (a b : float) :
  Prim2SF a = S754_nan -> (a <? b)%float = false.
Proof. intros H. rewrite ltb_spec, H. reflexivity. Qed.

Lemma add_nan_l (a b : float) :
  Prim2SF a = S754_nan -> Prim2SF (a + b)%float = S754_nan.
Proof. intros H. rewrite add_spec, H. reflexivity. Qed.

Lemma add_nan_r (a b : float) :
  Prim2SF b = S754_nan -> Prim2SF (a + b)%float = S754_nan.
Proof.
  intros H. rewrite add_spec, H. unfold SF64add.
  destruct (Prim2SF a); reflexivity.
Qed.

Lemma mark_all_length (M : list Z) (h : list Z) :
  length (mark_all M h) = length h.
Proof.
  revert h. induction M as [|p M IH]; intros h; simpl; [reflexivity|].
  unfold mark_all in IH. rewrite IH. apply list_set_length.
Qed.

Lemma mark_all_app (M1 M2 : list Z) (h : list Z) :
  mark_all (M1 ++ M2) h = mark_all M2 (mark_all M1 h).
Proof. apply fold_left_app. Qed.

Lemma mark_all_nth (M : list Z) (h : list Z) (k : nat) :
  (k < length h)%nat ->
  nth k (mark_all M h) 0 =
    if existsb (Nat.eqb k) (map Z.to_nat M) then 1 else nth k h 0.
Proof.
  revert h. induction M as [|q M IH]; intros h Hk; simpl; [reflexivity|].
  unfold mark_all in IH. rewrite IH by (unfold mark; rewrite list_set_length; exact Hk).
  unfold mark. destruct (Nat.eqb_spec k (Z.to_nat q)) as [->|Hne]; simpl.
  - rewrite list_set_nth_eq by exact Hk.
    destruct (existsb _ _); reflexivity.
  - rewrite list_set_nth_neq by congruence. reflexivity.
Qed.

Lemma existsb_to_nat (M : list Z) (p : Z) :
  (forall q, In q M -> 0 <= q) -> 0 <= p ->
  existsb (Nat.eqb (Z.to_nat p)) (map Z.to_nat M) = true <-> In p M.
Proof.
  intros HM Hp. rewrite existsb_exists. split.
  - intros [k [Hk E]]. apply in_map_iff in Hk. destruct Hk as [q [<- Hq]].
    apply Nat.eqb_eq in E. assert (0 <= q) by auto.
    replace p with q by lia. exact Hq.
  - intros Hin. exists (Z.to_nat p). split; [|apply Nat.eqb_refl].
    apply in_map. exact Hin.
Qed.

Lemma mark_all_nth_in (M : list Z) (h : list Z) (p : Z) :
  (forall q, In q M -> 0 <= q) -> 0 <= p < Z.of_nat (length h) ->
  In p M -> nth (Z.to_nat p) (mark_all M h) 0 = 1.
Proof.
  intros HM Hp Hin. rewrite mark_all_nth by lia.
  apply (existsb_to_nat M p HM) in Hin; [|lia]. rewrite Hin. reflexivity.
Qed.

Lemma mark_all_nth_notin (M : list Z) (h : list Z) (p : Z) :
  (forall q, In q M -> 0 <= q) -> 0 <= p < Z.of_nat (length h) ->
  ~ In p M -> nth (Z.to_nat p) (mark_all M h) 0 = nth (Z.to_nat p) h 0.
Proof.
  intros HM Hp Hin. rewrite mark_all_nth by lia.
  destruct (existsb _ _) eqn:E; [|reflexivity].
  apply (existsb_to_nat M p HM) in E; [contradiction|lia].
Qed.

Lemma marks_iff (P Q : Z -> Prop) (n : nat) (f : list Z -> result (list Z)) :
  (forall p, P p <-> Q p) -> marks P n f -> marks Q n f.
Proof.
  intros HPQ [M [HM [Hr Hf]]]. exists M. split; [|split]; auto.
  intros p. rewrite HM. apply HPQ.
Qed.

Lemma marks_skip (n : nat) : marks (fun _ => False) n (fun h => Ok h).
Proof.
  exists []. split; [|split].
  - intros p. simpl. tauto.
  - intros p [].
  - intros h _. reflexivity.
Qed.

Lemma marks_set (n : nat) (p0 : Z) :
  0 <= p0 < Z.of_nat n ->
  marks (fun p => p = p0) n (fun h => view_set h p0 1).
Proof.
  intros Hp. exists [p0]. split; [|split].
  - intros p. simpl. split; [intros [H|[]]; auto | intros ->; auto].
  - intros p [<-|[]]. exact Hp.
  - intros h Hh. simpl. apply view_set_Ok. lia.
Qed.

Lemma marks_for_in (P : Z -> Z -> Prop) (n : nat) (l : list Z)
    (body : Z -> list Z -> result (list Z)) :
  (forall x, In x l -> marks (P x) n (body x)) ->
  marks (fun p => exists x, In x l /\ P x p) n (for_in l body).
Proof.
  induction l as [|x l IH]; intros Hb.
  - exists []. split; [|split].
    + intros p. simpl. split; [tauto | intros [x [[] _]]].
    + intros p [].
    + intros h _. reflexivity.
  - destruct (Hb x (or_introl eq_refl)) as [Mx [HMx [Hrx Hfx]]].
    destruct (IH (fun y Hy => Hb y (or_intror Hy))) as [Ml [HMl [Hrl Hfl]]].
    exists (Mx ++ Ml). split; [|split].
    + intros p. rewrite in_app_iff, HMx, HMl. split.
      * intros [H|[y [Hy H]]]; [exists x | exists y]; simpl; auto.
      * intros [y [[<-|Hy] H]]; [left | right; exists y]; auto.
    + intros p Hp. apply in_app_iff in Hp. destruct Hp; auto.
    + intros h Hh. simpl. rewrite (Hfx h Hh). simpl.
      rewrite Hfl by (rewrite mark_all_length; exact Hh).
      rewrite mark_all_app. reflexivity.
Qed.

Lemma marks_ext (P : Z -> Prop) (n : nat) (f g : list Z -> result (list Z)) :
  (forall h, f h = g h) -> marks P n g -> marks P n f.
Proof.
  intros Hfg [M [HM [Hr Hg]]]. exists M. split; [|split]; auto.
  intros h Hh. rewrite Hfg. apply Hg, Hh.
Qed.

Section ScanMarks.

Variable L : locals.
Hypothesis HL : valid_locals L.

Lemma pair_counts_Ok (ifirst1 i ifirst2 j : Z)
    (x1tmp y1tmp z1tmp rp pi : float) :
  0 <= ifirst1 + i < Z.of_nat (Npts1 L) ->
  0 <= ifirst2 + j < Z.of_nat (length (x2 L)) ->
  exists c,
    pair_counts L ifirst1 i ifirst2 j x1tmp y1tmp z1tmp rp pi = Ok c.
Proof.
  intros H1 H2. unfold pair_counts.
  destruct (view_get_Ok (x2 L) (ifirst2 + j)) as [x2j [-> _]]; [lia|].
  destruct (view_get_Ok (y2 L) (ifirst2 + j)) as [y2j [-> _]];
    [rewrite (vl_y2 L HL); lia|].
  destruct (view_get_Ok (z2 L) (ifirst2 + j)) as [z2j [-> _]];
    [rewrite (vl_z2 L HL); lia|].
  destruct (view_get_Ok (weights1 L) (ifirst1 + i)) as [w1 [-> _]];
    [rewrite (vl_w1 L HL); lia|].
  destruct (view_get_Ok (weights2 L) (ifirst2 + j)) as [w2 [-> _]];
    [rewrite (vl_w2 L HL); lia|].
  unfold call_wfunc. destruct (vl_wfunc L HL) as [f ->].
  simpl. eexists. reflexivity.
Qed.

Lemma loop_j_marks (ifirst1 i ifirst2 : Z) (x1tmp y1tmp z1tmp rp pi : float)
    (js : list Z) :
  0 <= ifirst1 + i < Z.of_nat (Npts1 L) ->
  (forall j, In j js -> exists c,
      pair_counts L ifirst1 i ifirst2 j x1tmp y1tmp z1tmp rp pi = Ok c) ->
  marks
    (fun p => p = ifirst1 + i /\ exists j, In j js /\
       pair_counts L ifirst1 i ifirst2 j x1tmp y1tmp z1tmp rp pi = Ok true)
    (Npts1 L)
    (loop_j L ifirst1 i ifirst2 x1tmp y1tmp z1tmp rp pi js).
Proof.
  intros Hp. induction js as [|j js IH]; intros Hread.
  - eapply marks_iff; [|apply marks_skip].
    intros p. split; [tauto | intros [_ [j [[] _]]]].
  - destruct (Hread j (or_introl eq_refl)) as [c Hc]. destruct c.
    + eapply marks_ext;
        [intros h; simpl; rewrite Hc; reflexivity|].
      eapply marks_iff; [|apply marks_set; exact Hp].
      intros p. split; [|tauto].
      intros ->. split; [reflexivity|]. exists j. simpl. auto.
    + eapply marks_ext;
        [intros h; simpl; rewrite Hc; reflexivity|].
      eapply marks_iff; [|apply IH; intros j' Hj'; apply Hread; right; exact Hj'].
      intros p. split.
      * intros [-> [j' [Hj' Hc']]]. split; [reflexivity|].
        exists j'. simpl. auto.
      * intros [-> [j' [[<-|Hj'] Hc']]]; [congruence|].
        split; [reflexivity|]. exists j'. auto.
Qed.

Lemma scan_point_marks (ifirst1 ifirst2 Nj : Z) (sx sy sz : float) (i : Z) :
  0 <= ifirst1 + i < Z.of_nat (Npts1 L) ->
  0 <= ifirst2 -> ifirst2 + Nj <= Z.of_nat (length (x2 L)) ->
  marks (hit_point L ifirst1 ifirst2 Nj sx sy sz i) (Npts1 L)
    (scan_point L ifirst1 ifirst2 Nj sx sy sz i).
Proof.
  intros Hp H2 H2'.
  destruct (view_get_Ok (x1 L) (ifirst1 + i)) as [x1i [Ex _]];
    [rewrite (vl_x1 L HL); lia|].
  destruct (view_get_Ok (y1 L) (ifirst1 + i)) as [y1i [Ey _]];
    [rewrite (vl_y1 L HL); lia|].
  destruct (view_get_Ok (z1 L) (ifirst1 + i)) as [z1i [Ez _]];
    [rewrite (vl_z1 L HL); lia|].
  destruct (view_get_Ok (rp_max_squared L) (ifirst1 + i)) as [rp [Erp _]];
    [rewrite (vl_rp L HL); lia|].
  destruct (view_get_Ok (pi_max_squared L) (ifirst1 + i)) as [pi [Epi _]];
    [rewrite (vl_pi L HL); lia|].
  eapply marks_ext;
    [intros h; unfold scan_point; rewrite Ex, Ey, Ez, Erp, Epi; reflexivity|].
  eapply marks_iff; [|apply loop_j_marks; [exact Hp|]].
  - intros p. split.
    + intros [-> [j [Hj Hc]]]. apply py_range_In in Hj.
      exists x1i, y1i, z1i, rp, pi, j. repeat split; auto; lia.
    + intros (x1i' & y1i' & z1i' & rp' & pi' & j & Ex' & Ey' & Ez' & Erp'
              & Epi' & -> & Hj & Hc).
      split; [reflexivity|]. exists j. split; [apply py_range_In; lia|].
      congruence.
  - intros j Hj. apply py_range_In in Hj. apply pair_counts_Ok; lia.
Qed.

Lemma cell_offset_Ok (cells : list Z) (bound c : Z) :
  Forall (fun v => 0 <= v <= bound) cells ->
  0 <= c < Z.of_nat (length cells) ->
  exists v, view_get cells c = Ok v /\ 0 <= v <= bound.
Proof.
  intros HF Hc. destruct (view_get_Ok cells c Hc) as [v [E Hn]].
  exists v. split; [exact E|].
  rewrite Forall_forall in HF. apply HF. eapply nth_error_In, Hn.
Qed.

Lemma flat_cell2_range (ix2 iy2 iz2 : Z) :
  0 <= ix2 < num_x2divs L -> 0 <= iy2 < num_y2divs L ->
  0 <= iz2 < num_z2divs L ->
  0 <= flat_cell2 L ix2 iy2 iz2
    < num_x2divs L * num_y2divs L * num_z2divs L.
Proof.
  intros Hx Hy Hz. unfold flat_cell2.
  assert (0 <= iy2 * num_z2divs L + iz2 < num_y2divs L * num_z2divs L)
    by nia.
  assert (0 <= ix2 * (num_y2divs L * num_z2divs L)
            <= (num_x2divs L - 1) * (num_y2divs L * num_z2divs L)) by nia.
  nia.
Qed.

Lemma scan_cell2_marks (ifirst1 Ni ix2 iy2 iz2 : Z) (sx sy sz : float) :
  0 <= ifirst1 -> ifirst1 + Ni <= Z.of_nat (Npts1 L) ->
  0 <= ix2 < num_x2divs L -> 0 <= iy2 < num_y2divs L ->
  0 <= iz2 < num_z2divs L ->
  marks (hit_cell2 L ifirst1 Ni ix2 iy2 iz2 sx sy sz) (Npts1 L)
    (scan_cell2 L ifirst1 Ni ix2 iy2 iz2 sx sy sz).
Proof.
  intros H1 H1' Hx Hy Hz.
  pose proof (flat_cell2_range ix2 iy2 iz2 Hx Hy Hz) as Hflat.
  pose proof (vl_ncells2 L HL) as Hlen.
  destruct (cell_offset_Ok _ _ (flat_cell2 L ix2 iy2 iz2) (vl_cell2 L HL))
    as [ifirst2 [E2 Hf2]]; [lia|].
  destruct (cell_offset_Ok _ _ (flat_cell2 L ix2 iy2 iz2 + 1) (vl_cell2 L HL))
    as [ilast2 [E2' Hl2]]; [lia|].
  destruct (Z.ltb_spec 0 (ilast2 - ifirst2)) as [HNj|HNj].
  - eapply marks_ext.
    { intros h. unfold scan_cell2. rewrite E2, E2'. simpl.
      destruct (Z.ltb_spec 0 (ilast2 - ifirst2)); [reflexivity|lia]. }
    eapply marks_iff;
      [|apply (marks_for_in
                 (hit_point L ifirst1 ifirst2 (ilast2 - ifirst2) sx sy sz))].
    + intros p. split.
      * intros [i [Hi Hh]]. apply py_range_In in Hi.
        exists ifirst2, ilast2, i. auto.
      * intros (ifirst2' & ilast2' & i & E & E' & Hi & Hh).
        rewrite E2 in E. rewrite E2' in E'.
        injection E as <-. injection E' as <-.
        exists i. split; [apply py_range_In; lia | exact Hh].
    + intros i Hi. apply py_range_In in Hi.
      apply scan_point_marks; lia.
  - eapply marks_ext.
    { intros h. unfold scan_cell2. rewrite E2, E2'. simpl.
      destruct (Z.ltb_spec 0 (ilast2 - ifirst2)); [lia|reflexivity]. }
    eapply marks_iff; [|apply marks_skip].
    intros p. split; [tauto|].
    intros (ifirst2' & ilast2' & i & E & E' & Hi & Hh).
    rewrite E2 in E. rewrite E2' in E'.
    injection E as <-. injection E' as <-.
    destruct Hh as (? & ? & ? & ? & ? & j & _ & _ & _ & _ & _ & _ & Hj & _).
    lia.
Qed.

Lemma py_mod_Ok (a b : Z) : b <> 0 -> py_mod a b = Ok (a mod b).
Proof.
  intros Hb. unfold py_mod. destruct (Z.eqb_spec b 0); [contradiction|].
  reflexivity.
Qed.

Lemma py_floordiv_Ok (a b : Z) : b <> 0 -> py_floordiv a b = Ok (a / b).
Proof.
  intros Hb. unfold py_floordiv. destruct (Z.eqb_spec b 0); [contradiction|].
  reflexivity.
Qed.

Lemma scan_cell1_marks (icell1 : Z) :
  0 <= icell1 -> icell1 + 1 < Z.of_nat (length (cell1_indices L)) ->
  marks (hit_cell1 L icell1) (Npts1 L) (scan_cell1 L icell1).
Proof.
  intros Hc Hc'.
  pose proof (vl_x2divs L HL) as Hx2. pose proof (vl_y2divs L HL) as Hy2.
  pose proof (vl_z2divs L HL) as Hz2. pose proof (vl_y1divs L HL) as Hy1.
  pose proof (vl_z1divs L HL) as Hz1.
  destruct (cell_offset_Ok _ _ icell1 (vl_cell1 L HL))
    as [ifirst1 [E1 Hf1]]; [lia|].
  destruct (cell_offset_Ok _ _ (icell1 + 1) (vl_cell1 L HL))
    as [ilast1 [E1' Hl1]]; [lia|].
  destruct (Z.ltb_spec 0 (ilast1 - ifirst1)) as [HNi|HNi].
  - eapply marks_ext.
    { intros h. unfold scan_cell1. rewrite E1, E1'. simpl.
      destruct (Z.ltb_spec 0 (ilast1 - ifirst1)); [|lia].
      rewrite py_floordiv_Ok by nia. simpl.
      rewrite py_floordiv_Ok by lia. simpl. reflexivity. }
    eapply marks_iff; [|apply marks_for_in; intros rx _].
    2:{ eapply marks_ext.
        { intros h. rewrite py_mod_Ok by lia. simpl. reflexivity. }
        apply marks_for_in; intros ry _.
        eapply marks_ext.
        { intros h. rewrite py_mod_Ok by lia. simpl. reflexivity. }
        apply marks_for_in; intros rz _.
        eapply marks_ext.
        { intros h. rewrite py_mod_Ok by lia. simpl. reflexivity. }
        apply scan_cell2_marks; try lia;
          apply Z.mod_pos_bound; lia. }
    intros p. split.
    + intros (rx & Hrx & ry & Hry & rz & Hrz & Hh).
      exists ifirst1, ilast1, rx, ry, rz. cbv zeta. auto 10.
    + intros (ifirst1' & ilast1' & rx & ry & rz & H). cbv zeta in H.
      destruct H as (E & E' & Hrx & Hry & Hrz & Hh).
      rewrite E1 in E. rewrite E1' in E'.
      injection E as <-. injection E' as <-.
      exists rx. split; [exact Hrx|]. exists ry. split; [exact Hry|].
      exists rz. split; [exact Hrz|]. exact Hh.
  - eapply marks_ext.
    { intros h. unfold scan_cell1. rewrite E1, E1'. simpl.
      destruct (Z.ltb_spec 0 (ilast1 - ifirst1)); [lia|reflexivity]. }
    eapply marks_iff; [|apply marks_skip].
    intros p. split; [tauto|].
    intros (ifirst1' & ilast1' & rx & ry & rz & H). cbv zeta in H.
    destruct H as (E & E' & _ & _ & _ & Hh).
    rewrite E1 in E. rewrite E1' in E'.
    injection E as <-. injection E' as <-.
    destruct Hh as (? & ? & i & _ & _ & Hi & _). lia.
Qed.

Lemma scan_cells_marks (first_cell1_element last_cell1_element : Z) :
  0 <= first_cell1_element ->
  last_cell1_element < Z.of_nat (length (cell1_indices L)) ->
  marks (hit_cells L first_cell1_element last_cell1_element) (Npts1 L)
    (scan_cells L first_cell1_element last_cell1_element).
Proof.
  intros Hf Hl. unfold scan_cells.
  eapply marks_iff; [|apply (marks_for_in (hit_cell1 L))].
  - intros p. unfold hit_cells. split.
    + intros [c [Hc Hh]]. apply py_range_In in Hc. exists c. auto.
    + intros [c [Hc Hh]]. exists c. split; [apply py_range_In; lia|auto].
  - intros c Hc. apply py_range_In in Hc. apply scan_cell1_marks; lia.
Qed.

(** The scan of a work range, started on the all-zero array, returns, and
    sets exactly the positions that have a pair that counts. *)
Lemma scan_cells_spec (first_cell1_element last_cell1_element : Z) :
  0 <= first_cell1_element ->
  last_cell1_element < Z.of_nat (length (cell1_indices L)) ->
  exists has_neighbor,
    scan_cells L first_cell1_element last_cell1_element
      (repeat 0 (Npts1 L)) = Ok has_neighbor /\
    length has_neighbor = Npts1 L /\
    forall p, 0 <= p < Z.of_nat (Npts1 L) ->
      (nth (Z.to_nat p) has_neighbor 0 = 1 <->
         hit_cells L first_cell1_element last_cell1_element p) /\
      (nth (Z.to_nat p) has_neighbor 0 = 0 <->
         ~ hit_cells L first_cell1_element last_cell1_element p).
Proof.
  intros Hf Hl.
  destruct (scan_cells_marks _ _ Hf Hl) as [M [HM [Hr Hs]]].
  exists (mark_all M (repeat 0 (Npts1 L))).
  split; [apply Hs, repeat_length|].
  split; [rewrite mark_all_length; apply repeat_length|].
  intros p Hp.
  assert (HM0 : forall q, In q M -> 0 <= q)
    by (intros q Hq; apply Hr in Hq; lia).
  destruct (in_dec Z.eq_dec p M) as [Hin|Hin].
  - rewrite mark_all_nth_in;
      [| exact HM0 | rewrite repeat_length; lia | exact Hin].
    apply HM in Hin. split; split; try tauto; discriminate.
  - rewrite mark_all_nth_notin;
      [| exact HM0 | rewrite repeat_length; lia | exact Hin].
    rewrite nth_repeat. rewrite HM in Hin.
    split; split; try tauto; discriminate.
Qed.

End ScanMarks.

(** ** Result assembly *)

Lemma select_In {A : Type} (a : list A) (mask : list bool) (k : A) :
  In k (select a mask) <->
  exists p, nth_error a p = Some k /\ nth_error mask p = Some true.
Proof.
  revert mask. induction a as [|v a IH]; intros mask.
  - simpl. split; [intros [] | intros [[|p] [H _]]; discriminate].
  - destruct mask as [|b mask].
    + simpl. split; [intros [] | intros [[|p] [_ H]]; discriminate].
    + split.
      * simpl. destruct b.
        -- intros [<-|Hin]; [exists O; auto|].
           apply IH in Hin. destruct Hin as [p Hp]. exists (S p). exact Hp.
        -- intros Hin. apply IH in Hin. destruct Hin as [p Hp].
           exists (S p). exact Hp.
      * intros [[|p] [Ha Hm]]; simpl in Ha, Hm.
        -- injection Ha as <-. injection Hm as ->. left. reflexivity.
        -- assert (In k (select a mask)) by (apply IH; exists p; auto).
           simpl. destruct b; [right|]; assumption.
Qed.

Lemma np_put_spec {A : Type} (idx : list nat) (v d : A) (a : list A) :
  (forall k, In k idx -> (k < length a)%nat) ->
  exists r, np_put a idx v = Ok r /\ length r = length a /\
    forall k, (In k idx -> nth k r d = v) /\
              (~ In k idx -> nth k r d = nth k a d).
Proof.
  revert a. induction idx as [|k0 idx IH]; intros a Hr.
  - exists a. simpl. repeat split; tauto.
  - assert (Hk0 : (k0 < length a)%nat) by (apply Hr; left; reflexivity).
    destruct (IH (list_set a k0 v)) as [r [E [Hlen Hn]]].
    { intros k Hk. rewrite list_set_length. apply Hr. right. exact Hk. }
    exists r. simpl. destruct (Nat.ltb_spec k0 (length a)); [|lia].
    split; [exact E|]. split; [rewrite Hlen; apply list_set_length|].
    intros k. destruct (Hn k) as [Hin Hout]. split.
    + intros Hk. destruct (in_dec Nat.eq_dec k idx) as [Hi|Hi]; [auto|].
      destruct Hk as [->|Hk]; [|contradiction].
      rewrite Hout by exact Hi. apply list_set_nth_eq. exact Hk0.
    + intros Hk. rewrite Hout by (intros H'; apply Hk; right; exact H').
      apply list_set_nth_neq. intros ->. apply Hk. left. reflexivity.
Qed.

Lemma unsort_result_spec (double_mesh : DoubleMesh.t) (n : nat)
    (has_neighbor : list Z) :
  let idx := Mesh.idx_sorted (DoubleMesh.mesh1 double_mesh) in
  length idx = n -> length has_neighbor = n ->
  (forall k, In k idx -> (k < n)%nat) -> NoDup idx ->
  exists r, unsort_result double_mesh n has_neighbor = Ok r /\
    length r = n /\
    (forall k, (k < n)%nat -> nth k r 0%float = 0%float \/ nth k r 0%float = 1%float) /\
    forall p k, nth_error idx p = Some k ->
      (nth p has_neighbor 0 = 0 -> nth k r 0%float = 1%float) /\
      (nth p has_neighbor 0 <> 0 -> nth k r 0%float = 0%float).
Proof.
  intros idx Hidx Hhn Hrange Hnd. unfold unsort_result. fold idx.
  unfold np_mask. rewrite length_map, Hidx, Hhn, Nat.eqb_refl. simpl.
  set (sel := select idx (map (fun v => v =? 0) has_neighbor)).
  assert (Hsel : forall k, In k sel <->
            exists p, nth_error idx p = Some k /\ nth p has_neighbor 0 = 0).
  { intros k. unfold sel. rewrite select_In. split.
    - intros [p [Hp Hm]]. exists p. split; [exact Hp|].
      rewrite nth_error_map in Hm.
      destruct (nth_error has_neighbor p) as [v|] eqn:E; [|discriminate].
      simpl in Hm. injection Hm as Hm. apply Z.eqb_eq in Hm. subst v.
      apply nth_error_nth with (d := 0) in E. exact E.
    - intros [p [Hp Hz]]. exists p. split; [exact Hp|].
      rewrite nth_error_map.
      assert (Hlt : (p < length has_neighbor)%nat).
      { rewrite Hhn, <- Hidx. apply nth_error_Some. congruence. }
      rewrite (nth_error_nth' has_neighbor 0 Hlt). simpl. rewrite Hz.
      reflexivity. }
  destruct (np_put_spec sel 1%float 0%float (repeat 0%float n))
    as [r [E [Hlen Hn]]].
  { intros k Hk. rewrite repeat_length. apply Hsel in Hk.
    destruct Hk as [p [Hp _]]. apply Hrange. eapply nth_error_In, Hp. }
  exists r. split; [exact E|]. rewrite repeat_length in Hlen.
  split; [exact Hlen|]. split.
  - intros k Hk. destruct (Hn k) as [Hin Hout].
    destruct (in_dec Nat.eq_dec k sel) as [Hi|Hi]; [right; auto|left].
    rewrite Hout by exact Hi. apply nth_repeat.
  - intros p k Hp. destruct (Hn k) as [Hin Hout]. split.
    + intros Hz. apply Hin, Hsel. exists p. auto.
    + intros Hnz. rewrite Hout; [apply nth_repeat|].
      intros Hk. apply Hsel in Hk. destruct Hk as [p' [Hp' Hz]].
      assert (p = p'); [|subst p'; contradiction].
      rewrite NoDup_nth_error in Hnd. apply Hnd; [|congruence].
      apply nth_error_Some. congruence.
Qed.

Lemma offsets_ok_bounds (offsets : list Z) (ncells : Z) (npts : nat) :
  offsets_ok offsets ncells npts ->
  Forall (fun v => 0 <= v <= Z.of_nat npts) offsets.
Proof.
  intros (Hlen & H0 & Hn & Hmono). apply Forall_forall. intros v Hv.
  apply In_nth with (d := 0) in Hv. destruct Hv as [c [Hc <-]].
  pose proof (Hmono O c) as Hlo. pose proof (Hmono c (Z.to_nat ncells)) as Hhi.
  lia.
Qed.

Lemma Permutation_seq_bounds (idx : list nat) (n : nat) :
  Permutation idx (seq 0 n) ->
  length idx = n /\ NoDup idx /\ (forall k, In k idx <-> (k < n)%nat).
Proof.
  intros HP. split; [|split].
  - rewrite (Permutation_length HP). apply length_seq.
  - eapply Permutation_NoDup; [apply Permutation_sym, HP | apply seq_NoDup].
  - intros k. split.
    + intros Hk. eapply Permutation_in in Hk; [|exact HP].
      apply in_seq in Hk. lia.
    + intros Hk. eapply Permutation_in; [apply Permutation_sym, HP|].
      apply in_seq. lia.
Qed.

Lemma return_conditional_function_Ok (cond_func_id : Z) :
  0 <= cond_func_id <= 6 ->
  exists f, return_conditional_function cond_func_id = Ok f.
Proof.
  intros H.
  assert (cond_func_id = 0 \/ cond_func_id = 1 \/ cond_func_id = 2 \/
          cond_func_id = 3 \/ cond_func_id = 4 \/ cond_func_id = 5 \/
          cond_func_id = 6) as Hc by lia.
  repeat (destruct Hc as [->|Hc]); try subst cond_func_id;
    eexists; reflexivity.
Qed.

Section Invocation.

Variable build : cdef_raise.
Variable double_mesh : DoubleMesh.t.
Variables x1in y1in z1in x2in y2in z2in : list float.
Variables weights1in weights2in : list (list float).
Variable weight_func_idin : Z.
Variables rp_max pi_max : list float.
Variable cell1_tuple : Z * Z.

Hypothesis Hvalid :
  valid_invocation double_mesh x1in y1in z1in x2in y2in z2in
    weights1in weights2in weight_func_idin rp_max pi_max cell1_tuple.

Lemma engine_locals_Ok :
  exists L,
    engine_locals build double_mesh x1in y1in z1in x2in y2in z2in
      weights1in weights2in weight_func_idin rp_max pi_max cell1_tuple
    = Ok L /\
    valid_locals L /\
    Npts1 L = length x1in /\
    cell1_indices L = Mesh.cell_id_indices (DoubleMesh.mesh1 double_mesh).
Proof.
  pose proof Hvalid as Hv.
  destruct Hv as [Hcode Hly1 Hlz1 Hlw1 Hlrp Hlpi Hly2 Hlz2 Hlw2 Hwidth Hidx1 Hidx2
                    Hxs Hys Hzs Hx1d Hy1d Hz1d Hx2d Hy2d Hz2d Hn1 Hn2 Hc1 Hc2 Hrange
                    Hnp1 Hnp2 Hnc1 Hnc2 HPBCs].
  pose proof (factor_le_product _ _ _ Hx1d Hy1d Hz1d) as (Hbx1 & Hby1 & Hbz1).
  pose proof (factor_le_product _ _ _ Hx2d Hy2d Hz2d) as (Hbx2 & Hby2 & Hbz2).
  rewrite <- Hn1 in Hbx1, Hby1, Hbz1. rewrite <- Hn2 in Hbx2, Hby2, Hbz2.
  destruct (Permutation_seq_bounds _ _ Hidx1) as (Hl1 & _ & Hin1).
  destruct (Permutation_seq_bounds _ _ Hidx2) as (Hl2 & _ & Hin2).
  assert (HF1 : forall A (a : list A), length a = length x1in ->
            Forall (fun k => (k < length a)%nat)
              (Mesh.idx_sorted (DoubleMesh.mesh1 double_mesh))).
  { intros A a Ha. apply Forall_forall. intros k Hk. rewrite Ha.
    apply Hin1, Hk. }
  assert (HF2 : forall A (a : list A), length a = length x2in ->
            Forall (fun k => (k < length a)%nat)
              (Mesh.idx_sorted (DoubleMesh.mesh2 double_mesh))).
  { intros A a Ha. apply Forall_forall. intros k Hk. rewrite Ha.
    apply Hin2, Hk. }
  unfold engine_locals.
  rewrite (as_int_Ok weight_func_idin) by lia. cbn [bind].
  destruct (return_conditional_function_Ok _ Hcode) as [f ->].
  cbn [call_cdef bind].
  assert (Hrpl : length (map (fun r => (r * r)%float) rp_max) = length x1in)
    by (rewrite length_map; exact Hlrp).
  assert (Hpil : length (map (fun r => (r * r)%float) pi_max) = length x1in)
    by (rewrite length_map; exact Hlpi).
  destruct (np_take_Ok _ _ (HF1 _ _ Hrpl)) as (rp2 & -> & Hrp2 & _).
  destruct (np_take_Ok _ _ (HF1 _ _ Hpil)) as (pi2 & -> & Hpi2 & _).
  cbn [bind].
  rewrite (as_int64_Ok (fst cell1_tuple)) by lia. cbn [bind].
  rewrite (as_int64_Ok (snd cell1_tuple)) by lia. cbn [bind].
  rewrite (as_int_Ok (DoubleMesh._PBCs double_mesh)) by lia. cbn [bind].
  rewrite (as_int_Ok (Mesh.ncells (DoubleMesh.mesh1 double_mesh))) by lia.
  cbn [bind].
  rewrite (np_zeros_size_Ok (length x1in)) by lia. cbn [bind].
  destruct (np_take_Ok x1in _ (HF1 _ _ eq_refl)) as (sx1 & -> & Hx1 & _).
  destruct (np_take_Ok y1in _ (HF1 _ _ Hly1)) as (sy1 & -> & Hy1 & _).
  destruct (np_take_Ok z1in _ (HF1 _ _ Hlz1)) as (sz1 & -> & Hz1 & _).
  destruct (np_take_Ok x2in _ (HF2 _ _ eq_refl)) as (sx2 & -> & Hx2 & _).
  destruct (np_take_Ok y2in _ (HF2 _ _ Hly2)) as (sy2 & -> & Hy2 & _).
  destruct (np_take_Ok z2in _ (HF2 _ _ Hlz2)) as (sz2 & -> & Hz2 & _).
  destruct (np_take_Ok weights1in _ (HF1 _ _ Hlw1)) as (sw1 & -> & Hw1 & _).
  destruct (np_take_Ok weights2in _ (HF2 _ _ Hlw2)) as (sw2 & -> & Hw2 & _).
  destruct Hxs as (stx & -> & Hsx). destruct Hys as (sty & -> & Hsy).
  destruct Hzs as (stz & -> & Hsz).
  cbn [bind].
  rewrite (as_int_Ok stx), (as_int_Ok sty), (as_int_Ok stz) by lia.
  cbn [bind].
  rewrite (as_int_Ok (Mesh.num_xdivs (DoubleMesh.mesh1 double_mesh))),
    (as_int_Ok (Mesh.num_ydivs (DoubleMesh.mesh1 double_mesh))),
    (as_int_Ok (Mesh.num_zdivs (DoubleMesh.mesh1 double_mesh))),
    (as_int_Ok (Mesh.num_xdivs (DoubleMesh.mesh2 double_mesh))),
    (as_int_Ok (Mesh.num_ydivs (DoubleMesh.mesh2 double_mesh))),
    (as_int_Ok (Mesh.num_zdivs (DoubleMesh.mesh2 double_mesh))) by lia.
  cbn [bind].
  unfold py_floordiv.
  destruct (Z.eqb_spec (Mesh.num_xdivs (DoubleMesh.mesh1 double_mesh)) 0);
    [lia|].
  destruct (Z.eqb_spec (Mesh.num_ydivs (DoubleMesh.mesh1 double_mesh)) 0);
    [lia|].
  destruct (Z.eqb_spec (Mesh.num_zdivs (DoubleMesh.mesh1 double_mesh)) 0);
    [lia|].
  simpl. eexists. split; [reflexivity|].
  split; [|split; reflexivity].
  constructor; simpl; try congruence; try assumption.
  - exists f. reflexivity.
  - eapply offsets_ok_bounds, Hc1.
  - replace (length sx2) with (length x2in) by congruence.
    eapply offsets_ok_bounds, Hc2.
  - destruct Hc2 as [H _]. rewrite H, Hn2. reflexivity.
Qed.

End Invocation.

(** ** What the locals hold *)

Lemma np_take_inv {A : Type} (a : list A) (idx : list nat) (r : list A) :
  np_take a idx = Ok r -> gathered a idx r.
Proof.
  revert r. induction idx as [|k idx IH]; intros r; simpl.
  - intros [= <-]. split; [reflexivity|]. intros [|p] k; discriminate.
  - destruct (nth_error a k) as [v|] eqn:Ek; [|discriminate].
    destruct (np_take a idx) as [r'|] eqn:Er; simpl; [|discriminate].
    intros [= <-]. destruct (IH r' eq_refl) as [Hlen Hnth].
    split; [simpl; congruence|].
    intros [|p] k'; simpl; [intros [= <-]; congruence | apply Hnth].
Qed.

Lemma py_floordiv_inv (a b q : Z) : py_floordiv a b = Ok q -> q = a / b.
Proof.
  unfold py_floordiv. destruct (b =? 0); [discriminate|]. congruence.
Qed.

Lemma int_ceil_as_int_inv (q : float) (n : Z) :
  (m <- int_ceil q ;; as_int m) = Ok n ->
  int_ceil q = Ok n /\ - 2 ^ 31 <= n < 2 ^ 31.
Proof.
  intros H. apply bind_inv in H. destruct H as (m & Em & Hm).
  apply as_int_inv in Hm. destruct Hm as [-> Hm]. auto.
Qed.

Lemma engine_locals_inv (build : cdef_raise)
    (double_mesh : DoubleMesh.t)
    (x1in y1in z1in x2in y2in z2in : list float)
    (weights1in weights2in : list (list float)) (weight_func_idin : Z)
    (rp_max pi_max : list float) (cell1_tuple : Z * Z) (L : locals) :
  engine_locals build double_mesh x1in y1in z1in x2in y2in z2in
    weights1in weights2in weight_func_idin rp_max pi_max cell1_tuple
  = Ok L ->
  locals_of double_mesh x1in y1in z1in x2in y2in z2in
    weights1in weights2in weight_func_idin rp_max pi_max cell1_tuple L.
Proof.
  unfold engine_locals.
  repeat match goal with
         | |- bind ?r _ = Ok _ -> _ =>
             let E := fresh "E" in
             destruct r eqn:E; cbn [bind]; [|discriminate]
         end.
  intros [= <-].
  repeat match goal with
         | H : as_int _ = Ok _ |- _ =>
             apply as_int_inv in H; destruct H as [-> ?]
         | H : as_int64 _ = Ok _ |- _ =>
             apply as_int64_inv in H; destruct H as [-> ?]
         | H : bind (int_ceil _) _ = Ok _ |- _ =>
             apply int_ceil_as_int_inv in H; destruct H as [? ?]
         | H : call_cdef _ _ = Ok _ |- _ => apply call_cdef_inv in H
         end.
  constructor; simpl;
    try reflexivity; try assumption;
    try (apply np_take_inv; assumption);
    try (apply py_floordiv_inv; assumption).
Qed.

(** The set-up reads the work range at lines 94-95 only: over another work
    range that [cnp.int64_t] holds, the locals are the same but for the
    range. *)
Lemma engine_locals_work_range (build : cdef_raise)
    (double_mesh : DoubleMesh.t)
    (x1in y1in z1in x2in y2in z2in : list float)
    (weights1in weights2in : list (list float)) (weight_func_idin : Z)
    (rp_max pi_max : list float) (cell1_tuple cell1_tuple' : Z * Z)
    (L : locals) :
  engine_locals build double_mesh x1in y1in z1in x2in y2in z2in
    weights1in weights2in weight_func_idin rp_max pi_max cell1_tuple
  = Ok L ->
  - 2 ^ 63 <= fst cell1_tuple' < 2 ^ 63 ->
  - 2 ^ 63 <= snd cell1_tuple' < 2 ^ 63 ->
  engine_locals build double_mesh x1in y1in z1in x2in y2in z2in
    weights1in weights2in weight_func_idin rp_max pi_max cell1_tuple'
  = Ok (with_work_range L (fst cell1_tuple') (snd cell1_tuple')).
Proof.
  intros EL H0 H1. revert EL. unfold engine_locals.
  rewrite (as_int64_Ok (fst cell1_tuple')), (as_int64_Ok (snd cell1_tuple'))
    by assumption.
  repeat match goal with
         | |- bind ?r _ = Ok _ -> _ =>
             destruct r; cbn [bind]; [|discriminate]
         end.
  intros [= <-]. reflexivity.
Qed.

(** ** The engine on a valid invocation *)

Lemma engine_spec (build : cdef_raise)
    (double_mesh : DoubleMesh.t)
    (x1in y1in z1in x2in y2in z2in : list float)
    (weights1in weights2in : list (list float)) (weight_func_idin : Z)
    (rp_max pi_max : list float) (cell1_tuple : Z * Z) :
  valid_invocation double_mesh x1in y1in z1in x2in y2in z2in
    weights1in weights2in weight_func_idin rp_max pi_max cell1_tuple ->
  exists L has_neighbor r,
    engine_locals build double_mesh x1in y1in z1in x2in y2in z2in
      weights1in weights2in weight_func_idin rp_max pi_max cell1_tuple
    = Ok L /\
    valid_locals L /\
    scan_cells L (fst cell1_tuple) (snd cell1_tuple)
      (repeat 0 (length x1in)) = Ok has_neighbor /\
    marked_cylindrical_isolation_engine build double_mesh x1in y1in z1in
      x2in y2in z2in weights1in weights2in weight_func_idin rp_max pi_max
      cell1_tuple = Ok r /\
    length has_neighbor = length x1in /\
    length r = length x1in /\
    (forall k, (k < length x1in)%nat ->
       nth k r 0%float = 0%float \/ nth k r 0%float = 1%float) /\
    (forall p, (p < length x1in)%nat ->
       (nth p has_neighbor 0 = 1 <->
          hit_cells L (fst cell1_tuple) (snd cell1_tuple) (Z.of_nat p)) /\
       (nth p has_neighbor 0 = 0 <->
          ~ hit_cells L (fst cell1_tuple) (snd cell1_tuple) (Z.of_nat p))) /\
    (forall p k,
       nth_error (Mesh.idx_sorted (DoubleMesh.mesh1 double_mesh)) p = Some k ->
       (nth p has_neighbor 0 = 0 -> nth k r 0%float = 1%float) /\
       (nth p has_neighbor 0 <> 0 -> nth k r 0%float = 0%float)).
Proof.
  intros Hv.
  destruct (engine_locals_Ok build _ _ _ _ _ _ _ _ _ _ _ _ _ Hv)
    as (L & EL & HL & HN & Hc1).
  destruct (Permutation_seq_bounds _ _ (vi_idx1 _ _ _ _ _ _ _ _ _ _ _ _ _ Hv))
    as (Hlen & Hnd & Hin).
  pose proof (vi_cells1 _ _ _ _ _ _ _ _ _ _ _ _ _ Hv) as (Hclen & _).
  pose proof (vi_range _ _ _ _ _ _ _ _ _ _ _ _ _ Hv) as (Hr0 & Hr1).
  destruct (scan_cells_spec L HL (fst cell1_tuple) (snd cell1_tuple))
    as (hn & Es & Hhn & Hhit); [lia | rewrite Hc1; lia |].
  rewrite HN in Es, Hhn, Hhit.
  destruct (unsort_result_spec double_mesh (length x1in) hn Hlen Hhn)
    as (r & Er & Hrlen & Hbin & Hr); [intros k Hk; apply Hin, Hk | exact Hnd |].
  exists L, hn, r.
  split; [exact EL|]. split; [exact HL|]. split; [exact Es|].
  split.
  { pose proof (engine_locals_inv _ _ _ _ _ _ _ _ _ _ _ _ _ _ _ EL) as HLo.
    unfold marked_cylindrical_isolation_engine. rewrite EL. simpl.
    rewrite (lo_first _ _ _ _ _ _ _ _ _ _ _ _ _ _ HLo),
      (lo_last _ _ _ _ _ _ _ _ _ _ _ _ _ _ HLo).
    rewrite HN, Es. simpl. exact Er. }
  split; [exact Hhn|]. split; [exact Hrlen|]. split; [exact Hbin|].
  split; [|exact Hr].
  intros p Hp. specialize (Hhit (Z.of_nat p)).
  rewrite Nat2Z.id in Hhit. apply Hhit. lia.
Qed.

(** ** The pair test and the inner loop *)

Lemma is_neighbor_true (dxy_sq dz_sq rp pi : float) (c : bool) :
  is_neighbor dxy_sq dz_sq rp pi (of_bint c) = true <->
  (dxy_sq <? rp)%float = true /\ (dz_sq <? pi)%float = true /\ c = true /\
  (0 <? dxy_sq + dz_sq)%float = true.
Proof.
  unfold is_neighbor. rewrite of_bint_eqb_one, (float_add_comm dz_sq dxy_sq).
  rewrite !andb_true_iff. tauto.
Qed.

Lemma pair_counts_eq (L : locals) (f : f_type) (ifirst1 i ifirst2 j : Z)
    (x1tmp y1tmp z1tmp rp pi x2j y2j z2j : float) (w1 w2 : list float) :
  wfunc L = Some f ->
  view_get (x2 L) (ifirst2 + j) = Ok x2j ->
  view_get (y2 L) (ifirst2 + j) = Ok y2j ->
  view_get (z2 L) (ifirst2 + j) = Ok z2j ->
  view_get (weights1 L) (ifirst1 + i) = Ok w1 ->
  view_get (weights2 L) (ifirst2 + j) = Ok w2 ->
  pair_counts L ifirst1 i ifirst2 j x1tmp y1tmp z1tmp rp pi =
    Ok (is_neighbor
          ((x1tmp - x2j) * (x1tmp - x2j) + (y1tmp - y2j) * (y1tmp - y2j))%float
          ((z1tmp - z2j) * (z1tmp - z2j))%float rp pi
          (of_bint (f w1 w2))).
Proof.
  intros Ef Ex Ey Ez Ew1 Ew2. unfold pair_counts, call_wfunc.
  rewrite Ex, Ey, Ez, Ew1, Ew2, Ef. reflexivity.
Qed.

Lemma pair_counts_inv (L : locals) (ifirst1 i ifirst2 j : Z)
    (x1tmp y1tmp z1tmp rp pi : float) (c : bool) :
  pair_counts L ifirst1 i ifirst2 j x1tmp y1tmp z1tmp rp pi = Ok c ->
  exists f x2j y2j z2j w1 w2,
    wfunc L = Some f /\
    view_get (x2 L) (ifirst2 + j) = Ok x2j /\
    view_get (y2 L) (ifirst2 + j) = Ok y2j /\
    view_get (z2 L) (ifirst2 + j) = Ok z2j /\
    view_get (weights1 L) (ifirst1 + i) = Ok w1 /\
    view_get (weights2 L) (ifirst2 + j) = Ok w2 /\
    c = is_neighbor
          ((x1tmp - x2j) * (x1tmp - x2j) + (y1tmp - y2j) * (y1tmp - y2j))%float
          ((z1tmp - z2j) * (z1tmp - z2j))%float rp pi
          (of_bint (f w1 w2)).
Proof.
  unfold pair_counts, call_wfunc.
  destruct (view_get (x2 L) (ifirst2 + j)) as [x2j|]; [|discriminate].
  destruct (view_get (y2 L) (ifirst2 + j)) as [y2j|]; [|discriminate].
  destruct (view_get (z2 L) (ifirst2 + j)) as [z2j|]; [|discriminate].
  destruct (view_get (weights1 L) (ifirst1 + i)) as [w1|]; [|discriminate].
  destruct (view_get (weights2 L) (ifirst2 + j)) as [w2|]; [|discriminate].
  destruct (wfunc L) as [f|]; [|discriminate].
  simpl. intros [= <-]. exists f, x2j, y2j, z2j, w1, w2. repeat split.
Qed.

Lemma loop_j_break (L : locals) (ifirst1 i ifirst2 : Z)
    (x1tmp y1tmp z1tmp rp pi : float) (pre post : list Z) (j : Z)
    (has_neighbor : list Z) :
  (forall j', In j' pre ->
     pair_counts L ifirst1 i ifirst2 j' x1tmp y1tmp z1tmp rp pi = Ok false) ->
  pair_counts L ifirst1 i ifirst2 j x1tmp y1tmp z1tmp rp pi = Ok true ->
  loop_j L ifirst1 i ifirst2 x1tmp y1tmp z1tmp rp pi (pre ++ j :: post)
    has_neighbor = view_set has_neighbor (ifirst1 + i) 1.
Proof.
  intros Hpre Hj. induction pre as [|j0 pre IH]; simpl.
  - rewrite Hj. reflexivity.
  - rewrite (Hpre j0 (or_introl eq_refl)). simpl.
    apply IH. intros j' Hj'. apply Hpre. right. exact Hj'.
Qed.

Lemma loop_j_none (L : locals) (ifirst1 i ifirst2 : Z)
    (x1tmp y1tmp z1tmp rp pi : float) (js : list Z) (has_neighbor : list Z) :
  (forall j', In j' js ->
     pair_counts L ifirst1 i ifirst2 j' x1tmp y1tmp z1tmp rp pi = Ok false) ->
  loop_j L ifirst1 i ifirst2 x1tmp y1tmp z1tmp rp pi js has_neighbor =
    Ok has_neighbor.
Proof.
  intros Hjs. induction js as [|j0 js IH]; simpl; [reflexivity|].
  rewrite (Hjs j0 (or_introl eq_refl)). simpl.
  apply IH. intros j' Hj'. apply Hjs. right. exact Hj'.
Qed.

Lemma map_seq_shift (m s t : nat) (a b : Z) :
  a + Z.of_nat s = b + Z.of_nat t ->
  map (fun k => a + Z.of_nat k) (seq s m)
  = map (fun k => b + Z.of_nat k) (seq t m).
Proof.
  revert s t. induction m as [|m IH]; intros s t H; simpl; [reflexivity|].
  f_equal; [exact H|]. apply IH. lia.
Qed.

Lemma py_range_app (lo mid hi : Z) :
  lo <= mid <= hi -> py_range lo hi = py_range lo mid ++ py_range mid hi.
Proof.
  intros H. unfold py_range.
  replace (Z.to_nat (hi - lo))
    with (Z.to_nat (mid - lo) + Z.to_nat (hi - mid))%nat by lia.
  rewrite seq_app, map_app. f_equal. apply map_seq_shift. lia.
Qed.

Lemma py_range_split (n j : Z) :
  0 <= j < n ->
  py_range 0 n = py_range 0 j ++ j :: py_range (j + 1) n.
Proof.
  intros Hj.
  rewrite (py_range_app 0 j n) by lia. f_equal.
  rewrite (py_range_app j (j + 1) n) by lia.
  unfold py_range at 1. replace (j + 1 - j) with 1 by lia. simpl.
  f_equal. lia.
Qed.

Section PairTestProperties.

Variables (L : locals) (f : f_type) (ifirst1 ifirst2 i : Z).
Variables x2shift y2shift z2shift : float.
Variables x1i y1i z1i rp_max_squaredtmp pi_max_squaredtmp : float.
Variable w1 : list float.

Hypothesis Hwfunc : wfunc L = Some f.
Hypothesis Hx1 : view_get (x1 L) (ifirst1 + i) = Ok x1i.
Hypothesis Hy1 : view_get (y1 L) (ifirst1 + i) = Ok y1i.
Hypothesis Hz1 : view_get (z1 L) (ifirst1 + i) = Ok z1i.
Hypothesis Hrp :
  view_get (rp_max_squared L) (ifirst1 + i) = Ok rp_max_squaredtmp.
Hypothesis Hpi :
  view_get (pi_max_squared L) (ifirst1 + i) = Ok pi_max_squaredtmp.
Hypothesis Hw1 : view_get (weights1 L) (ifirst1 + i) = Ok w1.

Let x1tmp := (x1i - x2shift)%float.
Let y1tmp := (y1i - y2shift)%float.
Let z1tmp := (z1i - z2shift)%float.

Let counts (j : Z) : result bool :=
  pair_counts L ifirst1 i ifirst2 j x1tmp y1tmp z1tmp
    rp_max_squaredtmp pi_max_squaredtmp.

Lemma qualifies_counts (j : Z) :
  qualifies L f ifirst2 x1tmp y1tmp z1tmp
    rp_max_squaredtmp pi_max_squaredtmp w1 j <->
  counts j = Ok true.
Proof.
  unfold counts, qualifies, secondary_point, four_conditions. split.
  - intros (x2j & y2j & z2j & w2 & (Ex & Ey & Ez & Ew2) & Hc).
    rewrite (pair_counts_eq L f _ _ _ _ _ _ _ _ _ _ _ _ _ _
               Hwfunc Ex Ey Ez Hw1 Ew2).
    f_equal. apply is_neighbor_true. exact Hc.
  - intros Hc. apply pair_counts_inv in Hc.
    destruct Hc as (f' & x2j & y2j & z2j & w1' & w2 & Ef & Ex & Ey & Ez
                    & Ew1 & Ew2 & Hn).
    rewrite Hwfunc in Ef. injection Ef as <-.
    rewrite Hw1 in Ew1. injection Ew1 as <-.
    exists x2j, y2j, z2j, w2. split; [repeat split; assumption|].
    apply is_neighbor_true. symmetry. exact Hn.
Qed.

Lemma fails_counts (j : Z) :
  fails L f ifirst2 x1tmp y1tmp z1tmp
    rp_max_squaredtmp pi_max_squaredtmp w1 j <->
  counts j = Ok false.
Proof.
  unfold counts, fails, secondary_point, four_conditions. split.
  - intros (x2j & y2j & z2j & w2 & (Ex & Ey & Ez & Ew2) & Hc).
    rewrite (pair_counts_eq L f _ _ _ _ _ _ _ _ _ _ _ _ _ _
               Hwfunc Ex Ey Ez Hw1 Ew2).
    f_equal. apply not_true_is_false. intros Hn. apply Hc.
    apply is_neighbor_true. exact Hn.
  - intros Hc. apply pair_counts_inv in Hc.
    destruct Hc as (f' & x2j & y2j & z2j & w1' & w2 & Ef & Ex & Ey & Ez
                    & Ew1 & Ew2 & Hn).
    rewrite Hwfunc in Ef. injection Ef as <-.
    rewrite Hw1 in Ew1. injection Ew1 as <-.
    exists x2j, y2j, z2j, w2. split; [repeat split; assumption|].
    intros Hq. apply is_neighbor_true in Hq. congruence.
Qed.

Lemma scan_point_loop (Nj : Z) (has_neighbor : list Z) :
  scan_point L ifirst1 ifirst2 Nj x2shift y2shift z2shift i has_neighbor =
  loop_j L ifirst1 i ifirst2 x1tmp y1tmp z1tmp
    rp_max_squaredtmp pi_max_squaredtmp (py_range 0 Nj) has_neighbor.
Proof.
  unfold scan_point. rewrite Hx1, Hy1, Hz1, Hrp, Hpi. reflexivity.
Qed.

End PairTestProperties.

(** C1.  The scanner tests the primary point [i] of a cell, at the sorted
    position [ifirst1 + i], with its coordinates less the shifts of the
    secondary cell, its own [rp_max_squared[ifirst1 + i]] and
    [pi_max_squared[ifirst1 + i]] and its own weights, against the secondary
    points [j = 0, 1, ...] of the cell in turn.  A pair counts exactly when
    [dxy_sq < rp_max_sq[i]], [dz_sq < pi_max_sq[i]], the selected predicate
    holds of the two weight vectors and [dxy_sq + dz_sq > 0]: a secondary
    point exactly on the boundary of the cylinder fails the test.  At the
    first [j] that passes, the flag of the point is set and the scan of the
    cell is over, whatever secondary points follow (they are not read); when
    no [j] passes, the flags are left as they were. *)
Theorem pair_test_and_break (L : locals) (f : f_type)
    (ifirst1 ifirst2 Nj i : Z) (x2shift y2shift z2shift : float)
    (x1i y1i z1i rp_max_squaredtmp pi_max_squaredtmp : float)
    (w1 : list float) :
  wfunc L = Some f ->
  view_get (x1 L) (ifirst1 + i) = Ok x1i ->
  view_get (y1 L) (ifirst1 + i) = Ok y1i ->
  view_get (z1 L) (ifirst1 + i) = Ok z1i ->
  view_get (rp_max_squared L) (ifirst1 + i) = Ok rp_max_squaredtmp ->
  view_get (pi_max_squared L) (ifirst1 + i) = Ok pi_max_squaredtmp ->
  view_get (weights1 L) (ifirst1 + i) = Ok w1 ->
  let x1tmp := (x1i - x2shift)%float in
  let y1tmp := (y1i - y2shift)%float in
  let z1tmp := (z1i - z2shift)%float in
  let passes :=
    qualifies L f ifirst2 x1tmp y1tmp z1tmp
      rp_max_squaredtmp pi_max_squaredtmp w1 in
  let fails_test :=
    fails L f ifirst2 x1tmp y1tmp z1tmp
      rp_max_squaredtmp pi_max_squaredtmp w1 in
  let scan :=
    scan_point L ifirst1 ifirst2 Nj x2shift y2shift z2shift i in
  (forall j x2j y2j z2j w2,
     secondary_point L ifirst2 j x2j y2j z2j w2 ->
     let dx := (x1tmp - x2j)%float in
     let dy := (y1tmp - y2j)%float in
     let dz := (z1tmp - z2j)%float in
     let dxy_sq := (dx * dx + dy * dy)%float in
     let dz_sq := (dz * dz)%float in
     (passes j <->
        (dxy_sq <? rp_max_squaredtmp)%float = true /\
        (dz_sq <? pi_max_squaredtmp)%float = true /\
        f w1 w2 = true /\
        (0 <? dxy_sq + dz_sq)%float = true) /\
     (fails_test j <-> ~ passes j)) /\
  (forall j,
     passes j <->
     pair_counts L ifirst1 i ifirst2 j x1tmp y1tmp z1tmp
       rp_max_squaredtmp pi_max_squaredtmp = Ok true) /\
  (forall j,
     fails_test j <->
     pair_counts L ifirst1 i ifirst2 j x1tmp y1tmp z1tmp
       rp_max_squaredtmp pi_max_squaredtmp = Ok false) /\
  (forall j x2j y2j z2j w2,
     secondary_point L ifirst2 j x2j y2j z2j w2 ->
     on_boundary x1tmp y1tmp z1tmp rp_max_squaredtmp pi_max_squaredtmp
       x2j y2j z2j ->
     fails_test j) /\
  (forall j0 has_neighbor,
     0 <= j0 < Nj ->
     (forall j, 0 <= j < j0 -> fails_test j) ->
     passes j0 ->
     scan has_neighbor = view_set has_neighbor (ifirst1 + i) 1 /\
     (0 <= ifirst1 + i < Z.of_nat (length has_neighbor) ->
      scan has_neighbor = Ok (mark has_neighbor (ifirst1 + i)) /\
      nth (Z.to_nat (ifirst1 + i)) (mark has_neighbor (ifirst1 + i)) 0 = 1 /\
      forall q, q <> Z.to_nat (ifirst1 + i) ->
        nth q (mark has_neighbor (ifirst1 + i)) 0 = nth q has_neighbor 0)) /\
  (forall has_neighbor,
     (forall j, 0 <= j < Nj -> fails_test j) ->
     scan has_neighbor = Ok has_neighbor).
Proof.
  intros Hf Ex1 Ey1 Ez1 Erp Epi Ew1 x1tmp y1tmp z1tmp passes fails_test scan.
  assert (Hq : forall j,
            passes j <->
            pair_counts L ifirst1 i ifirst2 j x1tmp y1tmp z1tmp
              rp_max_squaredtmp pi_max_squaredtmp = Ok true)
    by (intros j; apply qualifies_counts; assumption).
  assert (Hn : forall j,
            fails_test j <->
            pair_counts L ifirst1 i ifirst2 j x1tmp y1tmp z1tmp
              rp_max_squaredtmp pi_max_squaredtmp = Ok false)
    by (intros j; apply fails_counts; assumption).
  split; [|split; [exact Hq|]; split; [exact Hn|]; split; [|split]].
  - intros j x2j y2j z2j w2 Hs dx dy dz dxy_sq dz_sq.
    assert (Hiff : passes j <->
              four_conditions f x1tmp y1tmp z1tmp rp_max_squaredtmp
                pi_max_squaredtmp w1 x2j y2j z2j w2).
    { split.
      - intros (a & b & c & d & Hs' & Hc).
        destruct Hs as (E1 & E2 & E3 & E4).
        destruct Hs' as (E1' & E2' & E3' & E4').
        rewrite E1 in E1'. rewrite E2 in E2'. rewrite E3 in E3'.
        rewrite E4 in E4'.
        injection E1' as <-. injection E2' as <-. injection E3' as <-.
        injection E4' as <-. exact Hc.
      - intros Hc. exists x2j, y2j, z2j, w2. split; assumption. }
    split; [exact Hiff|]. split.
    + intros Hfail Hp. apply Hn in Hfail. apply Hq in Hp. congruence.
    + intros Hnp. exists x2j, y2j, z2j, w2. split; [exact Hs|].
      intros Hc. apply Hnp, Hiff, Hc.
  - intros j x2j y2j z2j w2 Hs Hb.
    exists x2j, y2j, z2j, w2. split; [exact Hs|].
    unfold four_conditions. intros (H1 & H2 & _).
    destruct Hb as [Hb|Hb]; apply ltb_of_eqb in Hb; congruence.
  - intros j0 has_neighbor Hj0 Hpre Hj.
    assert (Hl : scan has_neighbor = view_set has_neighbor (ifirst1 + i) 1).
    { unfold scan.
      rewrite (scan_point_loop L ifirst1 ifirst2 i x2shift y2shift z2shift
                 x1i y1i z1i rp_max_squaredtmp pi_max_squaredtmp
                 Ex1 Ey1 Ez1 Erp Epi).
      rewrite (py_range_split Nj j0 Hj0).
      apply loop_j_break.
      - intros j' Hj'. apply py_range_In in Hj'. apply Hn, Hpre, Hj'.
      - apply Hq, Hj. }
    split; [exact Hl|]. intros Hr. split; [|split].
    + rewrite Hl. apply view_set_Ok. exact Hr.
    + unfold mark. apply list_set_nth_eq. lia.
    + intros q Hq'. unfold mark. apply list_set_nth_neq. congruence.
  - intros has_neighbor Hall. unfold scan.
    rewrite (scan_point_loop L ifirst1 ifirst2 i x2shift y2shift z2shift
               x1i y1i z1i rp_max_squaredtmp pi_max_squaredtmp
               Ex1 Ey1 Ez1 Erp Epi).
    apply loop_j_none. intros j' Hj'. apply py_range_In in Hj'.
    apply Hn, Hall, Hj'.
Qed.

Lemma pair_test_and_break_witness :
  qualifies (Example.L 1 trivial) trivial 0 (1 - 0) (1 - 0) (1 - 0)
    0.5625 0.25 [1%float] 0 /\
  scan_point (Example.L 1 trivial) 0 0 2 0 0 0 0 [0; 0] = Ok [1; 0].
Proof.
  assert (Hq : qualifies (Example.L 1 trivial) trivial 0 (1 - 0) (1 - 0)
                 (1 - 0) 0.5625 0.25 [1%float] 0).
  { exists 1.5%float, 1%float, 1%float, [1%float].
    split; repeat split; reflexivity. }
  split; [exact Hq|].
  destruct (pair_test_and_break (Example.L 1 trivial) trivial 0 0 2 0
              0 0 0 1 1 1 0.5625 0.25 [1%float]
              eq_refl eq_refl eq_refl eq_refl eq_refl eq_refl eq_refl)
    as (_ & _ & _ & _ & Hbreak & _).
  destruct (Hbreak 0 [0; 0]) as [_ Hmark];
    [lia | intros j Hj; lia | exact Hq |].
  destruct Hmark as [Hl _]; [simpl; lia | exact Hl].
Defined.

(** ** Result assembly on a valid invocation *)

Lemma has_neighbor_binary (P : Prop) (v : Z) :
  (v = 1 <-> P) -> (v = 0 <-> ~ P) -> v = 0 \/ v = 1.
Proof.
  intros H1 H0. destruct (Z.eq_dec v 1) as [E|E]; [right; exact E|].
  left. apply H0. intros HP. apply E, H1, HP.
Qed.

Lemma sorted_position (idx : list nat) (n k : nat) :
  Permutation idx (seq 0 n) -> (k < n)%nat ->
  exists p, (p < n)%nat /\ nth_error idx p = Some k.
Proof.
  intros HP Hk.
  destruct (Permutation_seq_bounds _ _ HP) as (Hlen & _ & Hin).
  apply Hin in Hk. apply In_nth_error in Hk. destruct Hk as [p Hp].
  exists p. split; [|exact Hp].
  rewrite <- Hlen. apply nth_error_Some. congruence.
Qed.

(** C2.  On a valid invocation the engine returns an array of length
    [len(x1in)] whose entries are 0 or 1, in the order of the caller: every
    original index [k] has one sorted position [p] (the permutation
    [idx_sorted] of the primary mesh), and the entry at [k] is 1 if and only
    if the scan left [has_neighbor[p]] at 0, and 0 if and only if the scan
    set it to 1. *)
Theorem result_unsorts_inverted_flags (build : cdef_raise)
    (double_mesh : DoubleMesh.t)
    (x1in y1in z1in x2in y2in z2in : list float)
    (weights1in weights2in : list (list float)) (weight_func_idin : Z)
    (rp_max pi_max : list float) (cell1_tuple : Z * Z) :
  valid_invocation double_mesh x1in y1in z1in x2in y2in z2in
    weights1in weights2in weight_func_idin rp_max pi_max cell1_tuple ->
  exists L has_neighbor r,
    engine_locals build double_mesh x1in y1in z1in x2in y2in z2in
      weights1in weights2in weight_func_idin rp_max pi_max cell1_tuple
    = Ok L /\
    scan_cells L (fst cell1_tuple) (snd cell1_tuple)
      (repeat 0 (length x1in)) = Ok has_neighbor /\
    marked_cylindrical_isolation_engine build double_mesh x1in y1in z1in
      x2in y2in z2in weights1in weights2in weight_func_idin rp_max pi_max
      cell1_tuple = Ok r /\
    length r = length x1in /\
    Forall (fun v => v = 0%float \/ v = 1%float) r /\
    (forall k, (k < length x1in)%nat ->
       exists p, (p < length x1in)%nat /\
         nth_error (Mesh.idx_sorted (DoubleMesh.mesh1 double_mesh)) p
           = Some k) /\
    (forall p k,
       nth_error (Mesh.idx_sorted (DoubleMesh.mesh1 double_mesh)) p = Some k ->
       (nth k r 0%float = 1%float <-> nth p has_neighbor 0 = 0) /\
       (nth k r 0%float = 0%float <-> nth p has_neighbor 0 = 1)).
Proof.
  intros Hv.
  destruct (engine_spec build _ _ _ _ _ _ _ _ _ _ _ _ _ Hv)
    as (L & hn & r & EL & _ & Es & Er & Hhn & Hrlen & Hbin & Hhit & Hr).
  pose proof (vi_idx1 _ _ _ _ _ _ _ _ _ _ _ _ _ Hv) as Hperm.
  destruct (Permutation_seq_bounds _ _ Hperm) as (Hlen & _ & _).
  exists L, hn, r. repeat (split; [assumption|]).
  split; [|split].
  - apply Forall_forall. intros v Hin.
    apply In_nth with (d := 0%float) in Hin. destruct Hin as [k [Hk <-]].
    apply Hbin. lia.
  - intros k Hk. eapply sorted_position; eassumption.
  - intros p k Hp. destruct (Hr p k Hp) as [Hz Hnz].
    assert (Hplt : (p < length x1in)%nat)
      by (rewrite <- Hlen; apply nth_error_Some; congruence).
    destruct (Hhit p Hplt) as [H1 H0].
    destruct (has_neighbor_binary _ _ H1 H0) as [E|E]; rewrite E.
    + rewrite (Hz E). split; split; intros H; try reflexivity;
        try discriminate;
        symmetry in H; destruct (float_zero_neq_one H).
    + rewrite Hnz by lia. split; split; intros H; try reflexivity;
        try discriminate; destruct (float_zero_neq_one H).
Qed.

(** ** The two small invocations are valid *)

Ltac offsets_ok_tac :=
  unfold offsets_ok; simpl; repeat split; try lia;
  let c := fresh "c" in
  let d := fresh "d" in
  let H := fresh "H" in
  intros c d H;
  do 5 (destruct c as [|c];
        [do 5 (destruct d as [|d]; [simpl in *; lia|]); simpl in *; lia|]);
  simpl in *; lia.

Ltac valid_invocation_tac :=
  constructor; simpl;
  lazymatch goal with
  | |- offsets_ok _ _ _ => offsets_ok_tac
  | |- exists s, int_ceil _ = Ok s /\ _ =>
      eexists; split; [vm_compute; reflexivity | simpl; lia]
  | |- exists width, _ => exists 1%nat; repeat constructor
  | |- Permutation _ _ => first [apply Permutation_refl | apply perm_swap]
  | |- _ => first [reflexivity | lia]
  end.

Lemma example_valid (PBCs weight_func_idin : Z) (cell1_tuple : Z * Z) :
  (0 <=? weight_func_idin) && (weight_func_idin <=? 6)
  && (- 2 ^ 31 <=? PBCs) && (PBCs <? 2 ^ 31)
  && (0 <=? fst cell1_tuple) && (fst cell1_tuple <=? 2)
  && (0 <=? snd cell1_tuple) && (snd cell1_tuple <=? 2) = true ->
  valid_invocation (Example.double_mesh PBCs)
    Example.x1in Example.y1in Example.z1in
    Example.x2in Example.y2in Example.z2in
    Example.weights1in Example.weights2in weight_func_idin
    Example.rp_max Example.pi_max cell1_tuple.
Proof.
  intros H. repeat (apply andb_prop in H; destruct H as [H ?]).
  repeat match goal with
         | H : (_ <=? _) = true |- _ => apply Z.leb_le in H
         | H : (_ <? _) = true |- _ => apply Z.ltb_lt in H
         end.
  valid_invocation_tac.
Defined.

Lemma uneven_valid :
  valid_invocation Uneven.double_mesh
    Uneven.x1in Uneven.y1in Uneven.z1in
    Uneven.x2in Uneven.y2in Uneven.z2in
    Uneven.weights1in Uneven.weights2in 0
    Uneven.rp_max Uneven.pi_max (0, 2).
Proof.
  valid_invocation_tac.
Defined.

Lemma result_unsorts_inverted_flags_witness :
  exists r,
    Example.engine Propagated 1 0 (0, 2) = Ok r /\ length r = 2%nat /\
    Forall (fun v => v = 0%float \/ v = 1%float) r.
Proof.
  destruct (result_unsorts_inverted_flags Propagated (Example.double_mesh 1)
              Example.x1in Example.y1in Example.z1in
              Example.x2in Example.y2in Example.z2in
              Example.weights1in Example.weights2in 0
              Example.rp_max Example.pi_max (0, 2)
              (example_valid 1 0 (0, 2) eq_refl))
    as (L & hn & r & _ & _ & Er & Hlen & Hbin & _).
  exists r. split; [exact Er|]. split; [exact Hlen | exact Hbin].
Defined.

(** ** Points outside the work range *)

Lemma hit_cell1_in_cell (L : locals) (icell1 p : Z) :
  hit_cell1 L icell1 p ->
  exists ifirst1 ilast1,
    view_get (cell1_indices L) icell1 = Ok ifirst1 /\
    view_get (cell1_indices L) (icell1 + 1) = Ok ilast1 /\
    ifirst1 <= p < ilast1.
Proof.
  intros (ifirst1 & ilast1 & rx & ry & rz & H). cbv zeta in H.
  destruct H as (E & E' & _ & _ & _ & Hh).
  destruct Hh as (ifirst2 & ilast2 & i & _ & _ & Hi & Hp).
  destruct Hp as (? & ? & ? & ? & ? & j & _ & _ & _ & _ & _ & -> & _).
  exists ifirst1, ilast1. repeat split; try assumption; lia.
Qed.

Lemma view_get_nth (v : list Z) (i a : Z) :
  view_get v i = Ok a ->
  0 <= i < Z.of_nat (length v) /\ nth (Z.to_nat i) v 0 = a.
Proof.
  intros H. apply view_get_inv in H. destruct H as [Hi Hn].
  split; [exact Hi|]. apply nth_error_nth. exact Hn.
Qed.

Lemma no_hit_outside_range (L : locals) (ncells : Z) (npts : nat)
    (first_cell1_element last_cell1_element c p : Z) :
  offsets_ok (cell1_indices L) ncells npts ->
  0 <= c < ncells ->
  nth (Z.to_nat c) (cell1_indices L) 0 <= p
    < nth (Z.to_nat (c + 1)) (cell1_indices L) 0 ->
  c < first_cell1_element \/ last_cell1_element <= c ->
  ~ hit_cells L first_cell1_element last_cell1_element p.
Proof.
  intros (Hlen & _ & _ & Hmono) Hc Hp Hout (icell1 & Hr & Hh).
  apply hit_cell1_in_cell in Hh.
  destruct Hh as (ifirst1 & ilast1 & E & E' & Hin).
  apply view_get_nth in E. apply view_get_nth in E'.
  destruct E as [Hi <-]. destruct E' as [Hi' <-].
  destruct (Z.lt_ge_cases c icell1) as [Hlt|Hge].
  - pose proof (Hmono (Z.to_nat (c + 1)) (Z.to_nat icell1)). lia.
  - assert (icell1 + 1 <= c) by lia.
    pose proof (Hmono (Z.to_nat (icell1 + 1)) (Z.to_nat c)). lia.
Qed.

(** C10.  On a valid invocation every primary point whose cell lies outside
    the work range [[first, last)] is returned as 1 (isolated): the point at
    sorted position [p], original index [k], in the cell [c] of the offset
    table, with [c < first] or [last <= c].  An empty work range returns the
    array of ones. *)
Theorem outside_work_range_isolated (build : cdef_raise)
    (double_mesh : DoubleMesh.t)
    (x1in y1in z1in x2in y2in z2in : list float)
    (weights1in weights2in : list (list float)) (weight_func_idin : Z)
    (rp_max pi_max : list float) (cell1_tuple : Z * Z) :
  valid_invocation double_mesh x1in y1in z1in x2in y2in z2in
    weights1in weights2in weight_func_idin rp_max pi_max cell1_tuple ->
  let mesh1 := DoubleMesh.mesh1 double_mesh in
  exists r,
    marked_cylindrical_isolation_engine build double_mesh x1in y1in z1in
      x2in y2in z2in weights1in weights2in weight_func_idin rp_max pi_max
      cell1_tuple = Ok r /\
    (forall (p k : nat) (c : Z),
       nth_error (Mesh.idx_sorted mesh1) p = Some k ->
       0 <= c < Mesh.ncells mesh1 ->
       nth (Z.to_nat c) (Mesh.cell_id_indices mesh1) 0 <= Z.of_nat p
         < nth (Z.to_nat (c + 1)) (Mesh.cell_id_indices mesh1) 0 ->
       c < fst cell1_tuple \/ snd cell1_tuple <= c ->
       nth k r 0%float = 1%float) /\
    (snd cell1_tuple <= fst cell1_tuple ->
     r = repeat 1%float (length x1in)).
Proof.
  intros Hv mesh1. subst mesh1.
  destruct (engine_spec build _ _ _ _ _ _ _ _ _ _ _ _ _ Hv)
    as (L & hn & r & EL & _ & Es & Er & Hhn & Hrlen & Hbin & Hhit & Hr).
  pose proof (vi_idx1 _ _ _ _ _ _ _ _ _ _ _ _ _ Hv) as Hperm.
  destruct (Permutation_seq_bounds _ _ Hperm) as (Hlen & _ & _).
  pose proof (vi_cells1 _ _ _ _ _ _ _ _ _ _ _ _ _ Hv) as Hoff.
  pose proof (lo_cell1 _ _ _ _ _ _ _ _ _ _ _ _ _ _
                (engine_locals_inv _ _ _ _ _ _ _ _ _ _ _ _ _ _ _ EL)) as Hc1.
  exists r. split; [exact Er|]. split.
  - intros p k c Hp Hc Hin Hout.
    assert (Hplt : (p < length x1in)%nat)
      by (rewrite <- Hlen; apply nth_error_Some; congruence).
    apply (Hr p k Hp). apply (Hhit p Hplt).
    rewrite <- Hc1 in Hoff, Hin.
    eapply no_hit_outside_range; eassumption.
  - intros Hempty.
    apply nth_ext with (d := 0%float) (d' := 1%float);
      [rewrite repeat_length; exact Hrlen|].
    intros k Hk. rewrite Hrlen in Hk. rewrite nth_repeat.
    destruct (sorted_position _ _ k Hperm Hk) as (p & Hplt & Hp).
    apply (Hr p k Hp). apply (Hhit p Hplt).
    intros (icell1 & Hrange & _). lia.
Qed.

Lemma outside_work_range_isolated_witness :
  exists r,
    Example.engine Propagated 1 0 (0, 1) = Ok r /\ nth 0 r 0%float = 1%float.
Proof.
  destruct (outside_work_range_isolated Propagated (Example.double_mesh 1)
              Example.x1in Example.y1in Example.z1in
              Example.x2in Example.y2in Example.z2in
              Example.weights1in Example.weights2in 0
              Example.rp_max Example.pi_max (0, 1)
              (example_valid 1 0 (0, 1) eq_refl))
    as (r & Er & Hout & _).
  exists r. split; [exact Er|].
  apply (Hout 1%nat 0%nat 1); simpl; [reflexivity | lia | lia | lia].
Defined.

(** ** Splitting the work range *)

Lemma valid_invocation_range (double_mesh : DoubleMesh.t)
    (x1in y1in z1in x2in y2in z2in : list float)
    (weights1in weights2in : list (list float)) (weight_func_idin : Z)
    (rp_max pi_max : list float) (cell1_tuple cell1_tuple' : Z * Z) :
  valid_invocation double_mesh x1in y1in z1in x2in y2in z2in
    weights1in weights2in weight_func_idin rp_max pi_max cell1_tuple ->
  0 <= fst cell1_tuple' < 2 ^ 63 ->
  - 2 ^ 63 <= snd cell1_tuple' <= Mesh.ncells (DoubleMesh.mesh1 double_mesh) ->
  valid_invocation double_mesh x1in y1in z1in x2in y2in z2in
    weights1in weights2in weight_func_idin rp_max pi_max cell1_tuple'.
Proof.
  intros Hv H0 H1. destruct Hv. constructor; auto.
Qed.

Lemma nth_map_combine {A B C : Type} (f : A * B -> C) (a : list A)
    (b : list B) (k : nat) (da : A) (db : B) (dc : C) :
  length a = length b -> (k < length a)%nat ->
  nth k (map f (combine a b)) dc = f (nth k a da, nth k b db).
Proof.
  intros Hlen Hk.
  rewrite (nth_indep _ dc (f (da, db)))
    by (rewrite length_map, length_combine; lia).
  rewrite map_nth, combine_nth by exact Hlen. reflexivity.
Qed.

Lemma hit_cells_split (L : locals) (first_cell1_element m last_cell1_element p : Z) :
  first_cell1_element <= m <= last_cell1_element ->
  hit_cells L first_cell1_element last_cell1_element p <->
  hit_cells L first_cell1_element m p \/ hit_cells L m last_cell1_element p.
Proof.
  intros Hm. unfold hit_cells. split.
  - intros (c & Hc & Hh). destruct (Z.lt_ge_cases c m);
      [left | right]; exists c; split; auto; lia.
  - intros [(c & Hc & Hh)|(c & Hc & Hh)]; exists c; split; auto; lia.
Qed.

(** C8.  Work-range partition consistency: on a valid invocation with work
    range [[first, last)] and any split point [first <= m <= last], the
    engine returns on [[first, m)], on [[m, last)] and on [[first, last)];
    the has-neighbour array of the full range is the element-wise logical OR
    of those of the two parts, and the returned array of the full range is
    the element-wise logical AND of the two returned arrays. *)
Theorem work_range_partition (build : cdef_raise)
    (double_mesh : DoubleMesh.t)
    (x1in y1in z1in x2in y2in z2in : list float)
    (weights1in weights2in : list (list float)) (weight_func_idin : Z)
    (rp_max pi_max : list float)
    (first_cell1_element m last_cell1_element : Z) :
  valid_invocation double_mesh x1in y1in z1in x2in y2in z2in
    weights1in weights2in weight_func_idin rp_max pi_max
    (first_cell1_element, last_cell1_element) ->
  first_cell1_element <= m <= last_cell1_element ->
  let engine :=
    marked_cylindrical_isolation_engine build double_mesh x1in y1in z1in
      x2in y2in z2in weights1in weights2in weight_func_idin rp_max pi_max in
  exists L h h1 h2 r r1 r2,
    engine_locals build double_mesh x1in y1in z1in x2in y2in z2in
      weights1in weights2in weight_func_idin rp_max pi_max
      (first_cell1_element, last_cell1_element) = Ok L /\
    scan_cells L first_cell1_element last_cell1_element
      (repeat 0 (length x1in)) = Ok h /\
    scan_cells L first_cell1_element m (repeat 0 (length x1in)) = Ok h1 /\
    scan_cells L m last_cell1_element (repeat 0 (length x1in)) = Ok h2 /\
    engine (first_cell1_element, last_cell1_element) = Ok r /\
    engine (first_cell1_element, m) = Ok r1 /\
    engine (m, last_cell1_element) = Ok r2 /\
    h = logical_or h1 h2 /\
    r = logical_and r1 r2.
Proof.
  intros Hv Hm engine. subst engine.
  pose proof (vi_range _ _ _ _ _ _ _ _ _ _ _ _ _ Hv) as [Hr0 Hr1].
  simpl in Hr0, Hr1.
  pose proof (vi_ncells1_int _ _ _ _ _ _ _ _ _ _ _ _ _ Hv) as Hnc.
  assert (Hv1 := valid_invocation_range _ _ _ _ _ _ _ _ _ _ _ _ _
                   (first_cell1_element, m) Hv Hr0 ltac:(simpl; lia)).
  assert (Hv2 := valid_invocation_range _ _ _ _ _ _ _ _ _ _ _ _ _
                   (m, last_cell1_element) Hv ltac:(simpl; lia) Hr1).
  destruct (engine_spec build _ _ _ _ _ _ _ _ _ _ _ _ _ Hv)
    as (L & h & r & EL & _ & Es & Er & Hh & Hrl & Hbin & Hhit & Hr).
  destruct (engine_spec build _ _ _ _ _ _ _ _ _ _ _ _ _ Hv1)
    as (L1 & h1 & r1 & EL1 & _ & Es1 & Er1 & Hh1 & Hrl1 & Hbin1 & Hhit1 & Hr1').
  destruct (engine_spec build _ _ _ _ _ _ _ _ _ _ _ _ _ Hv2)
    as (L2 & h2 & r2 & EL2 & _ & Es2 & Er2 & Hh2 & Hrl2 & Hbin2 & Hhit2 & Hr2).
  rewrite (engine_locals_work_range _ _ _ _ _ _ _ _ _ _ _ _ _ _
             (first_cell1_element, m) _ EL) in EL1 by (simpl; lia).
  rewrite (engine_locals_work_range _ _ _ _ _ _ _ _ _ _ _ _ _ _
             (m, last_cell1_element) _ EL) in EL2 by (simpl; lia).
  injection EL1 as <-. injection EL2 as <-.
  simpl fst in *. simpl snd in *.
  change (scan_cells (with_work_range L first_cell1_element m))
    with (scan_cells L) in Es1.
  change (scan_cells (with_work_range L m last_cell1_element))
    with (scan_cells L) in Es2.
  change (hit_cells (with_work_range L first_cell1_element m))
    with (hit_cells L) in Hhit1.
  change (hit_cells (with_work_range L m last_cell1_element))
    with (hit_cells L) in Hhit2.
  pose proof (vi_idx1 _ _ _ _ _ _ _ _ _ _ _ _ _ Hv) as Hperm.
  assert (Hcase : forall p, (p < length x1in)%nat ->
            (nth p h1 0 = 0 /\ nth p h2 0 = 0 /\ nth p h 0 = 0) \/
            ((nth p h1 0 = 1 \/ nth p h2 0 = 1) /\
             (nth p h1 0 = 0 \/ nth p h1 0 = 1) /\
             (nth p h2 0 = 0 \/ nth p h2 0 = 1) /\ nth p h 0 = 1)).
  { intros p Hp.
    destruct (Hhit p Hp) as [A1 A0]. destruct (Hhit1 p Hp) as [B1 B0].
    destruct (Hhit2 p Hp) as [C1 C0].
    pose proof (hit_cells_split L _ _ _ (Z.of_nat p) Hm) as Hs.
    destruct (has_neighbor_binary _ _ B1 B0) as [E1|E1];
      destruct (has_neighbor_binary _ _ C1 C0) as [E2|E2].
    - left. repeat split; try assumption. apply A0. rewrite Hs.
      apply B0 in E1. apply C0 in E2. tauto.
    - right. repeat split; auto. apply A1, Hs. right. apply C1, E2.
    - right. repeat split; auto. apply A1, Hs. left. apply B1, E1.
    - right. repeat split; auto. apply A1, Hs. left. apply B1, E1. }
  exists L, h, h1, h2, r, r1, r2. repeat (split; [assumption|]). split.
  - apply nth_ext with (d := 0) (d' := 0).
    + unfold logical_or. rewrite length_map, length_combine. lia.
    + intros p Hp. rewrite Hh in Hp. unfold logical_or.
      rewrite (nth_map_combine _ h1 h2 p 0 0) by lia. simpl.
      destruct (Hcase p Hp) as [(E1 & E2 & E)|(Hor & B1 & B2 & E)];
        rewrite E.
      * rewrite E1, E2. reflexivity.
      * destruct B1 as [E1|E1], B2 as [E2|E2]; rewrite E1, E2;
          try reflexivity. destruct Hor; congruence.
  - apply nth_ext with (d := 0%float) (d' := 0%float).
    + unfold logical_and. rewrite length_map, length_combine. lia.
    + intros k Hk. rewrite Hrl in Hk. unfold logical_and.
      rewrite (nth_map_combine _ r1 r2 k 0%float 0%float) by lia. simpl.
      destruct (sorted_position _ _ k Hperm Hk) as (p & Hp & Hidx).
      destruct (Hr p k Hidx) as [Rz Rnz].
      destruct (Hr1' p k Hidx) as [R1z R1nz].
      destruct (Hr2 p k Hidx) as [R2z R2nz].
      destruct (Hcase p Hp) as [(E1 & E2 & E)|(Hor & B1 & B2 & E)].
      * rewrite (Rz E), (R1z E1), (R2z E2). reflexivity.
      * rewrite Rnz by lia.
        destruct B1 as [E1|E1], B2 as [E2|E2];
          try (destruct Hor; congruence).
        -- rewrite (R1z E1), R2nz by lia. reflexivity.
        -- rewrite R1nz, (R2z E2) by lia. reflexivity.
        -- rewrite R1nz, R2nz by lia. reflexivity.
Qed.

Lemma work_range_partition_witness :
  exists r r1 r2,
    Example.engine Propagated 1 0 (0, 2) = Ok r /\
    Example.engine Propagated 1 0 (0, 1) = Ok r1 /\
    Example.engine Propagated 1 0 (1, 2) = Ok r2 /\
    r = logical_and r1 r2.
Proof.
  destruct (work_range_partition Propagated (Example.double_mesh 1)
              Example.x1in Example.y1in Example.z1in
              Example.x2in Example.y2in Example.z2in
              Example.weights1in Example.weights2in 0
              Example.rp_max Example.pi_max 0 1 2
              (example_valid 1 0 (0, 2) eq_refl)
              (conj (Zle_bool_imp_le 0 1 eq_refl)
                 (Zle_bool_imp_le 1 2 eq_refl)))
    as (L & h & h1 & h2 & r & r1 & r2 & _ & _ & _ & _ & Er & Er1 & Er2 & _ & Hand).
  exists r, r1, r2. repeat split; assumption.
Defined.

(** ** Periodic boundaries switched off *)

Lemma axis_shift_flag_zero (L : locals) (period : float) (num_2divs raw : Z) :
  PBCs L = 0 -> zero_or_nan (axis_shift L period num_2divs raw).
Proof.
  intros H0. unfold axis_shift. rewrite H0.
  destruct (raw <? 0); [apply mul_zero_flag|].
  destruct (raw >=? num_2divs); [apply mul_zero_flag|].
  left. exists false. reflexivity.
Qed.

Lemma is_neighbor_unshift (x1i y1i z1i sx sy sz x2j y2j z2j rp pi w : float) :
  zero_or_nan sx -> zero_or_nan sy -> zero_or_nan sz ->
  is_neighbor
    ((x1i - sx - x2j) * (x1i - sx - x2j)
     + (y1i - sy - y2j) * (y1i - sy - y2j))%float
    ((z1i - sz - z2j) * (z1i - sz - z2j))%float rp pi w = true ->
  is_neighbor
    ((x1i - x2j) * (x1i - x2j) + (y1i - y2j) * (y1i - y2j))%float
    ((z1i - z2j) * (z1i - z2j))%float rp pi w = true.
Proof.
  intros [[bx Hx]|Hx] [[by' Hy]|Hy] [[bz Hz]|Hz] H;
    try (rewrite (sq_zero_shift sx x1i x2j bx Hx),
           (sq_zero_shift sy y1i y2j by' Hy),
           (sq_zero_shift sz z1i z2j bz Hz) in H; exact H);
    exfalso; unfold is_neighbor in H;
    apply andb_true_iff in H; destruct H as [H _];
    apply andb_true_iff in H; destruct H as [H _];
    apply andb_true_iff in H; destruct H as [Hxy Hzz].
  - rewrite ltb_nan_l in Hzz; [discriminate | apply sq_nan_shift, Hz].
  - rewrite ltb_nan_l in Hxy;
      [discriminate | apply add_nan_r, sq_nan_shift, Hy].
  - rewrite ltb_nan_l in Hxy;
      [discriminate | apply add_nan_r, sq_nan_shift, Hy].
  - rewrite ltb_nan_l in Hxy;
      [discriminate | apply add_nan_l, sq_nan_shift, Hx].
  - rewrite ltb_nan_l in Hxy;
      [discriminate | apply add_nan_l, sq_nan_shift, Hx].
  - rewrite ltb_nan_l in Hxy;
      [discriminate | apply add_nan_l, sq_nan_shift, Hx].
  - rewrite ltb_nan_l in Hxy;
      [discriminate | apply add_nan_l, sq_nan_shift, Hx].
Qed.

(** A pair that the scan counted, read off the sorted arrays. *)
Lemma hit_cells_pair (L : locals) (first_cell1_element last_cell1_element p : Z) :
  hit_cells L first_cell1_element last_cell1_element p ->
  exists f q sx sy sz x1i y1i z1i rp pi w1 x2j y2j z2j w2,
    wfunc L = Some f /\
    (PBCs L = 0 -> zero_or_nan sx /\ zero_or_nan sy /\ zero_or_nan sz) /\
    view_get (x1 L) p = Ok x1i /\
    view_get (y1 L) p = Ok y1i /\
    view_get (z1 L) p = Ok z1i /\
    view_get (rp_max_squared L) p = Ok rp /\
    view_get (pi_max_squared L) p = Ok pi /\
    view_get (weights1 L) p = Ok w1 /\
    view_get (x2 L) q = Ok x2j /\
    view_get (y2 L) q = Ok y2j /\
    view_get (z2 L) q = Ok z2j /\
    view_get (weights2 L) q = Ok w2 /\
    is_neighbor
      ((x1i - sx - x2j) * (x1i - sx - x2j)
       + (y1i - sy - y2j) * (y1i - sy - y2j))%float
      ((z1i - sz - z2j) * (z1i - sz - z2j))%float rp pi
      (of_bint (f w1 w2)) = true.
Proof.
  intros (icell1 & _ & ifirst1 & ilast1 & rx & ry & rz & H). cbv zeta in H.
  destruct H as (_ & _ & _ & _ & _ & Hh).
  destruct Hh as (ifirst2 & ilast2 & i & _ & _ & _ & Hp).
  destruct Hp as (x1i & y1i & z1i & rp & pi & j & Ex & Ey & Ez & Erp & Epi
                  & -> & _ & Hc).
  apply pair_counts_inv in Hc.
  destruct Hc as (f & x2j & y2j & z2j & w1 & w2 & Ef & Ex2 & Ey2 & Ez2 & Ew1
                  & Ew2 & Hc).
  exists f, (ifirst2 + j).
  exists (axis_shift L (xperiod L) (num_x2divs L) rx),
    (axis_shift L (yperiod L) (num_y2divs L) ry),
    (axis_shift L (zperiod L) (num_z2divs L) rz).
  exists x1i, y1i, z1i, rp, pi, w1, x2j, y2j, z2j, w2.
  split; [exact Ef|].
  split; [intros H0; repeat split; apply axis_shift_flag_zero, H0|].
  repeat (split; [assumption|]). symmetry. exact Hc.
Qed.

Lemma gathered_get {A : Type} (a : list A) (idx : list nat) (r : list A)
    (p : Z) (v : A) :
  gathered a idx r -> view_get r p = Ok v ->
  exists k, nth_error idx (Z.to_nat p) = Some k /\ nth_error a k = Some v.
Proof.
  intros [Hlen Hg] Hv. apply view_get_inv in Hv. destruct Hv as [Hp Hn].
  destruct (nth_error idx (Z.to_nat p)) as [k|] eqn:E.
  - exists k. split; [reflexivity|]. rewrite <- (Hg _ _ E). exact Hn.
  - apply nth_error_None in E. lia.
Qed.

(** C9.  With the periodicity flag 0, the cells looked up modulo the
    division count bring no match across the box: on a valid invocation,
    every primary point returned as 0 (has a neighbour) has a secondary point
    whose plain, unshifted squared distances pass the two strict tests,
    whose weights pass the predicate, and which lies at a nonzero
    distance. *)
Theorem no_spurious_match_without_PBCs (build : cdef_raise)
    (double_mesh : DoubleMesh.t)
    (x1in y1in z1in x2in y2in z2in : list float)
    (weights1in weights2in : list (list float)) (weight_func_idin : Z)
    (rp_max pi_max : list float) (cell1_tuple : Z * Z) :
  valid_invocation double_mesh x1in y1in z1in x2in y2in z2in
    weights1in weights2in weight_func_idin rp_max pi_max cell1_tuple ->
  DoubleMesh._PBCs double_mesh = 0 ->
  exists f r,
    return_conditional_function weight_func_idin = Ok f /\
    marked_cylindrical_isolation_engine build double_mesh x1in y1in z1in
      x2in y2in z2in weights1in weights2in weight_func_idin rp_max pi_max
      cell1_tuple = Ok r /\
    forall k, (k < length x1in)%nat -> nth k r 0%float = 0%float ->
      exists k2 x1k y1k z1k rpk pik w1k x2k y2k z2k w2k,
        nth_error x1in k = Some x1k /\
        nth_error y1in k = Some y1k /\
        nth_error z1in k = Some z1k /\
        nth_error rp_max k = Some rpk /\
        nth_error pi_max k = Some pik /\
        nth_error weights1in k = Some w1k /\
        nth_error x2in k2 = Some x2k /\
        nth_error y2in k2 = Some y2k /\
        nth_error z2in k2 = Some z2k /\
        nth_error weights2in k2 = Some w2k /\
        plain_neighbor f x1k y1k z1k rpk pik w1k x2k y2k z2k w2k.
Proof.
  intros Hv Hflag.
  destruct (engine_spec build _ _ _ _ _ _ _ _ _ _ _ _ _ Hv)
    as (L & hn & r & EL & _ & Es & Er & Hhn & Hrlen & Hbin & Hhit & Hr).
  pose proof (engine_locals_inv _ _ _ _ _ _ _ _ _ _ _ _ _ _ _ EL) as HLo.
  pose proof (vi_idx1 _ _ _ _ _ _ _ _ _ _ _ _ _ Hv) as Hperm.
  destruct (return_conditional_function_Ok _
              (vi_code _ _ _ _ _ _ _ _ _ _ _ _ _ Hv)) as [f Ef].
  pose proof (lo_wfunc _ _ _ _ _ _ _ _ _ _ _ _ _ _ HLo) as Hwf.
  rewrite Ef in Hwf.
  exists f, r. split; [exact Ef|].
  split; [exact Er|].
  intros k Hk Hrk.
  destruct (sorted_position _ _ k Hperm Hk) as (p & Hp & Hidx).
  destruct (Hr p k Hidx) as [Rz Rnz]. destruct (Hhit p Hp) as [H1 H0].
  assert (Hh : hit_cells L (fst cell1_tuple) (snd cell1_tuple) (Z.of_nat p)).
  { destruct (has_neighbor_binary _ _ H1 H0) as [E|E]; [|apply H1, E].
    rewrite (Rz E) in Hrk. symmetry in Hrk.
    destruct (float_zero_neq_one Hrk). }
  apply hit_cells_pair in Hh.
  destruct Hh as (f' & q & sx & sy & sz & x1i & y1i & z1i & rp & pi & w1 & x2j
                  & y2j & z2j & w2 & Ef' & Hsh & Ex1 & Ey1 & Ez1 & Erp & Epi
                  & Ew1 & Ex2 & Ey2 & Ez2 & Ew2 & Hn).
  rewrite Hwf in Ef'. injection Ef' as <-.
  destruct Hsh as (Hsx & Hsy & Hsz);
    [rewrite (lo_PBCs _ _ _ _ _ _ _ _ _ _ _ _ _ _ HLo); exact Hflag|].
  apply is_neighbor_unshift in Hn; try assumption.
  apply is_neighbor_true in Hn. destruct Hn as (Hxy & Hz & Hw & Hpos).
  destruct (gathered_get _ _ _ _ _ (lo_x1 _ _ _ _ _ _ _ _ _ _ _ _ _ _ HLo) Ex1)
    as (k' & Hk' & Gx1).
  rewrite Nat2Z.id, Hidx in Hk'. injection Hk' as <-.
  destruct (gathered_get _ _ _ _ _ (lo_y1 _ _ _ _ _ _ _ _ _ _ _ _ _ _ HLo) Ey1)
    as (k' & Hk' & Gy1).
  rewrite Nat2Z.id, Hidx in Hk'. injection Hk' as <-.
  destruct (gathered_get _ _ _ _ _ (lo_z1 _ _ _ _ _ _ _ _ _ _ _ _ _ _ HLo) Ez1)
    as (k' & Hk' & Gz1).
  rewrite Nat2Z.id, Hidx in Hk'. injection Hk' as <-.
  destruct (gathered_get _ _ _ _ _ (lo_w1 _ _ _ _ _ _ _ _ _ _ _ _ _ _ HLo) Ew1)
    as (k' & Hk' & Gw1).
  rewrite Nat2Z.id, Hidx in Hk'. injection Hk' as <-.
  destruct (gathered_get _ _ _ _ _ (lo_rp _ _ _ _ _ _ _ _ _ _ _ _ _ _ HLo) Erp)
    as (k' & Hk' & Grp).
  rewrite Nat2Z.id, Hidx in Hk'. injection Hk' as <-.
  destruct (gathered_get _ _ _ _ _ (lo_pi _ _ _ _ _ _ _ _ _ _ _ _ _ _ HLo) Epi)
    as (k' & Hk' & Gpi).
  rewrite Nat2Z.id, Hidx in Hk'. injection Hk' as <-.
  rewrite nth_error_map in Grp, Gpi.
  destruct (nth_error rp_max k) as [rpk|] eqn:Erpk; [|discriminate].
  destruct (nth_error pi_max k) as [pik|] eqn:Epik; [|discriminate].
  simpl in Grp, Gpi. injection Grp as <-. injection Gpi as <-.
  destruct (gathered_get _ _ _ _ _ (lo_x2 _ _ _ _ _ _ _ _ _ _ _ _ _ _ HLo) Ex2)
    as (k2 & Hk2 & Gx2).
  destruct (gathered_get _ _ _ _ _ (lo_y2 _ _ _ _ _ _ _ _ _ _ _ _ _ _ HLo) Ey2)
    as (k' & Hk' & Gy2).
  rewrite Hk2 in Hk'. injection Hk' as <-.
  destruct (gathered_get _ _ _ _ _ (lo_z2 _ _ _ _ _ _ _ _ _ _ _ _ _ _ HLo) Ez2)
    as (k' & Hk' & Gz2).
  rewrite Hk2 in Hk'. injection Hk' as <-.
  destruct (gathered_get _ _ _ _ _ (lo_w2 _ _ _ _ _ _ _ _ _ _ _ _ _ _ HLo) Ew2)
    as (k' & Hk' & Gw2).
  rewrite Hk2 in Hk'. injection Hk' as <-.
  exists k2, x1i, y1i, z1i, rpk, pik, w1, x2j, y2j, z2j, w2.
  repeat (split; [first [assumption | reflexivity]|]).
  unfold plain_neighbor. cbv zeta. repeat split; assumption.
Qed.

Lemma no_spurious_match_without_PBCs_witness :
  exists k2 x2k y2k z2k w2k,
    nth_error Example.x2in k2 = Some x2k /\
    nth_error Example.y2in k2 = Some y2k /\
    nth_error Example.z2in k2 = Some z2k /\
    nth_error Example.weights2in k2 = Some w2k /\
    plain_neighbor trivial 1 1 1 0.75 0.5 [1%float] x2k y2k z2k w2k.
Proof.
  destruct (no_spurious_match_without_PBCs Propagated (Example.double_mesh 0)
              Example.x1in Example.y1in Example.z1in
              Example.x2in Example.y2in Example.z2in
              Example.weights1in Example.weights2in 0
              Example.rp_max Example.pi_max (0, 2)
              (example_valid 0 0 (0, 2) eq_refl)
              eq_refl)
    as (f & r & Ef & Er & Hk).
  injection Ef as <-.
  assert (E : Example.engine Propagated 0 0 (0, 2) = Ok [1; 0]%float)
    by (vm_compute; reflexivity).
  unfold Example.engine in E. rewrite E in Er. injection Er as <-.
  destruct (Hk 1%nat (Nat.lt_succ_diag_r 1) eq_refl)
    as (k2 & x1k & y1k & z1k & rpk & pik & w1k & x2k & y2k & z2k & w2k
        & E1 & E2 & E3 & E4 & E5 & E6 & E7 & E8 & E9 & E10 & Hpn).
  injection E1 as <-. injection E2 as <-. injection E3 as <-.
  injection E4 as <-. injection E5 as <-. injection E6 as <-.
  exists k2, x2k, y2k, z2k, w2k. repeat (split; [assumption|]). exact Hpn.
Defined.

(** ** The predicate *)

Lemma return_conditional_function_unknown (cond_func_id : Z) :
  ~ (0 <= cond_func_id <= 6) ->
  return_conditional_function cond_func_id = Err ValueError.
Proof.
  intros Hc. unfold return_conditional_function.
  repeat match goal with
         | |- context [?a =? ?b] => destruct (Z.eqb_spec a b); [lia|]
         end.
  reflexivity.
Qed.




(** C4.  For every predicate code in [0..6] the function selected by
    [return_conditional_function] computes the tabulated condition on the
    first weight components (0 always true, 1 [>], 2 [<], 3 [==], 4 [!=],
    5 [>=], 6 [<=]); it is the [wfunc] of the engine, and the test of a pair
    applies it to the weight vectors of the two points of that pair. *)
Theorem predicate_table (cond_func_id : Z) :
  0 <= cond_func_id <= 6 ->
  exists f,
    return_conditional_function cond_func_id = Ok f /\
    (forall w1 w2,
       f w1 w2 = tabulated_condition cond_func_id (w0 w1) (w0 w2)) /\
    (forall a b rest1 rest2,
       f (a :: rest1) (b :: rest2) = tabulated_condition cond_func_id a b) /\
    (forall build double_mesh x1in y1in z1in x2in y2in z2in
            weights1in weights2in rp_max pi_max cell1_tuple L,
       engine_locals build double_mesh x1in y1in z1in x2in y2in z2in
         weights1in weights2in cond_func_id rp_max pi_max cell1_tuple
       = Ok L ->
       wfunc L = Some f) /\
    (forall L ifirst1 i ifirst2 j x1tmp y1tmp z1tmp rp pi x2j y2j z2j w1 w2,
       wfunc L = Some f ->
       view_get (x2 L) (ifirst2 + j) = Ok x2j ->
       view_get (y2 L) (ifirst2 + j) = Ok y2j ->
       view_get (z2 L) (ifirst2 + j) = Ok z2j ->
       view_get (weights1 L) (ifirst1 + i) = Ok w1 ->
       view_get (weights2 L) (ifirst2 + j) = Ok w2 ->
       pair_counts L ifirst1 i ifirst2 j x1tmp y1tmp z1tmp rp pi =
         Ok (is_neighbor
               ((x1tmp - x2j) * (x1tmp - x2j)
                + (y1tmp - y2j) * (y1tmp - y2j))%float
               ((z1tmp - z2j) * (z1tmp - z2j))%float rp pi
               (of_bint (tabulated_condition cond_func_id (w0 w1) (w0 w2))))).
Proof.
  intros H.
  assert (cond_func_id = 0 \/ cond_func_id = 1 \/ cond_func_id = 2 \/
          cond_func_id = 3 \/ cond_func_id = 4 \/ cond_func_id = 5 \/
          cond_func_id = 6) as Hc by lia.
  assert (Hf : exists f, return_conditional_function cond_func_id = Ok f /\
             forall w1 w2,
               f w1 w2 = tabulated_condition cond_func_id (w0 w1) (w0 w2)).
  { repeat (destruct Hc as [->|Hc]); try subst cond_func_id;
      eexists; split; try reflexivity; intros; reflexivity. }
  destruct Hf as (f & Ef & Htab). exists f.
  split; [exact Ef|]. split; [exact Htab|]. split; [|split].
  - intros a b rest1 rest2. apply Htab.
  - intros build double_mesh x1in y1in z1in x2in y2in z2in
      weights1in weights2in rp_max pi_max cell1_tuple L EL.
    pose proof (lo_wfunc _ _ _ _ _ _ _ _ _ _ _ _ _ _
                  (engine_locals_inv _ _ _ _ _ _ _ _ _ _ _ _ _ _ _ EL)) as Hw.
    rewrite Ef in Hw. exact Hw.
  - intros L ifirst1 i ifirst2 j x1tmp y1tmp z1tmp rp pi x2j y2j z2j w1 w2
      Hw Ex Ey Ez Ew1 Ew2.
    rewrite <- Htab. apply pair_counts_eq; assumption.
Qed.

Lemma predicate_table_witness :
  exists f,
    return_conditional_function 1 = Ok f /\
    f [2%float] [1%float] = true /\ f [1%float] [1%float] = false.
Proof.
  destruct (predicate_table 1
              (conj (Zle_bool_imp_le 0 1 eq_refl) (Zle_bool_imp_le 1 6 eq_refl)))
    as (f & Ef & _ & Htab & _).
  exists f. split; [exact Ef|].
  split; rewrite Htab; reflexivity.
Defined.

(** ** Division counts that are no multiples *)

(** C6, counterexample.  With two primary and three secondary cells along x,
    three is no multiple of two, and the engine raises nothing, whatever the
    build: it returns the array [[0; 0]]. *)
Lemma uneven_grid_returns :
  Mesh.num_xdivs Uneven.mesh2 mod Mesh.num_xdivs Uneven.mesh1 <> 0 /\
  marked_cylindrical_isolation_engine Dropped Uneven.double_mesh
    Uneven.x1in Uneven.y1in Uneven.z1in Uneven.x2in Uneven.y2in Uneven.z2in
    Uneven.weights1in Uneven.weights2in 0 Uneven.rp_max Uneven.pi_max (0, 2)
  = Ok [0; 0]%float /\
  marked_cylindrical_isolation_engine Propagated Uneven.double_mesh
    Uneven.x1in Uneven.y1in Uneven.z1in Uneven.x2in Uneven.y2in Uneven.z2in
    Uneven.weights1in Uneven.weights2in 0 Uneven.rp_max Uneven.pi_max (0, 2)
  = Ok [0; 0]%float.
Proof.
  split; [vm_compute; discriminate|]. split; vm_compute; reflexivity.
Qed.

(** C6, as the code has it.  The engine does not validate that the
    secondary division counts are multiples of the primary ones: on every
    invocation that is valid otherwise, multiple or not, it takes the floor
    quotient of the two counts as the ratio of each axis and returns an
    array of the length of the primary sample. *)
Theorem division_ratio_is_floor_quotient (build : cdef_raise)
    (double_mesh : DoubleMesh.t)
    (x1in y1in z1in x2in y2in z2in : list float)
    (weights1in weights2in : list (list float)) (weight_func_idin : Z)
    (rp_max pi_max : list float) (cell1_tuple : Z * Z) :
  valid_invocation double_mesh x1in y1in z1in x2in y2in z2in
    weights1in weights2in weight_func_idin rp_max pi_max cell1_tuple ->
  let mesh1 := DoubleMesh.mesh1 double_mesh in
  let mesh2 := DoubleMesh.mesh2 double_mesh in
  exists L r,
    engine_locals build double_mesh x1in y1in z1in x2in y2in z2in
      weights1in weights2in weight_func_idin rp_max pi_max cell1_tuple
    = Ok L /\
    num_x2_per_x1 L = Mesh.num_xdivs mesh2 / Mesh.num_xdivs mesh1 /\
    num_y2_per_y1 L = Mesh.num_ydivs mesh2 / Mesh.num_ydivs mesh1 /\
    num_z2_per_z1 L = Mesh.num_zdivs mesh2 / Mesh.num_zdivs mesh1 /\
    marked_cylindrical_isolation_engine build double_mesh x1in y1in z1in
      x2in y2in z2in weights1in weights2in weight_func_idin rp_max pi_max
      cell1_tuple = Ok r /\
    length r = length x1in.
Proof.
  intros Hv mesh1 mesh2. subst mesh1 mesh2.
  destruct (engine_spec build _ _ _ _ _ _ _ _ _ _ _ _ _ Hv)
    as (L & hn & r & EL & _ & _ & Er & _ & Hrlen & _).
  pose proof (engine_locals_inv _ _ _ _ _ _ _ _ _ _ _ _ _ _ _ EL) as HLo.
  exists L, r. split; [exact EL|].
  split; [apply (lo_x_per _ _ _ _ _ _ _ _ _ _ _ _ _ _ HLo)|].
  split; [apply (lo_y_per _ _ _ _ _ _ _ _ _ _ _ _ _ _ HLo)|].
  split; [apply (lo_z_per _ _ _ _ _ _ _ _ _ _ _ _ _ _ HLo)|].
  split; [exact Er | exact Hrlen].
Qed.

Lemma division_ratio_is_floor_quotient_witness :
  exists L r,
    engine_locals Propagated Uneven.double_mesh
      Uneven.x1in Uneven.y1in Uneven.z1in Uneven.x2in Uneven.y2in Uneven.z2in
      Uneven.weights1in Uneven.weights2in 0 Uneven.rp_max Uneven.pi_max (0, 2)
    = Ok L /\
    num_x2_per_x1 L = 1 /\
    marked_cylindrical_isolation_engine Propagated Uneven.double_mesh
      Uneven.x1in Uneven.y1in Uneven.z1in Uneven.x2in Uneven.y2in Uneven.z2in
      Uneven.weights1in Uneven.weights2in 0 Uneven.rp_max Uneven.pi_max (0, 2)
    = Ok r /\
    length r = 2%nat.
Proof.
  destruct (division_ratio_is_floor_quotient Propagated Uneven.double_mesh
              Uneven.x1in Uneven.y1in Uneven.z1in
              Uneven.x2in Uneven.y2in Uneven.z2in
              Uneven.weights1in Uneven.weights2in 0
              Uneven.rp_max Uneven.pi_max (0, 2) uneven_valid)
    as (L & r & EL & Hx & _ & _ & Er & Hlen).
  exists L, r. repeat split; assumption.
Defined.

(** ** The window of secondary cells *)



(** [int_ceil] is the ceiling: the integer it returns is not below the
    number, and the integer before it is. *)
Lemma int_ceil_least (x : float) (n : Z) :
  int_ceil x = Ok n ->
  match Prim2SF x with
  | S754_zero _ => n = 0
  | S754_finite s m e =>
      dyadic_le_int s m e n /\ ~ dyadic_le_int s m e (n - 1)
  | _ => False
  end.
Proof.
  unfold int_ceil. destruct (Prim2SF x) as [s|s| |s m e]; try discriminate.
  - intros [= <-]. reflexivity.
  - unfold dyadic_le_int.
    set (v := if s then Z.neg m else Z.pos m).
    destruct (Z.leb_spec 0 e) as [He|He]; intros [= <-].
    + lia.
    + assert (Hd : 0 < 2 ^ (- e)) by (apply Z.pow_pos_nonneg; lia).
      pose proof (Z.div_mod (- v) (2 ^ (- e)) ltac:(lia)) as Hdm.
      pose proof (Z.mod_pos_bound (- v) (2 ^ (- e)) Hd) as Hmb.
      split; nia.
Qed.




(** ** Periodic shifts and the cell looked up *)




(** * Further properties of the engine *)

(** ** What the returned array says *)

(** The returned array, read through the sort order, against the pairs the
    scan meets. *)
Lemma engine_result_hits (build : cdef_raise)
    (double_mesh : DoubleMesh.t)
    (x1in y1in z1in x2in y2in z2in : list float)
    (weights1in weights2in : list (list float)) (weight_func_idin : Z)
    (rp_max pi_max : list float) (cell1_tuple : Z * Z) :
  valid_invocation double_mesh x1in y1in z1in x2in y2in z2in
    weights1in weights2in weight_func_idin rp_max pi_max cell1_tuple ->
  exists L r,
    engine_locals build double_mesh x1in y1in z1in x2in y2in z2in
      weights1in weights2in weight_func_idin rp_max pi_max cell1_tuple
    = Ok L /\
    marked_cylindrical_isolation_engine build double_mesh x1in y1in z1in
      x2in y2in z2in weights1in weights2in weight_func_idin rp_max pi_max
      cell1_tuple = Ok r /\
    forall p k,
      nth_error (Mesh.idx_sorted (DoubleMesh.mesh1 double_mesh)) p = Some k ->
      (nth k r 0%float = 0%float <->
         hit_cells L (fst cell1_tuple) (snd cell1_tuple) (Z.of_nat p)) /\
      (nth k r 0%float = 1%float <->
         ~ hit_cells L (fst cell1_tuple) (snd cell1_tuple) (Z.of_nat p)).
Proof.
  intros Hv.
  destruct (engine_spec build _ _ _ _ _ _ _ _ _ _ _ _ _ Hv)
    as (L & hn & r & EL & _ & Es & Er & Hhn & Hrlen & Hbin & Hhit & Hr).
  pose proof (vi_idx1 _ _ _ _ _ _ _ _ _ _ _ _ _ Hv) as Hperm.
  destruct (Permutation_seq_bounds _ _ Hperm) as (Hlen & _ & _).
  exists L, r. split; [exact EL|]. split; [exact Er|].
  intros p k Hp. destruct (Hr p k Hp) as [Rz Rnz].
  assert (Hplt : (p < length x1in)%nat)
    by (rewrite <- Hlen; apply nth_error_Some; congruence).
  destruct (Hhit p Hplt) as [H1 H0].
  destruct (has_neighbor_binary _ _ H1 H0) as [E|E].
  - rewrite (Rz E). apply H0 in E. split; split; intros H;
      try reflexivity; try assumption; try contradiction.
    symmetry in H. destruct (float_zero_neq_one H).
  - rewrite Rnz by lia. apply H1 in E. split; split; intros H;
      try reflexivity; try assumption; try contradiction.
    destruct (float_zero_neq_one H).
Qed.


(** X1.  On a valid invocation the entry of the original index [k], at
    sorted position [p], is 0 exactly when the scan meets a pair that counts
    for [p]: a primary cell of the work range holding [p], a raw secondary
    coordinate in each of the three scanned ranges, and a secondary point of
    the cell looked up for which the test of line 241 holds with the shifts
    of those coordinates; it is 1 exactly when there is none. *)
Theorem result_zero_iff_pair_found (build : cdef_raise)
    (double_mesh : DoubleMesh.t)
    (x1in y1in z1in x2in y2in z2in : list float)
    (weights1in weights2in : list (list float)) (weight_func_idin : Z)
    (rp_max pi_max : list float) (cell1_tuple : Z * Z) :
  valid_invocation double_mesh x1in y1in z1in x2in y2in z2in
    weights1in weights2in weight_func_idin rp_max pi_max cell1_tuple ->
  exists L r,
    engine_locals build double_mesh x1in y1in z1in x2in y2in z2in
      weights1in weights2in weight_func_idin rp_max pi_max cell1_tuple
    = Ok L /\
    marked_cylindrical_isolation_engine build double_mesh x1in y1in z1in
      x2in y2in z2in weights1in weights2in weight_func_idin rp_max pi_max
      cell1_tuple = Ok r /\
    forall p k,
      nth_error (Mesh.idx_sorted (DoubleMesh.mesh1 double_mesh)) p = Some k ->
      (nth k r 0%float = 0%float <->
         hit_cells L (fst cell1_tuple) (snd cell1_tuple) (Z.of_nat p)) /\
      (nth k r 0%float = 1%float <->
         ~ hit_cells L (fst cell1_tuple) (snd cell1_tuple) (Z.of_nat p)).
Proof.
  apply engine_result_hits.
Qed.

Lemma result_zero_iff_pair_found_witness :
  exists L r,
    Example.engine Propagated 1 0 (0, 2) = Ok r /\
    (nth 1 r 0%float = 0%float <-> hit_cells L 0 2 0).
Proof.
  destruct (result_zero_iff_pair_found Propagated (Example.double_mesh 1)
              Example.x1in Example.y1in Example.z1in
              Example.x2in Example.y2in Example.z2in
              Example.weights1in Example.weights2in 0
              Example.rp_max Example.pi_max (0, 2)
              (example_valid 1 0 (0, 2) eq_refl))
    as (L & r & _ & Er & Hk).
  exists L, r. split; [exact Er|]. exact (proj1 (Hk 0%nat 1%nat eq_refl)).
Defined.

(** ** The scan as a transformer of the flags *)




Lemma for_in_app {S : Type} (l1 l2 : list Z) (body : Z -> S -> result S)
    (s : S) :
  for_in (l1 ++ l2) body s = (s' <- for_in l1 body s ;; for_in l2 body s').
Proof.
  revert s. induction l1 as [|x l1 IH]; intros s; simpl; [reflexivity|].
  destruct (body x s) as [s'|e]; simpl; [apply IH | reflexivity].
Qed.

(** X3.  Scanning a work range is scanning its two parts one after the
    other on the same array of flags, for any split point and any locals:
    the same flags, or the same first exception. *)
Theorem scan_cells_adjacent_ranges (L : locals)
    (first_cell1_element m last_cell1_element : Z) (has_neighbor : list Z) :
  first_cell1_element <= m <= last_cell1_element ->
  scan_cells L first_cell1_element last_cell1_element has_neighbor =
    (h <- scan_cells L first_cell1_element m has_neighbor ;;
     scan_cells L m last_cell1_element h).
Proof.
  intros H. unfold scan_cells.
  rewrite (py_range_app _ m _ H). apply for_in_app.
Qed.

Lemma scan_cells_adjacent_ranges_witness :
  scan_cells (Example.L 1 trivial) 0 2 [0; 0] =
    (h <- scan_cells (Example.L 1 trivial) 0 1 [0; 0] ;;
     scan_cells (Example.L 1 trivial) 1 2 h).
Proof.
  apply scan_cells_adjacent_ranges. split; intros H; discriminate H.
Defined.

(** X4.  Widening the work range never turns a point that has a neighbour
    into an isolated one: on a valid invocation, every entry that is 1 for
    the range [[first', last')] is 1 for every range [[first, last)] inside
    it whose ends [cnp.int64_t] holds. *)
Theorem narrower_work_range_keeps_isolated (build : cdef_raise)
    (double_mesh : DoubleMesh.t)
    (x1in y1in z1in x2in y2in z2in : list float)
    (weights1in weights2in : list (list float)) (weight_func_idin : Z)
    (rp_max pi_max : list float) (first first' last last' : Z) :
  valid_invocation double_mesh x1in y1in z1in x2in y2in z2in
    weights1in weights2in weight_func_idin rp_max pi_max (first', last') ->
  first' <= first < 2 ^ 63 -> - 2 ^ 63 <= last <= last' ->
  exists r r',
    marked_cylindrical_isolation_engine build double_mesh x1in y1in z1in
      x2in y2in z2in weights1in weights2in weight_func_idin rp_max pi_max
      (first, last) = Ok r /\
    marked_cylindrical_isolation_engine build double_mesh x1in y1in z1in
      x2in y2in z2in weights1in weights2in weight_func_idin rp_max pi_max
      (first', last') = Ok r' /\
    forall k, (k < length x1in)%nat ->
      nth k r' 0%float = 1%float -> nth k r 0%float = 1%float.
Proof.
  intros Hv' Hf Hl.
  pose proof (vi_range _ _ _ _ _ _ _ _ _ _ _ _ _ Hv') as [Hr0 Hr1].
  simpl in Hr0, Hr1.
  assert (Hv := valid_invocation_range _ _ _ _ _ _ _ _ _ _ _ _ _
                  (first, last) Hv' ltac:(simpl; lia) ltac:(simpl; lia)).
  destruct (engine_result_hits build _ _ _ _ _ _ _ _ _ _ _ _ _ Hv)
    as (L & r & EL & Er & Hk).
  destruct (engine_result_hits build _ _ _ _ _ _ _ _ _ _ _ _ _ Hv')
    as (L' & r' & EL' & Er' & Hk').
  rewrite (engine_locals_work_range _ _ _ _ _ _ _ _ _ _ _ _ _ _
             (first', last') _ EL) in EL'
    by (simpl; pose proof (vi_ncells1_int _ _ _ _ _ _ _ _ _ _ _ _ _ Hv'); lia).
  injection EL' as <-.
  change (hit_cells (with_work_range L (fst (first', last'))
                       (snd (first', last'))))
    with (hit_cells L) in Hk'.
  pose proof (vi_idx1 _ _ _ _ _ _ _ _ _ _ _ _ _ Hv) as Hperm.
  exists r, r'. split; [exact Er|]. split; [exact Er'|].
  intros k Hlt H1.
  destruct (sorted_position _ _ k Hperm Hlt) as (p & _ & Hp).
  apply (Hk p k Hp). apply (Hk' p k Hp) in H1.
  intros (c & Hc & Hh). apply H1. exists c. simpl in *. split; [lia|exact Hh].
Qed.

Lemma narrower_work_range_keeps_isolated_witness :
  exists r r',
    Example.engine Propagated 1 0 (0, 1) = Ok r /\
    Example.engine Propagated 1 0 (0, 2) = Ok r' /\
    forall k, (k < 2)%nat ->
      nth k r' 0%float = 1%float -> nth k r 0%float = 1%float.
Proof.
  exact (narrower_work_range_keeps_isolated Propagated (Example.double_mesh 1)
           Example.x1in Example.y1in Example.z1in
           Example.x2in Example.y2in Example.z2in
           Example.weights1in Example.weights2in 0
           Example.rp_max Example.pi_max 0 0 1 2
           (example_valid 1 0 (0, 2) eq_refl)
           (conj (Z.le_refl 0) eq_refl)
           (conj (Zle_bool_imp_le (- 2 ^ 63) 1 eq_refl)
              (Zle_bool_imp_le 1 2 eq_refl))).
Defined.

(** ** Edge cases of the samples *)

Lemma nosecondary_valid :
  valid_invocation NoSecondary.double_mesh
    Example.x1in Example.y1in Example.z1in [] [] []
    Example.weights1in [] 0 Example.rp_max Example.pi_max (0, 2).
Proof.
  valid_invocation_tac.
Defined.

(** X5.  Without secondary points every primary point is isolated: a valid
    invocation with an empty secondary sample returns the array of ones. *)
Theorem no_secondary_points_all_isolated (build : cdef_raise)
    (double_mesh : DoubleMesh.t)
    (x1in y1in z1in x2in y2in z2in : list float)
    (weights1in weights2in : list (list float)) (weight_func_idin : Z)
    (rp_max pi_max : list float) (cell1_tuple : Z * Z) :
  valid_invocation double_mesh x1in y1in z1in x2in y2in z2in
    weights1in weights2in weight_func_idin rp_max pi_max cell1_tuple ->
  x2in = [] ->
  marked_cylindrical_isolation_engine build double_mesh x1in y1in z1in
    x2in y2in z2in weights1in weights2in weight_func_idin rp_max pi_max
    cell1_tuple = Ok (repeat 1%float (length x1in)).
Proof.
  intros Hv Hx2.
  destruct (engine_spec build _ _ _ _ _ _ _ _ _ _ _ _ _ Hv)
    as (L & hn & r & EL & _ & Es & Er & Hhn & Hrlen & Hbin & Hhit & Hr).
  pose proof (engine_locals_inv _ _ _ _ _ _ _ _ _ _ _ _ _ _ _ EL) as HLo.
  pose proof (vi_idx1 _ _ _ _ _ _ _ _ _ _ _ _ _ Hv) as Hperm.
  pose proof (vi_idx2 _ _ _ _ _ _ _ _ _ _ _ _ _ Hv) as Hperm2.
  destruct (Permutation_seq_bounds _ _ Hperm2) as (Hlen2 & _ & _).
  destruct (lo_x2 _ _ _ _ _ _ _ _ _ _ _ _ _ _ HLo) as [Hx2len _].
  rewrite Er. f_equal.
  apply nth_ext with (d := 0%float) (d' := 1%float);
    [rewrite repeat_length; exact Hrlen|].
  intros k Hk. rewrite Hrlen in Hk. rewrite nth_repeat.
  destruct (sorted_position _ _ k Hperm Hk) as (p & Hplt & Hp).
  apply (Hr p k Hp). apply (Hhit p Hplt).
  intros Hh. apply hit_cells_pair in Hh.
  destruct Hh as (f & q & sx & sy & sz & x1i & y1i & z1i & rp & pi & w1 & x2j
                  & y2j & z2j & w2 & _ & _ & _ & _ & _ & _ & _ & _ & Ex2 & _).
  apply view_get_inv in Ex2. destruct Ex2 as [Hq _].
  rewrite Hx2len, Hlen2, Hx2 in Hq. simpl in Hq. lia.
Qed.

Lemma no_secondary_points_all_isolated_witness :
  marked_cylindrical_isolation_engine Propagated NoSecondary.double_mesh
    Example.x1in Example.y1in Example.z1in [] [] []
    Example.weights1in [] 0 Example.rp_max Example.pi_max (0, 2)
  = Ok [1; 1]%float.
Proof.
  exact (no_secondary_points_all_isolated Propagated NoSecondary.double_mesh
           Example.x1in Example.y1in Example.z1in [] [] []
           Example.weights1in [] 0 Example.rp_max Example.pi_max (0, 2)
           nosecondary_valid eq_refl).
Defined.

(** ** Degenerate numbers *)

Lemma sub_self_zero_or_nan (x : float) : zero_or_nan (x - x)%float.
Proof.
  unfold zero_or_nan. rewrite sub_spec. unfold SF64sub.
  destruct (Prim2SF x) as [s|s| |s m e].
  - left. exists false. destruct s; reflexivity.
  - right. destruct s; reflexivity.
  - right. reflexivity.
  - left. exists false. unfold SFsub. rewrite Z.sub_diag. reflexivity.
Qed.

Lemma mul_zero_or_nan (a b : float) :
  zero_or_nan a -> zero_or_nan b -> zero_or_nan (a * b)%float.
Proof.
  unfold zero_or_nan. rewrite mul_spec. unfold SF64mul.
  intros [[sa ->] | ->] [[sb ->] | ->]; simpl; eauto.
Qed.

Lemma add_zero_or_nan (a b : float) :
  zero_or_nan a -> zero_or_nan b -> zero_or_nan (a + b)%float.
Proof.
  unfold zero_or_nan. rewrite add_spec. unfold SF64add.
  intros [[sa ->] | ->] [[sb ->] | ->]; simpl; eauto.
  destruct sa, sb; eauto.
Qed.

Lemma ltb_zero_zero_or_nan (a : float) :
  zero_or_nan a -> (0 <? a)%float = false.
Proof.
  rewrite ltb_spec. change (Prim2SF 0) with (S754_zero false).
  intros [[s ->] | ->]; reflexivity.
Qed.

(** X6.  A secondary point at exactly the position of the shifted primary
    point never counts as its neighbour, whatever the radii, the weights and
    the predicate: the sum of the squared distances is not above zero (or,
    for coordinates that are no numbers, is a NaN). *)
Theorem coincident_point_never_counts (L : locals) (f : f_type)
    (ifirst1 i ifirst2 j : Z) (x y z rp pi : float) (w1 w2 : list float) :
  wfunc L = Some f ->
  view_get (x2 L) (ifirst2 + j) = Ok x ->
  view_get (y2 L) (ifirst2 + j) = Ok y ->
  view_get (z2 L) (ifirst2 + j) = Ok z ->
  view_get (weights1 L) (ifirst1 + i) = Ok w1 ->
  view_get (weights2 L) (ifirst2 + j) = Ok w2 ->
  pair_counts L ifirst1 i ifirst2 j x y z rp pi = Ok false.
Proof.
  intros Ef Ex Ey Ez Ew1 Ew2.
  rewrite (pair_counts_eq L f ifirst1 i ifirst2 j x y z rp pi x y z w1 w2)
    by assumption.
  f_equal. unfold is_neighbor.
  rewrite ltb_zero_zero_or_nan; [apply andb_false_r|].
  apply add_zero_or_nan.
  - apply mul_zero_or_nan; apply sub_self_zero_or_nan.
  - apply add_zero_or_nan; apply mul_zero_or_nan; apply sub_self_zero_or_nan.
Qed.

Lemma coincident_point_never_counts_witness :
  pair_counts (Example.L 1 trivial) 0 0 0 0 1.5 1 1 0.5625 0.25 = Ok false.
Proof.
  exact (coincident_point_never_counts (Example.L 1 trivial) trivial 0 0 0 0
           1.5 1 1 0.5625 0.25 [1%float] [1%float]
           eq_refl eq_refl eq_refl eq_refl eq_refl eq_refl).
Defined.

Lemma binary_round_aux_sign (sx : bool) (mx ex : Z) (lx : location) :
  match binary_round_aux prec emax sx mx ex lx with
  | S754_zero s | S754_infinity s | S754_finite s _ _ => s = sx
  | S754_nan => True
  end.
Proof.
  unfold binary_round_aux.
  destruct (shr_fexp prec emax mx ex lx) as [mrs' e'].
  destruct (shr_fexp prec emax _ e' loc_Exact) as [mrs'' e''].
  destruct (shr_m mrs''); auto.
  destruct (Z.leb _ _); reflexivity.
Qed.

Lemma binary_round_aux_not_negative (mx ex : Z) (lx : location) :
  not_negative (binary_round_aux prec emax false mx ex lx).
Proof.
  pose proof (binary_round_aux_sign false mx ex lx) as H.
  destruct (binary_round_aux prec emax false mx ex lx); simpl; auto;
    subst; auto.
Qed.

Lemma sq_not_negative (a : float) : not_negative (Prim2SF (a * a)%float).
Proof.
  rewrite mul_spec. unfold SF64mul.
  destruct (Prim2SF a) as [s|s| |s m e]; simpl; auto.
  - destruct s; exact I.
  - destruct s; simpl; apply binary_round_aux_not_negative.
Qed.

Lemma add_not_negative (a b : float) :
  not_negative (Prim2SF a) -> not_negative (Prim2SF b) ->
  not_negative (Prim2SF (a + b)%float).
Proof.
  rewrite add_spec. unfold SF64add.
  destruct (Prim2SF a) as [s|s| |s m e], (Prim2SF b) as [s'|s'| |s' m' e'];
    try (destruct s); try (destruct s'); simpl; intros Ha Hb;
    try contradiction; try exact I.
  unfold binary_round.
  destruct (shl_align _ _ _) as [mz ez].
  apply binary_round_aux_not_negative.
Qed.

Lemma ltb_not_negative_zero (a z : float) (b : bool) :
  not_negative (Prim2SF a) -> Prim2SF z = S754_zero b ->
  (a <? z)%float = false.
Proof.
  rewrite ltb_spec. intros Ha ->.
  destruct (Prim2SF a) as [s|s| |s m e]; simpl in *; auto;
    destruct s; auto; contradiction.
Qed.

Lemma sq_of_zero (r : float) (b : bool) :
  Prim2SF r = S754_zero b -> Prim2SF (r * r)%float = S754_zero false.
Proof.
  intros H. rewrite mul_spec, H. simpl. destruct b; reflexivity.
Qed.

Lemma sq_of_nan (r : float) :
  Prim2SF r = S754_nan -> Prim2SF (r * r)%float = S754_nan.
Proof. intros H. rewrite mul_spec, H. reflexivity. Qed.

Lemma sq_shifted_nan (x s x2 : float) :
  Prim2SF x = S754_nan ->
  Prim2SF ((x - s - x2) * (x - s - x2))%float = S754_nan.
Proof.
  intros H. rewrite !mul_spec, !sub_spec, H. reflexivity.
Qed.

Lemma ltb_nan_r (a b : float) :
  Prim2SF b = S754_nan -> (a <? b)%float = false.
Proof.
  intros H. rewrite ltb_spec, H. unfold SFltb, SFcompare.
  destruct (Prim2SF a); reflexivity.
Qed.

Lemma is_neighbor_nan (dxy_sq dz_sq rp pi w : float) :
  Prim2SF dxy_sq = S754_nan \/ Prim2SF dz_sq = S754_nan \/
  Prim2SF rp = S754_nan \/ Prim2SF pi = S754_nan ->
  is_neighbor dxy_sq dz_sq rp pi w = false.
Proof.
  unfold is_neighbor. intros [H|[H|[H|H]]].
  - rewrite (ltb_nan_l _ _ H). reflexivity.
  - rewrite (ltb_nan_l _ _ H), andb_false_r. reflexivity.
  - rewrite (ltb_nan_r _ _ H). reflexivity.
  - rewrite (ltb_nan_r _ _ H), andb_false_r. reflexivity.
Qed.

Lemma is_neighbor_zero_radius (a b c rp pi w : float) (s : bool) :
  Prim2SF rp = S754_zero s \/ Prim2SF pi = S754_zero s ->
  is_neighbor (a * a + b * b)%float (c * c)%float rp pi w = false.
Proof.
  unfold is_neighbor. intros [H|H].
  - rewrite (ltb_not_negative_zero _ rp s); [reflexivity | | exact H].
    apply add_not_negative; apply sq_not_negative.
  - rewrite (ltb_not_negative_zero _ pi s);
      [rewrite andb_false_r; reflexivity | apply sq_not_negative | exact H].
Qed.

(** The pair behind a hit, with the coordinates and radii of the caller. *)
Lemma hit_cells_original (double_mesh : DoubleMesh.t)
    (x1in y1in z1in x2in y2in z2in : list float)
    (weights1in weights2in : list (list float)) (weight_func_idin : Z)
    (rp_max pi_max : list float) (cell1_tuple : Z * Z) (L : locals)
    (first_cell1_element last_cell1_element : Z) (p k : nat)
    (x1k y1k z1k rpk pik : float) :
  locals_of double_mesh x1in y1in z1in x2in y2in z2in
    weights1in weights2in weight_func_idin rp_max pi_max cell1_tuple L ->
  nth_error (Mesh.idx_sorted (DoubleMesh.mesh1 double_mesh)) p = Some k ->
  nth_error x1in k = Some x1k ->
  nth_error y1in k = Some y1k ->
  nth_error z1in k = Some z1k ->
  nth_error rp_max k = Some rpk ->
  nth_error pi_max k = Some pik ->
  hit_cells L first_cell1_element last_cell1_element (Z.of_nat p) ->
  exists sx sy sz x2j y2j z2j w,
    is_neighbor
      ((x1k - sx - x2j) * (x1k - sx - x2j)
       + (y1k - sy - y2j) * (y1k - sy - y2j))%float
      ((z1k - sz - z2j) * (z1k - sz - z2j))%float
      (rpk * rpk)%float (pik * pik)%float w = true.
Proof.
  intros HLo Hidx Hx Hy Hz Hrp Hpi Hh.
  apply hit_cells_pair in Hh.
  destruct Hh as (f & q & sx & sy & sz & x1i & y1i & z1i & rp & pi & w1 & x2j
                  & y2j & z2j & w2 & _ & _ & Ex1 & Ey1 & Ez1 & Erp & Epi & _
                  & _ & _ & _ & _ & Hn).
  destruct (gathered_get _ _ _ _ _ (lo_x1 _ _ _ _ _ _ _ _ _ _ _ _ _ _ HLo) Ex1)
    as (k' & Hk' & Gx1).
  rewrite Nat2Z.id, Hidx in Hk'. injection Hk' as <-.
  destruct (gathered_get _ _ _ _ _ (lo_y1 _ _ _ _ _ _ _ _ _ _ _ _ _ _ HLo) Ey1)
    as (k' & Hk' & Gy1).
  rewrite Nat2Z.id, Hidx in Hk'. injection Hk' as <-.
  destruct (gathered_get _ _ _ _ _ (lo_z1 _ _ _ _ _ _ _ _ _ _ _ _ _ _ HLo) Ez1)
    as (k' & Hk' & Gz1).
  rewrite Nat2Z.id, Hidx in Hk'. injection Hk' as <-.
  destruct (gathered_get _ _ _ _ _ (lo_rp _ _ _ _ _ _ _ _ _ _ _ _ _ _ HLo) Erp)
    as (k' & Hk' & Grp).
  rewrite Nat2Z.id, Hidx in Hk'. injection Hk' as <-.
  destruct (gathered_get _ _ _ _ _ (lo_pi _ _ _ _ _ _ _ _ _ _ _ _ _ _ HLo) Epi)
    as (k' & Hk' & Gpi).
  rewrite Nat2Z.id, Hidx in Hk'. injection Hk' as <-.
  rewrite nth_error_map, Hrp in Grp. rewrite nth_error_map, Hpi in Gpi.
  simpl in Grp, Gpi. injection Grp as <-. injection Gpi as <-.
  rewrite Hx in Gx1. rewrite Hy in Gy1. rewrite Hz in Gz1.
  injection Gx1 as <-. injection Gy1 as <-. injection Gz1 as <-.
  exists sx, sy, sz, x2j, y2j, z2j, (of_bint (f w1 w2)). exact Hn.
Qed.

(** A primary point none of whose pairs can pass the test is isolated. *)
Lemma isolated_when_no_pair_passes (build : cdef_raise)
    (double_mesh : DoubleMesh.t)
    (x1in y1in z1in x2in y2in z2in : list float)
    (weights1in weights2in : list (list float)) (weight_func_idin : Z)
    (rp_max pi_max : list float) (cell1_tuple : Z * Z) (k : nat)
    (x1k y1k z1k rpk pik : float) :
  valid_invocation double_mesh x1in y1in z1in x2in y2in z2in
    weights1in weights2in weight_func_idin rp_max pi_max cell1_tuple ->
  nth_error x1in k = Some x1k ->
  nth_error y1in k = Some y1k ->
  nth_error z1in k = Some z1k ->
  nth_error rp_max k = Some rpk ->
  nth_error pi_max k = Some pik ->
  (forall sx sy sz x2j y2j z2j w,
     is_neighbor
       ((x1k - sx - x2j) * (x1k - sx - x2j)
        + (y1k - sy - y2j) * (y1k - sy - y2j))%float
       ((z1k - sz - z2j) * (z1k - sz - z2j))%float
       (rpk * rpk)%float (pik * pik)%float w = false) ->
  exists r,
    marked_cylindrical_isolation_engine build double_mesh x1in y1in z1in
      x2in y2in z2in weights1in weights2in weight_func_idin rp_max pi_max
      cell1_tuple = Ok r /\
    nth k r 0%float = 1%float.
Proof.
  intros Hv Hx Hy Hz Hrp Hpi Hno.
  destruct (engine_result_hits build _ _ _ _ _ _ _ _ _ _ _ _ _ Hv)
    as (L & r & EL & Er & Hk).
  pose proof (engine_locals_inv _ _ _ _ _ _ _ _ _ _ _ _ _ _ _ EL) as HLo.
  pose proof (vi_idx1 _ _ _ _ _ _ _ _ _ _ _ _ _ Hv) as Hperm.
  assert (Hlt : (k < length x1in)%nat)
    by (apply nth_error_Some; congruence).
  destruct (sorted_position _ _ k Hperm Hlt) as (p & _ & Hp).
  exists r. split; [exact Er|]. apply (Hk p k Hp). intros Hh.
  destruct (hit_cells_original _ _ _ _ _ _ _ _ _ _ _ _ _ _ _ _ _ _ _ _ _ _ _
              HLo Hp Hx Hy Hz Hrp Hpi Hh)
    as (sx & sy & sz & x2j & y2j & z2j & w & Hn).
  rewrite Hno in Hn. discriminate Hn.
Qed.

Lemma valid_invocation_primary_values (double_mesh : DoubleMesh.t)
    (x1in y1in z1in x1in' y1in' z1in' x2in y2in z2in : list float)
    (weights1in weights2in : list (list float)) (weight_func_idin : Z)
    (rp_max pi_max rp_max' pi_max' : list float) (cell1_tuple : Z * Z) :
  valid_invocation double_mesh x1in y1in z1in x2in y2in z2in
    weights1in weights2in weight_func_idin rp_max pi_max cell1_tuple ->
  length x1in' = length x1in -> length y1in' = length x1in ->
  length z1in' = length x1in -> length rp_max' = length x1in ->
  length pi_max' = length x1in ->
  valid_invocation double_mesh x1in' y1in' z1in' x2in y2in z2in
    weights1in weights2in weight_func_idin rp_max' pi_max' cell1_tuple.
Proof.
  intros Hv Hx Hy Hz Hrp Hpi. destruct Hv.
  constructor; try rewrite Hx; auto; congruence.
Qed.

(** X7.  A primary point with a NaN among its three coordinates or its two
    radii is isolated: on a valid invocation its entry is 1, whatever the
    secondary sample is. *)
Theorem nan_primary_point_is_isolated (build : cdef_raise)
    (double_mesh : DoubleMesh.t)
    (x1in y1in z1in x2in y2in z2in : list float)
    (weights1in weights2in : list (list float)) (weight_func_idin : Z)
    (rp_max pi_max : list float) (cell1_tuple : Z * Z) (k : nat)
    (x1k y1k z1k rpk pik : float) :
  valid_invocation double_mesh x1in y1in z1in x2in y2in z2in
    weights1in weights2in weight_func_idin rp_max pi_max cell1_tuple ->
  nth_error x1in k = Some x1k ->
  nth_error y1in k = Some y1k ->
  nth_error z1in k = Some z1k ->
  nth_error rp_max k = Some rpk ->
  nth_error pi_max k = Some pik ->
  Prim2SF x1k = S754_nan \/ Prim2SF y1k = S754_nan \/
  Prim2SF z1k = S754_nan \/ Prim2SF rpk = S754_nan \/
  Prim2SF pik = S754_nan ->
  exists r,
    marked_cylindrical_isolation_engine build double_mesh x1in y1in z1in
      x2in y2in z2in weights1in weights2in weight_func_idin rp_max pi_max
      cell1_tuple = Ok r /\
    nth k r 0%float = 1%float.
Proof.
  intros Hv Hx Hy Hz Hrp Hpi Hnan.
  eapply isolated_when_no_pair_passes; try eassumption.
  intros sx sy sz x2j y2j z2j w. apply is_neighbor_nan.
  destruct Hnan as [H|[H|[H|[H|H]]]].
  - left. apply add_nan_l, sq_shifted_nan, H.
  - left. apply add_nan_r, sq_shifted_nan, H.
  - right. left. apply sq_shifted_nan, H.
  - right. right. left. apply sq_of_nan, H.
  - right. right. right. apply sq_of_nan, H.
Qed.

Lemma nan_primary_point_is_isolated_witness :
  exists r,
    marked_cylindrical_isolation_engine Propagated (Example.double_mesh 1)
      [3; 0 / 0]%float Example.y1in Example.z1in
      Example.x2in Example.y2in Example.z2in
      Example.weights1in Example.weights2in 0
      Example.rp_max Example.pi_max (0, 2) = Ok r /\
    nth 1 r 0%float = 1%float.
Proof.
  apply (nan_primary_point_is_isolated Propagated (Example.double_mesh 1)
           [3; 0 / 0]%float Example.y1in Example.z1in
           Example.x2in Example.y2in Example.z2in
           Example.weights1in Example.weights2in 0
           Example.rp_max Example.pi_max (0, 2) 1%nat
           (0 / 0)%float 1%float 1%float 0.75%float 0.5%float);
    try reflexivity.
  - apply (valid_invocation_primary_values (Example.double_mesh 1)
             Example.x1in Example.y1in Example.z1in _ _ _ _ _ _ _ _ _
             Example.rp_max Example.pi_max);
      try reflexivity.
    apply (example_valid 1 0 (0, 2) eq_refl).
  - left. reflexivity.
Defined.

(** X8.  A primary point whose projected radius or whose line-of-sight
    half-length is zero is isolated: no squared distance is below zero. *)
Theorem zero_radius_point_is_isolated (build : cdef_raise)
    (double_mesh : DoubleMesh.t)
    (x1in y1in z1in x2in y2in z2in : list float)
    (weights1in weights2in : list (list float)) (weight_func_idin : Z)
    (rp_max pi_max : list float) (cell1_tuple : Z * Z) (k : nat)
    (x1k y1k z1k rpk pik : float) (s : bool) :
  valid_invocation double_mesh x1in y1in z1in x2in y2in z2in
    weights1in weights2in weight_func_idin rp_max pi_max cell1_tuple ->
  nth_error x1in k = Some x1k ->
  nth_error y1in k = Some y1k ->
  nth_error z1in k = Some z1k ->
  nth_error rp_max k = Some rpk ->
  nth_error pi_max k = Some pik ->
  Prim2SF rpk = S754_zero s \/ Prim2SF pik = S754_zero s ->
  exists r,
    marked_cylindrical_isolation_engine build double_mesh x1in y1in z1in
      x2in y2in z2in weights1in weights2in weight_func_idin rp_max pi_max
      cell1_tuple = Ok r /\
    nth k r 0%float = 1%float.
Proof.
  intros Hv Hx Hy Hz Hrp Hpi Hzero.
  eapply isolated_when_no_pair_passes; try eassumption.
  intros sx sy sz x2j y2j z2j w.
  apply (is_neighbor_zero_radius _ _ _ _ _ _ false).
  destruct Hzero as [H|H]; [left | right]; eapply sq_of_zero, H.
Qed.

Lemma zero_radius_point_is_isolated_witness :
  exists r,
    marked_cylindrical_isolation_engine Propagated (Example.double_mesh 1)
      Example.x1in Example.y1in Example.z1in
      Example.x2in Example.y2in Example.z2in
      Example.weights1in Example.weights2in 0
      [0.75; 0]%float Example.pi_max (0, 2) = Ok r /\
    nth 1 r 0%float = 1%float.
Proof.
  apply (zero_radius_point_is_isolated Propagated (Example.double_mesh 1)
           Example.x1in Example.y1in Example.z1in
           Example.x2in Example.y2in Example.z2in
           Example.weights1in Example.weights2in 0
           [0.75; 0]%float Example.pi_max (0, 2) 1%nat
           1%float 1%float 1%float 0%float 0.5%float false);
    try reflexivity.
  - apply (valid_invocation_primary_values (Example.double_mesh 1)
             Example.x1in Example.y1in Example.z1in _ _ _ _ _ _ _ _ _
             Example.rp_max Example.pi_max);
      try reflexivity.
    apply (example_valid 1 0 (0, 2) eq_refl).
  - left. reflexivity.
Defined.

(** ** Exceptions of the set-up *)

(** X9.  Primary division counts that a C [int] holds, one of them zero,
    make the engine raise [ZeroDivisionError] (lines 137-139) on an
    invocation that is valid otherwise: no array is returned and no cell is
    scanned. *)
Theorem zero_primary_division_count_raises (build : cdef_raise)
    (double_mesh : DoubleMesh.t)
    (x1in y1in z1in x2in y2in z2in : list float)
    (weights1in weights2in : list (list float)) (weight_func_idin : Z)
    (rp_max pi_max : list float) (cell1_tuple : Z * Z) (nx ny nz : Z) :
  valid_invocation double_mesh x1in y1in z1in x2in y2in z2in
    weights1in weights2in weight_func_idin rp_max pi_max cell1_tuple ->
  - 2 ^ 31 <= nx < 2 ^ 31 ->
  - 2 ^ 31 <= ny < 2 ^ 31 ->
  - 2 ^ 31 <= nz < 2 ^ 31 ->
  nx = 0 \/ ny = 0 \/ nz = 0 ->
  marked_cylindrical_isolation_engine build
    (with_primary_divisions double_mesh nx ny nz) x1in y1in z1in
    x2in y2in z2in weights1in weights2in weight_func_idin rp_max pi_max
    cell1_tuple = Err ZeroDivisionError.
Proof.
  intros Hv Hnx Hny Hnz Hz.
  destruct (engine_locals_Ok build _ _ _ _ _ _ _ _ _ _ _ _ _ Hv)
    as (L & EL & _).
  unfold marked_cylindrical_isolation_engine.
  assert (E : engine_locals build (with_primary_divisions double_mesh nx ny nz)
                x1in y1in z1in x2in y2in z2in weights1in weights2in
                weight_func_idin rp_max pi_max cell1_tuple
              = Err ZeroDivisionError).
  { unfold engine_locals in *. unfold with_primary_divisions.
    cbn [DoubleMesh.mesh1 DoubleMesh.mesh2 DoubleMesh._PBCs
         DoubleMesh.search_xlength DoubleMesh.search_ylength
         DoubleMesh.search_zlength Mesh.idx_sorted Mesh.ncells
         Mesh.num_xdivs Mesh.num_ydivs Mesh.num_zdivs].
    repeat match type of EL with
           | bind ?r _ = Ok _ =>
               let E := fresh "E" in
               destruct r eqn:E; cbn [bind] in EL |- *; [|discriminate EL]
           end.
    rewrite (as_int_Ok nx), (as_int_Ok ny), (as_int_Ok nz) by assumption.
    cbn [bind]. unfold py_floordiv.
    destruct (Z.eqb_spec nx 0); [reflexivity|]. simpl.
    destruct (Z.eqb_spec ny 0); [reflexivity|]. simpl.
    destruct (Z.eqb_spec nz 0); [reflexivity|]. lia. }
  rewrite E. reflexivity.
Qed.

Lemma zero_primary_division_count_raises_witness :
  marked_cylindrical_isolation_engine Propagated
    (with_primary_divisions (Example.double_mesh 1) 2 0 1)
    Example.x1in Example.y1in Example.z1in
    Example.x2in Example.y2in Example.z2in
    Example.weights1in Example.weights2in 0
    Example.rp_max Example.pi_max (0, 2) = Err ZeroDivisionError.
Proof.
  apply (zero_primary_division_count_raises Propagated
           (Example.double_mesh 1)).
  - apply (example_valid 1 0 (0, 2) eq_refl).
  - lia.
  - lia.
  - lia.
  - right. left. reflexivity.
Defined.

Lemma np_take_out_of_range {A : Type} (a : list A) (idx : list nat) (k : nat) :
  In k idx -> (length a <= k)%nat -> np_take a idx = Err IndexError.
Proof.
  intros Hin Hk. induction idx as [|k0 idx IH]; [destruct Hin|].
  simpl. destruct (nth_error a k0) as [v|] eqn:E; [|reflexivity].
  destruct Hin as [->|Hin].
  - apply nth_error_None in Hk. congruence.
  - rewrite (IH Hin). reflexivity.
Qed.

(** X10.  A sort order of the primary mesh that holds an index outside the
    radii makes the engine raise [IndexError] (line 87), for a recognised
    predicate code and whatever the other arguments are. *)
Theorem sort_index_out_of_range_raises (build : cdef_raise)
    (double_mesh : DoubleMesh.t)
    (x1in y1in z1in x2in y2in z2in : list float)
    (weights1in weights2in : list (list float)) (weight_func_idin : Z)
    (rp_max pi_max : list float) (cell1_tuple : Z * Z) (k : nat) :
  0 <= weight_func_idin <= 6 ->
  In k (Mesh.idx_sorted (DoubleMesh.mesh1 double_mesh)) ->
  (length rp_max <= k)%nat ->
  marked_cylindrical_isolation_engine build double_mesh x1in y1in z1in
    x2in y2in z2in weights1in weights2in weight_func_idin rp_max pi_max
    cell1_tuple = Err IndexError.
Proof.
  intros Hc Hin Hk.
  unfold marked_cylindrical_isolation_engine, engine_locals.
  rewrite (as_int_Ok weight_func_idin) by lia. cbn [bind].
  destruct (return_conditional_function_Ok _ Hc) as [f ->].
  cbn [call_cdef bind].
  rewrite (np_take_out_of_range _ _ k Hin)
    by (rewrite length_map; exact Hk).
  reflexivity.
Qed.

Lemma sort_index_out_of_range_raises_witness :
  marked_cylindrical_isolation_engine Propagated
    (reindex_mesh1 (Example.double_mesh 1) [2%nat; 0%nat])
    Example.x1in Example.y1in Example.z1in
    Example.x2in Example.y2in Example.z2in
    Example.weights1in Example.weights2in 0
    Example.rp_max Example.pi_max (0, 2) = Err IndexError.
Proof.
  apply (sort_index_out_of_range_raises Propagated
           (reindex_mesh1 (Example.double_mesh 1) [2%nat; 0%nat])
           Example.x1in Example.y1in Example.z1in
           Example.x2in Example.y2in Example.z2in
           Example.weights1in Example.weights2in 0
           Example.rp_max Example.pi_max (0, 2) 2%nat).
  - split; [apply Z.le_refl | apply (Zle_bool_imp_le 0 6 eq_refl)].
  - left. reflexivity.
  - apply le_n.
Defined.

(** The set-up reads the predicate code at lines 81-84 only. *)
Lemma engine_locals_dropped (build : cdef_raise)
    (double_mesh : DoubleMesh.t)
    (x1in y1in z1in x2in y2in z2in : list float)
    (weights1in weights2in : list (list float)) (code0 code : Z)
    (rp_max pi_max : list float) (cell1_tuple : Z * Z) (L : locals) :
  engine_locals build double_mesh x1in y1in z1in x2in y2in z2in
    weights1in weights2in code0 rp_max pi_max cell1_tuple = Ok L ->
  ~ (0 <= code <= 6) ->
  - 2 ^ 31 <= code < 2 ^ 31 ->
  engine_locals Dropped double_mesh x1in y1in z1in x2in y2in z2in
    weights1in weights2in code rp_max pi_max cell1_tuple
  = Ok (with_null_wfunc L).
Proof.
  intros EL Hc Hfit. revert EL. unfold engine_locals.
  rewrite (as_int_Ok code Hfit). cbn [bind].
  rewrite (return_conditional_function_unknown code Hc).
  cbn [call_cdef bind].
  destruct (as_int code0) as [id|]; cbn [bind]; [|discriminate].
  destruct (call_cdef build (return_conditional_function id)) as [o|];
    cbn [bind]; [|discriminate].
  repeat match goal with
         | |- bind ?r _ = Ok _ -> _ =>
             destruct r; cbn [bind]; [|discriminate]
         end.
  intros [= <-]. reflexivity.
Qed.

Lemma unsort_zeros (double_mesh : DoubleMesh.t) (n : nat) :
  Permutation (Mesh.idx_sorted (DoubleMesh.mesh1 double_mesh)) (seq 0 n) ->
  unsort_result double_mesh n (repeat 0 n) = Ok (repeat 1%float n).
Proof.
  intros Hperm.
  destruct (Permutation_seq_bounds _ _ Hperm) as (Hlen & Hnd & Hin).
  destruct (unsort_result_spec double_mesh n (repeat 0 n) Hlen
              (repeat_length 0 n))
    as (r & Er & Hrlen & _ & Hr); [intros k Hk; apply Hin, Hk | exact Hnd |].
  rewrite Er. f_equal.
  apply nth_ext with (d := 0%float) (d' := 1%float);
    [rewrite repeat_length; exact Hrlen|].
  intros k Hk. rewrite Hrlen in Hk. rewrite nth_repeat.
  destruct (sorted_position _ _ k Hperm Hk) as (p & Hplt & Hp).
  apply (Hr p k Hp). apply nth_repeat.
Qed.

(** X16.  Under a build that drops the exception of the [cdef] helper
    (Cython before 3), a predicate code outside [0..6] that a C [int] holds
    does not stop the engine: on an invocation that is valid otherwise the
    set-up succeeds with a NULL predicate pointer, the test of every pair
    goes through that pointer (no defined behaviour), and over an empty work
    range, where no pair is tested, the engine returns the array of ones. *)
Theorem dropped_raise_leaves_null_predicate (double_mesh : DoubleMesh.t)
    (x1in y1in z1in x2in y2in z2in : list float)
    (weights1in weights2in : list (list float)) (code0 code : Z)
    (rp_max pi_max : list float) (cell1_tuple : Z * Z) :
  valid_invocation double_mesh x1in y1in z1in x2in y2in z2in
    weights1in weights2in code0 rp_max pi_max cell1_tuple ->
  ~ (0 <= code <= 6) ->
  - 2 ^ 31 <= code < 2 ^ 31 ->
  exists L,
    engine_locals Dropped double_mesh x1in y1in z1in x2in y2in z2in
      weights1in weights2in code rp_max pi_max cell1_tuple = Ok L /\
    wfunc L = None /\
    (forall ifirst1 i ifirst2 j x1tmp y1tmp z1tmp rp pi,
       0 <= ifirst1 + i < Z.of_nat (length x1in) ->
       0 <= ifirst2 + j < Z.of_nat (length x2in) ->
       pair_counts L ifirst1 i ifirst2 j x1tmp y1tmp z1tmp rp pi
       = Err Fault) /\
    (snd cell1_tuple <= fst cell1_tuple ->
     marked_cylindrical_isolation_engine Dropped double_mesh x1in y1in z1in
       x2in y2in z2in weights1in weights2in code rp_max pi_max cell1_tuple
     = Ok (repeat 1%float (length x1in))).
Proof.
  intros Hv Hc Hfit.
  destruct (engine_locals_Ok Dropped _ _ _ _ _ _ _ _ _ _ _ _ _ Hv)
    as (L0 & EL0 & HL0 & HN & _).
  pose proof (engine_locals_inv _ _ _ _ _ _ _ _ _ _ _ _ _ _ _ EL0) as HLo.
  pose proof (engine_locals_dropped _ _ _ _ _ _ _ _ _ _ _ code _ _ _ _
                EL0 Hc Hfit) as EL.
  pose proof (vi_idx1 _ _ _ _ _ _ _ _ _ _ _ _ _ Hv) as Hperm.
  pose proof (vi_idx2 _ _ _ _ _ _ _ _ _ _ _ _ _ Hv) as Hperm2.
  destruct (Permutation_seq_bounds _ _ Hperm2) as (Hlen2 & _ & _).
  destruct (lo_x2 _ _ _ _ _ _ _ _ _ _ _ _ _ _ HLo) as [Hx2len _].
  exists (with_null_wfunc L0).
  split; [exact EL|]. split; [reflexivity|]. split.
  - intros ifirst1 i ifirst2 j x1tmp y1tmp z1tmp rp pi H1 H2.
    unfold pair_counts, call_wfunc.
    cbn [with_null_wfunc wfunc x2 y2 z2 weights1 weights2].
    destruct (view_get_Ok (x2 L0) (ifirst2 + j)) as [x2j [-> _]];
      [rewrite Hx2len, Hlen2; exact H2|].
    destruct (view_get_Ok (y2 L0) (ifirst2 + j)) as [y2j [-> _]];
      [rewrite (vl_y2 L0 HL0), Hx2len, Hlen2; exact H2|].
    destruct (view_get_Ok (z2 L0) (ifirst2 + j)) as [z2j [-> _]];
      [rewrite (vl_z2 L0 HL0), Hx2len, Hlen2; exact H2|].
    destruct (view_get_Ok (weights1 L0) (ifirst1 + i)) as [w1 [-> _]];
      [rewrite (vl_w1 L0 HL0), HN; exact H1|].
    destruct (view_get_Ok (weights2 L0) (ifirst2 + j)) as [w2 [-> _]];
      [rewrite (vl_w2 L0 HL0), Hx2len, Hlen2; exact H2|].
    reflexivity.
  - intros Hempty. unfold marked_cylindrical_isolation_engine.
    rewrite EL. cbn [bind with_null_wfunc first_cell1_element
                     last_cell1_element Npts1].
    rewrite (lo_first _ _ _ _ _ _ _ _ _ _ _ _ _ _ HLo),
      (lo_last _ _ _ _ _ _ _ _ _ _ _ _ _ _ HLo), HN.
    unfold scan_cells. rewrite (py_range_empty _ _ Hempty). cbn [for_in bind].
    apply unsort_zeros, Hperm.
Qed.

Lemma dropped_raise_leaves_null_predicate_witness :
  Example.engine Dropped 1 7 (0, 0) = Ok [1; 1]%float.
Proof.
  destruct (dropped_raise_leaves_null_predicate (Example.double_mesh 1)
              Example.x1in Example.y1in Example.z1in
              Example.x2in Example.y2in Example.z2in
              Example.weights1in Example.weights2in 0 7
              Example.rp_max Example.pi_max (0, 0)
              (example_valid 1 0 (0, 0) eq_refl))
    as (L & _ & _ & _ & He).
  - intros [_ H]. apply H. reflexivity.
  - lia.
  - apply He. apply Z.le_refl.
Defined.

(** X17.  Covering steps that a C [int] does not hold make the engine raise
    [OverflowError] (lines 120-125) on an invocation that is valid otherwise:
    with search lengths whose quotients by the secondary cell sizes have
    ceilings [a], [b] and [c], one of them outside the C [int], no array is
    returned and no cell is scanned. *)
Theorem covering_steps_beyond_int_raise (build : cdef_raise)
    (double_mesh : DoubleMesh.t)
    (x1in y1in z1in x2in y2in z2in : list float)
    (weights1in weights2in : list (list float)) (weight_func_idin : Z)
    (rp_max pi_max : list float) (cell1_tuple : Z * Z)
    (sx sy sz : float) (a b c : Z) :
  valid_invocation double_mesh x1in y1in z1in x2in y2in z2in
    weights1in weights2in weight_func_idin rp_max pi_max cell1_tuple ->
  int_ceil (sx / Mesh.xcell_size (DoubleMesh.mesh2 double_mesh)) = Ok a ->
  int_ceil (sy / Mesh.ycell_size (DoubleMesh.mesh2 double_mesh)) = Ok b ->
  int_ceil (sz / Mesh.zcell_size (DoubleMesh.mesh2 double_mesh)) = Ok c ->
  ~ (- 2 ^ 31 <= a < 2 ^ 31 /\ - 2 ^ 31 <= b < 2 ^ 31 /\
     - 2 ^ 31 <= c < 2 ^ 31) ->
  marked_cylindrical_isolation_engine build
    (with_search_lengths double_mesh sx sy sz) x1in y1in z1in
    x2in y2in z2in weights1in weights2in weight_func_idin rp_max pi_max
    cell1_tuple = Err OverflowError.
Proof.
  intros Hv Ea Eb Ec Hbig.
  destruct (engine_locals_Ok build _ _ _ _ _ _ _ _ _ _ _ _ _ Hv)
    as (L & EL & _).
  unfold marked_cylindrical_isolation_engine.
  assert (E : engine_locals build (with_search_lengths double_mesh sx sy sz)
                x1in y1in z1in x2in y2in z2in weights1in weights2in
                weight_func_idin rp_max pi_max cell1_tuple
              = Err OverflowError).
  { unfold engine_locals in *. unfold with_search_lengths.
    cbn [DoubleMesh.mesh1 DoubleMesh.mesh2 DoubleMesh._PBCs
         DoubleMesh.search_xlength DoubleMesh.search_ylength
         DoubleMesh.search_zlength].
    repeat match type of EL with
           | bind ?r _ = Ok _ =>
               let E := fresh "E" in
               destruct r eqn:E; cbn [bind] in EL |- *; [|discriminate EL]
           end.
    rewrite Ea, Eb, Ec. cbn [bind].
    destruct (Z.le_gt_cases (- 2 ^ 31) a) as [Ha1|Ha1];
      [|rewrite (as_int_overflow a) by lia; reflexivity].
    destruct (Z.lt_ge_cases a (2 ^ 31)) as [Ha2|Ha2];
      [|rewrite (as_int_overflow a) by lia; reflexivity].
    rewrite (as_int_Ok a) by lia. cbn [bind].
    destruct (Z.le_gt_cases (- 2 ^ 31) b) as [Hb1|Hb1];
      [|rewrite (as_int_overflow b) by lia; reflexivity].
    destruct (Z.lt_ge_cases b (2 ^ 31)) as [Hb2|Hb2];
      [|rewrite (as_int_overflow b) by lia; reflexivity].
    rewrite (as_int_Ok b) by lia. cbn [bind].
    rewrite (as_int_overflow c) by lia. reflexivity. }
  rewrite E. reflexivity.
Qed.

Lemma covering_steps_beyond_int_raise_witness :
  marked_cylindrical_isolation_engine Propagated
    (with_search_lengths (Example.double_mesh 1) 1e10 0.75 0.5)
    Example.x1in Example.y1in Example.z1in
    Example.x2in Example.y2in Example.z2in
    Example.weights1in Example.weights2in 0
    Example.rp_max Example.pi_max (0, 2) = Err OverflowError.
Proof.
  apply (covering_steps_beyond_int_raise Propagated (Example.double_mesh 1)
           Example.x1in Example.y1in Example.z1in
           Example.x2in Example.y2in Example.z2in
           Example.weights1in Example.weights2in 0
           Example.rp_max Example.pi_max (0, 2)
           1e10 0.75 0.5 5000000000 1 1).
  - apply (example_valid 1 0 (0, 2) eq_refl).
  - vm_compute. reflexivity.
  - vm_compute. reflexivity.
  - vm_compute. reflexivity.
  - lia.
Defined.

(** ** Relabelling the samples *)

Lemma np_take_compose {A : Type} (a a' : list A) (perm idx' idx : list nat) :
  np_take a perm = Ok a' -> np_take perm idx' = Ok idx ->
  np_take a' idx' = np_take a idx.
Proof.
  intros Ha. apply np_take_inv in Ha. destruct Ha as [_ Hg].
  revert idx. induction idx' as [|k' idx' IH]; intros idx; simpl.
  - intros [= <-]. reflexivity.
  - destruct (nth_error perm k') as [k|] eqn:Ek; [|discriminate].
    destruct (np_take perm idx') as [rest|] eqn:Er; simpl; [|discriminate].
    intros [= <-]. simpl. rewrite (Hg _ _ Ek).
    destruct (nth_error a k); [|reflexivity].
    rewrite (IH rest eq_refl). reflexivity.
Qed.

Lemma np_take_map {A B : Type} (f : A -> B) (a r : list A) (idx : list nat) :
  np_take a idx = Ok r -> np_take (map f a) idx = Ok (map f r).
Proof.
  revert r. induction idx as [|k idx IH]; intros r; simpl.
  - intros [= <-]. reflexivity.
  - rewrite nth_error_map. destruct (nth_error a k) as [v|]; [|discriminate].
    destruct (np_take a idx) as [r'|]; simpl; [|discriminate].
    intros [= <-]. rewrite (IH r' eq_refl). reflexivity.
Qed.

Lemma np_take_in_range {A : Type} (a r : list A) (idx : list nat) :
  np_take a idx = Ok r -> forall k, In k idx -> (k < length a)%nat.
Proof.
  revert r. induction idx as [|k0 idx IH]; intros r; simpl; [intros _ k []|].
  destruct (nth_error a k0) as [v|] eqn:E; [|discriminate].
  destruct (np_take a idx) as [r'|]; simpl; [|discriminate].
  intros _ k [<-|Hk]; [|exact (IH r' eq_refl k Hk)].
  apply nth_error_Some. congruence.
Qed.

(** X12.  Relabelling the secondary sample changes nothing: when the arrays
    of the secondary points are handed over in another order [perm], with the
    sort order of the secondary mesh relabelled to match, the engine returns
    the same array, or raises the same exception. *)
Theorem relabelled_secondary_sample (build : cdef_raise)
    (double_mesh : DoubleMesh.t)
    (x1in y1in z1in x2in y2in z2in x2in' y2in' z2in' : list float)
    (weights1in weights2in weights2in' : list (list float))
    (weight_func_idin : Z) (rp_max pi_max : list float)
    (cell1_tuple : Z * Z) (perm idx_sorted' : list nat) :
  np_take x2in perm = Ok x2in' ->
  np_take y2in perm = Ok y2in' ->
  np_take z2in perm = Ok z2in' ->
  np_take weights2in perm = Ok weights2in' ->
  np_take perm idx_sorted'
    = Ok (Mesh.idx_sorted (DoubleMesh.mesh2 double_mesh)) ->
  marked_cylindrical_isolation_engine build
    (reindex_mesh2 double_mesh idx_sorted') x1in y1in z1in
    x2in' y2in' z2in' weights1in weights2in' weight_func_idin rp_max pi_max
    cell1_tuple
  = marked_cylindrical_isolation_engine build double_mesh x1in y1in z1in
      x2in y2in z2in weights1in weights2in weight_func_idin rp_max pi_max
      cell1_tuple.
Proof.
  intros Hx Hy Hz Hw Hidx.
  assert (EL : engine_locals build (reindex_mesh2 double_mesh idx_sorted')
                 x1in y1in z1in x2in' y2in' z2in' weights1in weights2in'
                 weight_func_idin rp_max pi_max cell1_tuple
               = engine_locals build double_mesh x1in y1in z1in x2in y2in z2in
                   weights1in weights2in weight_func_idin rp_max pi_max
                   cell1_tuple).
  { unfold engine_locals, reindex_mesh2, reindex_mesh. simpl.
    rewrite (np_take_compose _ _ _ _ _ Hx Hidx),
      (np_take_compose _ _ _ _ _ Hy Hidx),
      (np_take_compose _ _ _ _ _ Hz Hidx),
      (np_take_compose _ _ _ _ _ Hw Hidx).
    reflexivity. }
  unfold marked_cylindrical_isolation_engine. rewrite EL. reflexivity.
Qed.

Lemma relabelled_secondary_sample_witness :
  marked_cylindrical_isolation_engine Propagated
    (reindex_mesh2 (Example.double_mesh 1) [1%nat; 0%nat])
    Example.x1in Example.y1in Example.z1in
    [3.75; 1.5]%float [1; 1]%float [1; 1]%float
    Example.weights1in [[2%float]; [1%float]] 0
    Example.rp_max Example.pi_max (0, 2)
  = Example.engine Propagated 1 0 (0, 2).
Proof.
  exact (relabelled_secondary_sample Propagated (Example.double_mesh 1)
           Example.x1in Example.y1in Example.z1in
           Example.x2in Example.y2in Example.z2in
           [3.75; 1.5]%float [1; 1]%float [1; 1]%float
           Example.weights1in Example.weights2in [[2%float]; [1%float]] 0
           Example.rp_max Example.pi_max (0, 2) [1%nat; 0%nat] [1%nat; 0%nat]
           eq_refl eq_refl eq_refl eq_refl eq_refl).
Defined.

Lemma relabelled_valid :
  valid_invocation (reindex_mesh1 (Example.double_mesh 1) [0%nat; 1%nat])
    [1; 3]%float Example.y1in Example.z1in
    Example.x2in Example.y2in Example.z2in
    Example.weights1in Example.weights2in 0
    Example.rp_max Example.pi_max (0, 2).
Proof.
  valid_invocation_tac.
Defined.

(** X11.  Relabelling the primary sample relabels the result: when the
    arrays of the primary points (coordinates, weights, radii) are handed
    over in another order [perm], with the sort order of the primary mesh
    relabelled to match, and both invocations are valid, the array returned
    for the new order is the array returned for the old one taken in the
    order [perm]. *)
Theorem relabelled_primary_sample (build : cdef_raise)
    (double_mesh : DoubleMesh.t)
    (x1in y1in z1in x1in' y1in' z1in' x2in y2in z2in : list float)
    (weights1in weights1in' weights2in : list (list float))
    (weight_func_idin : Z) (rp_max pi_max rp_max' pi_max' : list float)
    (cell1_tuple : Z * Z) (perm idx_sorted' : list nat) :
  valid_invocation double_mesh x1in y1in z1in x2in y2in z2in
    weights1in weights2in weight_func_idin rp_max pi_max cell1_tuple ->
  valid_invocation (reindex_mesh1 double_mesh idx_sorted')
    x1in' y1in' z1in' x2in y2in z2in
    weights1in' weights2in weight_func_idin rp_max' pi_max' cell1_tuple ->
  np_take x1in perm = Ok x1in' ->
  np_take y1in perm = Ok y1in' ->
  np_take z1in perm = Ok z1in' ->
  np_take weights1in perm = Ok weights1in' ->
  np_take rp_max perm = Ok rp_max' ->
  np_take pi_max perm = Ok pi_max' ->
  np_take perm idx_sorted'
    = Ok (Mesh.idx_sorted (DoubleMesh.mesh1 double_mesh)) ->
  exists r r',
    marked_cylindrical_isolation_engine build double_mesh x1in y1in z1in
      x2in y2in z2in weights1in weights2in weight_func_idin rp_max pi_max
      cell1_tuple = Ok r /\
    marked_cylindrical_isolation_engine build
      (reindex_mesh1 double_mesh idx_sorted') x1in' y1in' z1in'
      x2in y2in z2in weights1in' weights2in weight_func_idin rp_max' pi_max'
      cell1_tuple = Ok r' /\
    np_take r perm = Ok r'.
Proof.
  intros Hv Hv' Hx Hy Hz Hw Hrp Hpi Hidx.
  pose proof (vi_idx1 _ _ _ _ _ _ _ _ _ _ _ _ _ Hv) as Hperm.
  pose proof (vi_idx1 _ _ _ _ _ _ _ _ _ _ _ _ _ Hv') as Hperm'.
  simpl in Hperm'.
  destruct (Permutation_seq_bounds _ _ Hperm) as (Hlen & _ & _).
  destruct (Permutation_seq_bounds _ _ Hperm') as (Hlen' & _ & _).
  destruct (np_take_inv _ _ _ Hidx) as [Hlidx Hgidx].
  destruct (np_take_inv _ _ _ Hx) as [Hlx _].
  assert (Hn : length x1in' = length x1in) by congruence.
  assert (EL : engine_locals build (reindex_mesh1 double_mesh idx_sorted')
                 x1in' y1in' z1in' x2in y2in z2in weights1in' weights2in
                 weight_func_idin rp_max' pi_max' cell1_tuple
               = engine_locals build double_mesh x1in y1in z1in x2in y2in z2in
                   weights1in weights2in weight_func_idin rp_max pi_max
                   cell1_tuple).
  { unfold engine_locals, reindex_mesh1, reindex_mesh. simpl.
    rewrite (np_take_compose _ _ _ _ _
               (np_take_map (fun r => (r * r)%float) _ _ _ Hrp) Hidx),
      (np_take_compose _ _ _ _ _
         (np_take_map (fun r => (r * r)%float) _ _ _ Hpi) Hidx),
      (np_take_compose _ _ _ _ _ Hx Hidx),
      (np_take_compose _ _ _ _ _ Hy Hidx),
      (np_take_compose _ _ _ _ _ Hz Hidx),
      (np_take_compose _ _ _ _ _ Hw Hidx), Hn.
    reflexivity. }
  destruct (engine_spec build _ _ _ _ _ _ _ _ _ _ _ _ _ Hv)
    as (L & hn & r & EL1 & _ & Es & Er & Hhn & Hrlen & _ & _ & Hr).
  destruct (engine_spec build _ _ _ _ _ _ _ _ _ _ _ _ _ Hv')
    as (L' & hn' & r' & EL1' & _ & Es' & Er' & Hhn' & Hrlen' & _ & _ & Hr').
  rewrite EL, EL1 in EL1'. injection EL1' as <-.
  rewrite Hn, Es in Es'. injection Es' as <-.
  simpl in Hr'.
  exists r, r'. split; [exact Er|]. split; [exact Er'|].
  destruct (np_take_Ok r perm) as (r'' & E'' & Hl'' & Hg'').
  { apply Forall_forall. intros k Hk. rewrite Hrlen.
    eapply np_take_in_range; eassumption. }
  rewrite E''. f_equal.
  apply nth_ext with (d := 0%float) (d' := 0%float); [congruence|].
  intros i Hi. rewrite Hl'', <- Hlx in Hi.
  destruct (sorted_position _ _ i Hperm' Hi) as (p' & _ & Hp').
  destruct (nth_error perm i) as [k|] eqn:Ek;
    [|apply nth_error_None in Ek; lia].
  assert (Hk : nth_error (Mesh.idx_sorted (DoubleMesh.mesh1 double_mesh)) p'
               = Some k) by (rewrite (Hgidx _ _ Hp'); exact Ek).
  assert (Hklt : (k < length r)%nat).
  { rewrite Hrlen. eapply np_take_in_range; [exact Hx|].
    eapply nth_error_In, Ek. }
  assert (E1 : nth i r'' 0%float = nth k r 0%float).
  { apply nth_error_nth. rewrite (Hg'' _ _ Ek).
    apply nth_error_nth'. exact Hklt. }
  rewrite E1.
  destruct (Hr p' k Hk) as [Rz Rnz]. destruct (Hr' p' i Hp') as [Rz' Rnz'].
  destruct (Z.eq_dec (nth p' hn 0) 0) as [E0|E0].
  - rewrite (Rz E0), (Rz' E0). reflexivity.
  - rewrite (Rnz E0), (Rnz' E0). reflexivity.
Qed.

Lemma relabelled_primary_sample_witness :
  exists r r',
    Example.engine Propagated 1 0 (0, 2) = Ok r /\
    marked_cylindrical_isolation_engine Propagated
      (reindex_mesh1 (Example.double_mesh 1) [0%nat; 1%nat])
      [1; 3]%float Example.y1in Example.z1in
      Example.x2in Example.y2in Example.z2in
      Example.weights1in Example.weights2in 0
      Example.rp_max Example.pi_max (0, 2) = Ok r' /\
    np_take r [1%nat; 0%nat] = Ok r'.
Proof.
  exact (relabelled_primary_sample Propagated (Example.double_mesh 1)
           Example.x1in Example.y1in Example.z1in
           [1; 3]%float Example.y1in Example.z1in
           Example.x2in Example.y2in Example.z2in
           Example.weights1in Example.weights1in Example.weights2in 0
           Example.rp_max Example.pi_max Example.rp_max Example.pi_max
           (0, 2) [1%nat; 0%nat] [0%nat; 1%nat]
           (example_valid 1 0 (0, 2) eq_refl)
           relabelled_valid
           eq_refl eq_refl eq_refl eq_refl eq_refl eq_refl eq_refl).
Defined.

(** ** Lattice coordinates and flattened indices *)

(** The coordinates the scan of a non-empty primary cell works with are
    those of [cell1_coordinates]. *)
Lemma scan_cell1_coordinates (L : locals) (icell1 ifirst1 ilast1 : Z)
    (has_neighbor : list Z) :
  view_get (cell1_indices L) icell1 = Ok ifirst1 ->
  view_get (cell1_indices L) (icell1 + 1) = Ok ilast1 ->
  0 < ilast1 - ifirst1 ->
  scan_cell1 L icell1 has_neighbor =
    (c <- cell1_coordinates L icell1 ;;
     for_in (scanned_ix2 L (fst (fst c))) (fun nonPBC_ix2 has_neighbor =>
       let x2shift := axis_shift L (xperiod L) (num_x2divs L) nonPBC_ix2 in
       ix2 <- py_mod nonPBC_ix2 (num_x2divs L) ;;
       for_in (scanned_iy2 L (snd (fst c))) (fun nonPBC_iy2 has_neighbor =>
         let y2shift := axis_shift L (yperiod L) (num_y2divs L) nonPBC_iy2 in
         iy2 <- py_mod nonPBC_iy2 (num_y2divs L) ;;
         for_in (scanned_iz2 L (snd c)) (fun nonPBC_iz2 has_neighbor =>
           let z2shift :=
             axis_shift L (zperiod L) (num_z2divs L) nonPBC_iz2 in
           iz2 <- py_mod nonPBC_iz2 (num_z2divs L) ;;
           scan_cell2 L ifirst1 (ilast1 - ifirst1) ix2 iy2 iz2
             x2shift y2shift z2shift has_neighbor)
           has_neighbor) has_neighbor) has_neighbor).
Proof.
  intros E1 E1' HNi. unfold scan_cell1, cell1_coordinates.
  rewrite E1, E1'. simpl.
  destruct (Z.ltb_spec 0 (ilast1 - ifirst1)); [|lia].
  destruct (py_floordiv icell1 (num_y1divs L * num_z1divs L)) as [ix1|];
    simpl; [|reflexivity].
  destruct (py_floordiv _ (num_z1divs L)) as [iy1|]; reflexivity.
Qed.

(** X13.  The lattice coordinate computed for a primary cell index (lines
    166-168) inverts the flattening of the grid: for positive division
    counts and a cell index of the grid, the three coordinates lie in their
    ranges and flatten back to the index, and the coordinates of a
    flattened in-range triple are that triple. *)
Theorem cell1_coordinates_round_trip (L : locals) (icell1 : Z) :
  0 < num_y1divs L -> 0 < num_z1divs L ->
  0 <= icell1 < num_x1divs L * (num_y1divs L * num_z1divs L) ->
  (exists ix1 iy1 iz1,
     cell1_coordinates L icell1 = Ok (ix1, iy1, iz1) /\
     0 <= ix1 < num_x1divs L /\
     0 <= iy1 < num_y1divs L /\
     0 <= iz1 < num_z1divs L /\
     ix1 * (num_y1divs L * num_z1divs L) + iy1 * num_z1divs L + iz1
       = icell1) /\
  (forall ix1 iy1 iz1,
     0 <= ix1 -> 0 <= iy1 < num_y1divs L -> 0 <= iz1 < num_z1divs L ->
     cell1_coordinates L
       (ix1 * (num_y1divs L * num_z1divs L) + iy1 * num_z1divs L + iz1)
     = Ok (ix1, iy1, iz1)).
Proof.
  intros Hy Hz Hc.
  set (ny := num_y1divs L) in *. set (nz := num_z1divs L) in *.
  assert (Hyz : 0 < ny * nz) by nia.
  split.
  - unfold cell1_coordinates. fold ny nz.
    rewrite py_floordiv_Ok by lia. simpl.
    rewrite py_floordiv_Ok by lia. simpl.
    set (ix1 := icell1 / (ny * nz)).
    assert (Hrem : icell1 - ix1 * ny * nz = icell1 mod (ny * nz))
      by (rewrite Z.mod_eq by lia; unfold ix1; lia).
    pose proof (Z.mod_pos_bound icell1 (ny * nz) Hyz) as Hrb.
    set (rem := icell1 - ix1 * ny * nz) in *.
    set (iy1 := rem / nz).
    assert (Hrem2 : rem - iy1 * nz = rem mod nz)
      by (rewrite Z.mod_eq by lia; unfold iy1; lia).
    pose proof (Z.mod_pos_bound rem nz Hz) as Hzb.
    exists ix1, iy1, (rem - iy1 * nz). split; [reflexivity|].
    assert (0 <= ix1) by (apply Z.div_pos; lia).
    assert (ix1 < num_x1divs L)
      by (apply Z.div_lt_upper_bound; [lia | nia]).
    assert (0 <= iy1) by (apply Z.div_pos; lia).
    assert (iy1 < ny) by (apply Z.div_lt_upper_bound; [lia | nia]).
    repeat split; lia.
  - intros ix1 iy1 iz1 Hx Hiy Hiz. unfold cell1_coordinates. fold ny nz.
    rewrite py_floordiv_Ok by lia. simpl.
    assert (E1 : (ix1 * (ny * nz) + iy1 * nz + iz1) / (ny * nz) = ix1).
    { symmetry. apply (Z.div_unique _ _ _ (iy1 * nz + iz1)); [nia | lia]. }
    rewrite E1. rewrite py_floordiv_Ok by lia. simpl.
    assert (E2 : (ix1 * (ny * nz) + iy1 * nz + iz1 - ix1 * ny * nz) / nz
                 = iy1).
    { symmetry. apply (Z.div_unique _ _ _ iz1); [lia | lia]. }
    rewrite E2. f_equal. f_equal. lia.
Qed.

Lemma cell1_coordinates_round_trip_witness :
  cell1_coordinates (Example.L 1 trivial) 1 = Ok (1, 0, 0).
Proof.
  destruct (cell1_coordinates_round_trip (Example.L 1 trivial) 1
              eq_refl eq_refl (conj (Zle_bool_imp_le 0 1 eq_refl) eq_refl))
    as [_ Hinv].
  exact (Hinv 1 0 0 (Zle_bool_imp_le 0 1 eq_refl)
           (conj (Z.le_refl 0) eq_refl) (conj (Z.le_refl 0) eq_refl)).
Defined.

(** X14.  The flattened index of the wrapped secondary coordinates lies in
    the offset table for every raw coordinate triple, and two in-range
    triples with the same flattened index are the same cell. *)
Theorem flat_cell2_in_table_and_injective (L : locals) :
  0 < num_x2divs L -> 0 < num_y2divs L -> 0 < num_z2divs L ->
  (forall nonPBC_ix2 nonPBC_iy2 nonPBC_iz2,
     0 <= flat_cell2 L (nonPBC_ix2 mod num_x2divs L)
            (nonPBC_iy2 mod num_y2divs L) (nonPBC_iz2 mod num_z2divs L)
       < num_x2divs L * num_y2divs L * num_z2divs L) /\
  (forall ix2 iy2 iz2 ix2' iy2' iz2',
     0 <= iy2 < num_y2divs L -> 0 <= iz2 < num_z2divs L ->
     0 <= iy2' < num_y2divs L -> 0 <= iz2' < num_z2divs L ->
     flat_cell2 L ix2 iy2 iz2 = flat_cell2 L ix2' iy2' iz2' ->
     ix2 = ix2' /\ iy2 = iy2' /\ iz2 = iz2').
Proof.
  intros Hx Hy Hz. split.
  - intros rx ry rz. unfold flat_cell2.
    pose proof (Z.mod_pos_bound rx _ Hx).
    pose proof (Z.mod_pos_bound ry _ Hy).
    pose proof (Z.mod_pos_bound rz _ Hz).
    set (ix := rx mod num_x2divs L) in *.
    set (iy := ry mod num_y2divs L) in *.
    set (iz := rz mod num_z2divs L) in *.
    assert (0 <= iy * num_z2divs L + iz < num_y2divs L * num_z2divs L)
      by nia.
    assert (0 <= ix * (num_y2divs L * num_z2divs L)
              <= (num_x2divs L - 1) * (num_y2divs L * num_z2divs L)) by nia.
    nia.
  - intros ix iy iz ix' iy' iz' Hiy Hiz Hiy' Hiz' E. unfold flat_cell2 in E.
    set (ny := num_y2divs L) in *. set (nz := num_z2divs L) in *.
    assert (Hyz : 0 < ny * nz) by nia.
    assert (Hr : 0 <= iy * nz + iz < ny * nz) by nia.
    assert (Hr' : 0 <= iy' * nz + iz' < ny * nz) by nia.
    assert (Ex : ix = ix').
    { rewrite (Z.div_unique (ix * (ny * nz) + iy * nz + iz) (ny * nz) ix
                 (iy * nz + iz)) by (lia || nia).
      rewrite E.
      symmetry. apply (Z.div_unique _ _ _ (iy' * nz + iz')); [lia | lia]. }
    subst ix'.
    assert (Ey : iy = iy').
    { rewrite (Z.div_unique (iy * nz + iz) nz iy iz) by lia.
      replace (iy * nz + iz) with (iy' * nz + iz') by lia.
      symmetry. apply (Z.div_unique _ _ _ iz'); lia. }
    subst iy'. repeat split. lia.
Qed.

Lemma flat_cell2_in_table_and_injective_witness :
  0 <= flat_cell2 (Example.L 1 trivial) (-1 mod 2) (5 mod 1) (-3 mod 1) < 2.
Proof.
  destruct (flat_cell2_in_table_and_injective (Example.L 1 trivial)
              eq_refl eq_refl eq_refl) as [Hrange _].
  exact (Hrange (-1) 5 (-3)).
Defined.

(** ** Covering steps *)

(** X15.  Whenever the set-up of the engine succeeds, the covering steps of
    each axis are the ceiling of the quotient of the mesh's search length by
    the secondary cell size: the least integer not below it.  A quotient that
    is an infinity or a NaN (a cell size of zero) never gets that far. *)
Theorem covering_steps_are_ceilings (build : cdef_raise)
    (double_mesh : DoubleMesh.t)
    (x1in y1in z1in x2in y2in z2in : list float)
    (weights1in weights2in : list (list float)) (weight_func_idin : Z)
    (rp_max pi_max : list float) (cell1_tuple : Z * Z) (L : locals) :
  engine_locals build double_mesh x1in y1in z1in x2in y2in z2in
    weights1in weights2in weight_func_idin rp_max pi_max cell1_tuple
  = Ok L ->
  let mesh2 := DoubleMesh.mesh2 double_mesh in
  ceiling_of (DoubleMesh.search_xlength double_mesh / Mesh.xcell_size mesh2)
    (num_x2_covering_steps L) /\
  ceiling_of (DoubleMesh.search_ylength double_mesh / Mesh.ycell_size mesh2)
    (num_y2_covering_steps L) /\
  ceiling_of (DoubleMesh.search_zlength double_mesh / Mesh.zcell_size mesh2)
    (num_z2_covering_steps L).
Proof.
  intros EL mesh2. subst mesh2.
  pose proof (engine_locals_inv _ _ _ _ _ _ _ _ _ _ _ _ _ _ _ EL) as HLo.
  repeat split; apply int_ceil_least.
  - apply (lo_xsteps _ _ _ _ _ _ _ _ _ _ _ _ _ _ HLo).
  - apply (lo_ysteps _ _ _ _ _ _ _ _ _ _ _ _ _ _ HLo).
  - apply (lo_zsteps _ _ _ _ _ _ _ _ _ _ _ _ _ _ HLo).
Qed.

Lemma covering_steps_are_ceilings_witness :
  ceiling_of (0.75 / 2)%float 1 /\ ceiling_of (0.75 / 4)%float 1 /\
  ceiling_of (0.5 / 4)%float 1.
Proof.
  exact (covering_steps_are_ceilings Propagated (Example.double_mesh 1)
           Example.x1in Example.y1in Example.z1in
           Example.x2in Example.y2in Example.z2in
           Example.weights1in Example.weights2in 0
           Example.rp_max Example.pi_max (0, 2) (Example.L 1 trivial)
           eq_refl).
Defined.
